(** * libauth template compiler: [src/lib/template/compiler.ts]

    A shallow embedding of the compiler facade ([createCompiler],
    [createCompilerCommonSynchronous],
    [authenticationTemplateToCompilationEnvironment]) and of the
    compilation pipeline it drives, [compileScript] of
    [./language/compile]: lexer, parser, resolver and bytecode generator.
    [createCompiler] is embedded twice: on values, and in [Store] among
    the objects of a program, where what a call does to them can be said.
    The definitions come first, then the properties: of the facade, of the
    lexer, of the pipeline up to source ranges, of comments, of script
    numbers and integer pushes, and the end-to-end tests of
    [compiler.e2e.langauge.spec.ts]. *)

From Stdlib Require Import ZArith List String Ascii Lia Bool DecimalString DecimalPos.
From stdpp Require Import gmap strings list fin_maps.

Set Warnings "-register-all,-clear-no-such-hyp".
Local Open Scope Z_scope.

(** A [Uint8Array]: every element is a byte held in a [Z]. *)
Abbreviation Bytes := (list Z) (only parsing).

(** ** JavaScript objects used as dictionaries *)
Module Js.

(** [Object.entries(o)]: the own enumerable properties in enumeration
    order. *)
Abbreviation Entries V := (list (string * V)) (only parsing).

(** [{ ...target, ...source }] for two plain objects: the properties of
    [source] shadow those of [target]. *)
Definition spread {V} (target source : gmap string V) : gmap string V :=
  source ∪ target.

(** [{ ...target, [key]: value }]. *)
Definition set {V} (target : gmap string V) (key : string) (value : V)
  : gmap string V :=
  <[key := value]> target.

(** [{ ...target, ...source }] where [source] is enumerated property by
    property, a later property shadowing an earlier one. *)
Definition spreadEntries {V} (target : gmap string V) (source : Entries V)
  : gmap string V :=
  foldl (fun acc kv => set acc kv.1 kv.2) target source.

(** [{ ...target, ...source }] where [source] may be [undefined]. *)
Definition spreadOptional {V} (target : gmap string V)
  (source : option (Entries V)) : gmap string V :=
  match source with
  | Some entries => spreadEntries target entries
  | None => target
  end.

(** An optional property of an object literal: not an own property, an own
    property holding [undefined], or an own property holding a value. *)
Inductive Property (A : Type) : Type :=
| Missing
| Undefined
| Defined (value : A).
Arguments Missing {A}.
Arguments Undefined {A}.
Arguments Defined {A} value.

(** ['key' in def && def.key !== undefined], yielding the value read. *)
Definition declared {A} (p : Property A) : option A :=
  match p with
  | Defined value => Some value
  | Missing | Undefined => None
  end.

End Js.

(** ** [createCompiler] *)
Section CreateCompiler.

Context {CompilationData Environment ErrorType CompilationError Artifacts : Type}.

(** The result of [compileScript]: a union discriminated by [success], whose
    members also carry the intermediate artifacts of the compilation. *)
Inductive CompilationResult : Type :=
| CompilationResultSuccess (bytecode : Bytes) (artifacts : Artifacts)
| CompilationResultError (errorType : ErrorType)
    (errors : list CompilationError) (artifacts : Artifacts).

(** What [generateBytecode] hands back (its TypeScript type is [any]). *)
Inductive GenerateBytecodeResult : Type :=
| DebugResult (result : CompilationResult)
| BytecodeResult (bytecode : Bytes)
| ErrorResult (errorType : ErrorType) (errors : list CompilationError).

(** [compileScript] is imported from [./language/compile]. *)
Variable compileScript :
  string -> CompilationData -> Environment -> CompilationResult.

(** The [Compiler] object [createCompiler] returns. *)
Record Compiler : Type := {
  environment : Environment;
  generateBytecode :
    string -> CompilationData -> bool -> GenerateBytecodeResult;
}.

(** [createCompiler(compilationEnvironment)]; [debug] defaults to [false]
    at the call. *)
Definition createCompiler (compilationEnvironment : Environment) : Compiler :=
  {| environment := compilationEnvironment;
     generateBytecode := fun scriptId data debug =>
       let result := compileScript scriptId data compilationEnvironment in
       if debug then DebugResult result
       else match result with
            | CompilationResultSuccess bytecode _ => BytecodeResult bytecode
            | CompilationResultError errorType errors _ =>
                ErrorResult errorType errors
            end |}.

End CreateCompiler.

Arguments CompilationResult : clear implicits.
Arguments GenerateBytecodeResult : clear implicits.
Arguments Compiler : clear implicits.

(** ** [createCompiler] among the objects of a program

    The environment handed to [createCompiler] is an object that its
    caller, the compiler and [compileScript] share by reference, and the
    compiler is an object too.  Here the objects live in a heap, and a
    call takes the heap it runs on to the heap it leaves. *)
Module Store.

Section Objects.

Context {Content CompilationData ErrorType CompilationError Artifacts : Type}.

(** A reference to an object. *)
Definition Ref : Type := positive.

(** The function literal of lines 42-61 together with the variable it
    closes over, the parameter [compilationEnvironment] of the
    [createCompiler] call that made it. *)
Inductive Closure : Type :=
| GenerateBytecodeClosure (compilationEnvironment : Ref).

(** An object: one with properties of its own, such as an environment, or
    a compiler, the object literal of lines 40-62 with its two
    properties. *)
Inductive Object : Type :=
| PlainObject (content : Content)
| CompilerObject (environment : Ref) (generateBytecode : Closure).

(** The objects of the program, by reference. *)
Abbreviation Heap := (gmap Ref Object) (only parsing).

(** [compileScript] is imported from [./language/compile]: it is given the
    reference to the environment, and runs on the heap. *)
Variable compileScript :
  string -> CompilationData -> Ref -> Heap ->
  CompilationResult ErrorType CompilationError Artifacts * Heap.

(** [createCompiler(compilationEnvironment)]: a new object whose
    [environment] is the reference it was given and whose
    [generateBytecode] closes over the same reference. *)
Definition createCompiler (compilationEnvironment : Ref) (heap : Heap)
  : Ref * Heap :=
  let compiler := fresh (dom heap) in
  (compiler,
   <[compiler := CompilerObject compilationEnvironment
                   (GenerateBytecodeClosure compilationEnvironment)]> heap).

(** The body of [generateBytecode], lines 51-60: the call of
    [compileScript] and the value returned; the heap the call leaves is the
    one [compileScript] leaves. *)
Definition run (closure : Closure) (scriptId : string)
  (data : CompilationData) (debug : bool) (heap : Heap)
  : GenerateBytecodeResult ErrorType CompilationError Artifacts * Heap :=
  match closure with
  | GenerateBytecodeClosure compilationEnvironment =>
      let '(result, heap') :=
        compileScript scriptId data compilationEnvironment heap in
      (if debug then DebugResult result
       else match result with
            | CompilationResultSuccess bytecode _ => BytecodeResult bytecode
            | CompilationResultError errorType errors _ =>
                ErrorResult errorType errors
            end,
       heap')
  end.

(** [compiler.generateBytecode(scriptId, data, debug)]: the property is
    read off the object and called; there is no result when the reference
    holds no compiler. *)
Definition generateBytecode (compiler : Ref) (scriptId : string)
  (data : CompilationData) (debug : bool) (heap : Heap)
  : option (GenerateBytecodeResult ErrorType CompilationError Artifacts * Heap) :=
  match heap !! compiler with
  | Some (CompilerObject _ closure) => Some (run closure scriptId data debug heap)
  | _ => None
  end.

(** [compiler.environment]. *)
Definition environment (compiler : Ref) (heap : Heap) : option Ref :=
  match heap !! compiler with
  | Some (CompilerObject compilationEnvironment _) => Some compilationEnvironment
  | _ => None
  end.

(** The arguments of one call of [compiler.generateBytecode]. *)
Record Invocation : Type := {
  inv_scriptId : string;
  inv_data : CompilationData;
  inv_debug : bool;
}.

(** A sequence of calls on a compiler, in order, each on the heap the one
    before it left. *)
Fixpoint invokeAll (compiler : Ref) (calls : list Invocation) (heap : Heap)
  : option (list (GenerateBytecodeResult ErrorType CompilationError Artifacts)
            * Heap) :=
  match calls with
  | [] => Some ([], heap)
  | call :: rest =>
      match generateBytecode compiler (inv_scriptId call) (inv_data call)
              (inv_debug call) heap with
      | Some (result, heap') =>
          match invokeAll compiler rest heap' with
          | Some (results, heap'') => Some (result :: results, heap'')
          | None => None
          end
      | None => None
      end
  end.

(** A [compileScript] that reads the object its environment reference
    holds and writes nothing. *)
Definition reading
  (compile : string -> CompilationData -> option Object ->
             CompilationResult ErrorType CompilationError Artifacts)
  (scriptId : string) (data : CompilationData) (compilationEnvironment : Ref)
  (heap : Heap)
  : CompilationResult ErrorType CompilationError Artifacts * Heap :=
  (compile scriptId data (heap !! compilationEnvironment), heap).

End Objects.

Arguments Object : clear implicits.
Arguments Invocation : clear implicits.

(** The objects of the program, by reference. *)
Abbreviation Heap Content := (gmap Ref (Object Content)) (only parsing).

End Store.

(** ** [createCompilerCommonSynchronous] *)
Section CreateCompilerCommonSynchronous.

(** The values an environment property can hold. *)
Context {Value CompilationData ErrorType CompilationError Artifacts : Type}.

(** The defaults come from modules outside this file:
    [compilerCreateStateCommon] builds on the VM's state constructors,
    [generateBytecodeMap(OpcodesCommon)] and [compilerOperationsCommon]. *)
Variables (compilerCreateStateCommon generateBytecodeMap_OpcodesCommon
  compilerOperationsCommon : Value).

Variable compileScript :
  string -> CompilationData -> gmap string Value ->
  CompilationResult ErrorType CompilationError Artifacts.

(** The object literal of the defaults that the argument is spread over. *)
Definition commonDefaults : gmap string Value :=
  {[ "createState" := compilerCreateStateCommon;
     "opcodes" := generateBytecodeMap_OpcodesCommon;
     "operations" := compilerOperationsCommon ]}.

(** [createCompilerCommonSynchronous(scriptsAndOverrides)]. *)
Definition createCompilerCommonSynchronous
  (scriptsAndOverrides : gmap string Value)
  : Compiler CompilationData (gmap string Value) ErrorType CompilationError
      Artifacts :=
  createCompiler compileScript (Js.spread commonDefaults scriptsAndOverrides).

End CreateCompilerCommonSynchronous.

(** ** [authenticationTemplateToCompilationEnvironment] *)
Section TemplateEnvironment.

(** [AuthenticationTemplateVariable] and the type tags are declared in
    [./template-types]. *)
Context {AuthenticationTemplateVariable LockingType TimeLockType : Type}.

(** An entity of the template; [variables] is optional, and is held as
    the entries of the object, in enumeration order. *)
Record AuthenticationTemplateEntity : Type := {
  variables : option (Js.Entries AuthenticationTemplateVariable);
}.

(** A script of the template: its source and its optional tags. *)
Record AuthenticationTemplateScript : Type := {
  script : string;
  unlocks : Js.Property string;
  timeLockType : Js.Property TimeLockType;
  lockingType : Js.Property LockingType;
}.

(** The template: [entities] and [scripts] are objects keyed by id, held as
    their entries in the order [Object.entries] enumerates them. *)
Record AuthenticationTemplate : Type := {
  entities : Js.Entries AuthenticationTemplateEntity;
  scripts : Js.Entries AuthenticationTemplateScript;
}.

(** The part of a [CompilationEnvironment] the function returns. *)
Record TemplateEnvironment : Type := {
  env_entityOwnership : gmap string string;
  env_lockingScriptTypes : gmap string LockingType;
  env_scripts : gmap string string;
  env_unlockingScriptTimeLockTypes : gmap string TimeLockType;
  env_unlockingScripts : gmap string string;
  env_variables : gmap string AuthenticationTemplateVariable;
}.

(** [Object.keys(entity.variables ?? {})]. *)
Definition variableIds (entity : AuthenticationTemplateEntity) : list string :=
  match variables entity with
  | Some entries => entries.*1
  | None => []
  end.

(** The reducer of the three tag maps: an entry only for a script whose
    definition carries the property with a value other than [undefined]. *)
Definition collectDeclared {A}
  (field : AuthenticationTemplateScript -> Js.Property A)
  (all : gmap string A) (entry : string * AuthenticationTemplateScript)
  : gmap string A :=
  match Js.declared (field entry.2) with
  | Some value => Js.set all entry.1 value
  | None => all
  end.

(** The reducer of [variables]: [{ ...all, ...entity.variables }]. *)
Definition mergeVariables (all : gmap string AuthenticationTemplateVariable)
  (entity : AuthenticationTemplateEntity)
  : gmap string AuthenticationTemplateVariable :=
  Js.spreadOptional all (variables entity).

(** The inner reducer of [entityOwnership]:
    [{ ...entityVariables, [variableId]: entityId }]. *)
Definition ownedBy (entityId : string) (entityVariables : gmap string string)
  (variableId : string) : gmap string string :=
  Js.set entityVariables variableId entityId.

(** The reducer of [entityOwnership]. *)
Definition mergeOwnership (all : gmap string string)
  (entry : string * AuthenticationTemplateEntity) : gmap string string :=
  Js.spread all (foldl (ownedBy entry.1) ∅ (variableIds entry.2)).

(** [authenticationTemplateToCompilationEnvironment(template)]: six
    reductions over the entries of the template's scripts and entities. *)
Definition authenticationTemplateToCompilationEnvironment
  (template : AuthenticationTemplate) : TemplateEnvironment :=
  let scripts' :=
    foldl (fun all entry => Js.set all entry.1 (script entry.2)) ∅
      (scripts template) in
  let variables' := foldl mergeVariables ∅ (entities template).*2 in
  let entityOwnership := foldl mergeOwnership ∅ (entities template) in
  let unlockingScripts := foldl (collectDeclared unlocks) ∅ (scripts template) in
  let unlockingScriptTimeLockTypes :=
    foldl (collectDeclared timeLockType) ∅ (scripts template) in
  let lockingScriptTypes :=
    foldl (collectDeclared lockingType) ∅ (scripts template) in
  {| env_entityOwnership := entityOwnership;
     env_lockingScriptTypes := lockingScriptTypes;
     env_scripts := scripts';
     env_unlockingScriptTimeLockTypes := unlockingScriptTimeLockTypes;
     env_unlockingScripts := unlockingScripts;
     env_variables := variables' |}.

End TemplateEnvironment.

Arguments AuthenticationTemplateEntity : clear implicits.
Arguments AuthenticationTemplateScript : clear implicits.
Arguments AuthenticationTemplate : clear implicits.
Arguments TemplateEnvironment : clear implicits.

(** ** The compilation pipeline behind [compileScript], [./language/compile] *)
Module Language.

(** Modelled from the spec: the source range every token, node and error
    carries (section 3); offsets count characters of the script. *)
Record Range : Type := {
  startOffset : nat;
  endOffset : nat;
}.

(** Modelled from the spec: the error taxonomy of section 7. *)
Inductive ErrorType : Type :=
| LexError
| ParseError
| ResolutionError
| EvaluationExecutionError
| EncodingError.

(** Modelled from the spec: a located error (section 7); [chain] lists the
    ids of the scripts through whose references the error propagated. *)
Record CompilationError : Type := {
  error : string;
  range : Range;
  chain : list string;
}.

(** Modelled from the spec: the failure a stage stops with, one error kind
    and its located errors (section 3, CompilationResult). *)
Record Failure : Type := {
  failureType : ErrorType;
  failureErrors : list CompilationError;
}.

(** Modelled from the spec: a stage either yields its value or fails; a
    failure ends the compilation at once (section 5). *)
Definition Result (A : Type) : Type := A + Failure.

(** Modelled from the spec: a stage that yields its value. *)
Definition ok {A} (a : A) : Result A := inl a.

(** Modelled from the spec: a stage that fails, reporting once one error
    with the range of the offending excerpt (sections 5 and 7). *)
Definition fail {A} (type : ErrorType) (message : string) (at_ : Range)
  : Result A :=
  inr {| failureType := type;
         failureErrors := [ {| error := message; range := at_; chain := [] |} ] |}.

(** Modelled from the spec: the stages in sequence; a failure ends the
    compilation and is what the compilation returns (section 5). *)
Definition bind {A B} (m : Result A) (k : A -> Result B) : Result B :=
  match m with
  | inl a => k a
  | inr failure => inr failure
  end.

Notation "'let*' x ':=' m 'in' k" := (bind m (fun x => k))
  (at level 10, x name, m at level 100, k at level 200, only parsing).

(** *** Lexer *)

(** Modelled from the spec: the two comment forms, [//] to the end of the
    line and [/* ... */] (section 4.1). *)
Inductive CommentStyle : Type :=
| LineStyle
| BlockStyle.

(** Modelled from the spec: the token classes of section 3.  Opcode names and
    identifiers share one lexical form (section 4.1) and one lookup order
    (section 4.3), so both are [TIdentifier] until resolution. *)
Inductive TokenKind : Type :=
| TIdentifier (name : string)
| TInteger (value : Z)
| THex (digits : list ascii)
| TUtf8 (content : list ascii)
| TPushOpen
| TPushClose
| TEvaluationOpen
| TEvaluationClose
| TComment (style : CommentStyle)
| TWhitespace.

(** Modelled from the spec: a classified source fragment with its source
    range (section 3). *)
Record Token : Type := {
  kind : TokenKind;
  tokenRange : Range;
}.

(** Modelled from the spec: the character classes of the lexer
    (section 4.1), by character code. *)
Definition inRange (lo hi : nat) (c : ascii) : bool :=
  let n := nat_of_ascii c in (lo <=? n)%nat && (n <=? hi)%nat.

(** Modelled from the spec: whitespace and newlines separate tokens
    (section 4.1): tab, line feed, vertical tab, form feed, carriage return,
    space. *)
Definition isWhitespace (c : ascii) : bool :=
  inRange 9 13 c || (c =? " ")%char.

(** Modelled from the spec: the line break that ends a line comment
    (section 4.1). *)
Definition isNewline (c : ascii) : bool := (nat_of_ascii c =? 10)%nat.

(** Modelled from the spec: the characters a line comment runs over
    (section 4.1). *)
Definition withinLine (c : ascii) : bool := negb (isNewline c).

(** Modelled from the spec: the digits of a decimal integer (section 4.1). *)
Definition isDigit (c : ascii) : bool := inRange 48 57 c.

(** Modelled from the spec: the digits of a hex literal (section 4.1). *)
Definition isHexDigit (c : ascii) : bool :=
  isDigit c || inRange 65 70 c || inRange 97 102 c.

(** Modelled from the spec: the identifier form [[A-Za-z_][A-Za-z0-9_]*]
    (section 4.1), its first character. *)
Definition isIdentifierStart (c : ascii) : bool :=
  inRange 65 90 c || inRange 97 122 c || (c =? "_")%char.

(** Modelled from the spec: the identifier form (section 4.1), its other
    characters. *)
Definition isIdentifierPart (c : ascii) : bool :=
  isIdentifierStart c || isDigit c.

(** Modelled from the spec: the longest match of a token form
    (section 4.1): the longest prefix whose characters satisfy [p], and what
    follows it. *)
Fixpoint span (p : ascii -> bool) (s : list ascii)
  : list ascii * list ascii :=
  match s with
  | c :: rest =>
      if p c then let '(taken, after) := span p rest in (c :: taken, after)
      else ([], s)
  | [] => ([], [])
  end.

(** Modelled from the spec: a block comment is closed by the first
    terminator after its opener, without nesting (section 4.1).  Returns the
    comment body and what follows the terminator. *)
Fixpoint untilBlockEnd (s : list ascii) : option (list ascii * list ascii) :=
  match s with
  | [] => None
  | c :: rest =>
      match rest with
      | d :: rest' =>
          if (c =? "*")%char && (d =? "/")%char then Some ([], rest')
          else match untilBlockEnd rest with
               | Some (body, after) => Some (c :: body, after)
               | None => None
               end
      | [] => None
      end
  end.

(** Modelled from the spec: the value of a decimal digit (section 4.1). *)
Definition digitValue (c : ascii) : Z := Z.of_nat (nat_of_ascii c) - 48.

(** Modelled from the spec: the value of a decimal integer literal
    (section 4.1), a run of digits, most significant first. *)
Definition decimalValue (digits : list ascii) : Z :=
  fold_left (fun acc c => 10 * acc + digitValue c) digits 0.

(** Modelled from the spec: one step of the lexer (section 4.1): the end of
    the input, the next token and the input left after it, or a lexical
    error. *)
Inductive Scan : Type :=
| ScanEnd
| ScanToken (found : TokenKind) (rest : list ascii)
| ScanError (message : string).

(** Modelled from the spec: a signed decimal integer (section 4.1); [s]
    starts at its first digit. *)
Definition scanInteger (negative : bool) (s : list ascii) : Scan :=
  let '(digits, rest) := span isDigit s in
  ScanToken (TInteger (if negative then - decimalValue digits
                       else decimalValue digits)) rest.

(** Modelled from the spec: a quoted UTF8 string (section 4.1), closed by
    the quote that opened it, without escapes; [s] starts after the opening
    quote.  An unterminated literal is a lexical error. *)
Definition scanUtf8 (quote : ascii) (s : list ascii) : Scan :=
  let '(content, rest) := span (fun c => negb (c =? quote)%char) s in
  match rest with
  | _ :: rest' => ScanToken (TUtf8 content) rest'
  | [] => ScanError "unterminated string literal"
  end.

(** Modelled from the spec: the recognized forms of section 4.1, the longest
    match taken at each position. *)
Definition scan (s : list ascii) : Scan :=
  match s with
  | [] => ScanEnd
  | c :: rest =>
      if isWhitespace c then ScanToken TWhitespace rest
      else if (c =? "/")%char then
        match rest with
        | d :: rest' =>
            if (d =? "/")%char then
              ScanToken (TComment LineStyle)
                (span withinLine rest').2
            else if (d =? "*")%char then
              match untilBlockEnd rest' with
              | Some (_, after) => ScanToken (TComment BlockStyle) after
              | None => ScanError "unterminated block comment"
              end
            else ScanError "unrecognized character"
        | [] => ScanError "unrecognized character"
        end
      else if (c =? "<")%char then ScanToken TPushOpen rest
      else if (c =? ">")%char then ScanToken TPushClose rest
      else if (c =? ")")%char then ScanToken TEvaluationClose rest
      else if (c =? "$")%char then
        match rest with
        | d :: rest' =>
            if (d =? "(")%char then ScanToken TEvaluationOpen rest'
            else ScanError "unrecognized character"
        | [] => ScanError "unrecognized character"
        end
      else if (c =? "'")%char then scanUtf8 c rest
      else if (nat_of_ascii c =? 34)%nat then scanUtf8 c rest
      else if (c =? "-")%char then
        match rest with
        | d :: _ =>
            if isDigit d then scanInteger true rest
            else ScanError "unrecognized character"
        | [] => ScanError "unrecognized character"
        end
      else if isDigit c then
        match rest with
        | d :: rest' =>
            if (c =? "0")%char && (d =? "x")%char then
              let '(digits, after) := span isHexDigit rest' in
              ScanToken (THex digits) after
            else scanInteger false s
        | [] => scanInteger false s
        end
      else if isIdentifierStart c then
        let '(name, after) := span isIdentifierPart s in
        ScanToken (TIdentifier (string_of_list_ascii name)) after
      else ScanError "unrecognized character"
  end.

(** Modelled from the spec: [tokenize(source)], the ordered token sequence
    or a lexical error at the first offending character (section 4.1).
    Every token takes at least one character, so the length of the input
    bounds the number of steps. *)
Fixpoint tokenizeFrom (steps : nat) (offset : nat) (s : list ascii)
  : Result (list Token) :=
  match scan s with
  | ScanEnd => ok []
  | ScanError message =>
      fail LexError message
        {| startOffset := offset; endOffset := S offset |}
  | ScanToken found rest =>
      match steps with
      | O => fail LexError "input not consumed"
               {| startOffset := offset; endOffset := S offset |}
      | S steps' =>
          let stop := (offset + (List.length s - List.length rest))%nat in
          let* tokens := tokenizeFrom steps' stop rest in
          ok ({| kind := found;
                 tokenRange := {| startOffset := offset; endOffset := stop |} |}
              :: tokens)
      end
  end.

(** Modelled from the spec: [tokenize(source)] (section 4.1). *)
Definition tokenize (source : string) : Result (list Token) :=
  let s := list_ascii_of_string source in
  tokenizeFrom (List.length s) 0 s.

(** Modelled from the spec: comments are removed before parsing, and
    whitespace carries no value (sections 3 and 4.1). *)
Definition isSignificant (k : TokenKind) : bool :=
  match k with
  | TComment _ | TWhitespace => false
  | _ => true
  end.

(** Modelled from the spec: the tokens the parser reads (section 3). *)
Definition significant (tokens : list Token) : list Token :=
  List.filter (fun t => isSignificant (kind t)) tokens.

(** *** Parser *)

(** Modelled from the spec: the literal forms of the language (section 3). *)
Inductive Literal : Type :=
| BigIntLiteral (value : Z)
| HexLiteral (digits : list ascii)
| Utf8Literal (content : list ascii).

(** Modelled from the spec: the abstract syntax tree (section 3); pushes and
    evaluations own their children and nest without bound.  A program is
    the list of its top-level statements. *)
Inductive ASTNode : Type :=
| LiteralNode (literal : Literal) (at_ : Range)
| Identifier (name : string) (at_ : Range)
| Push (children : list ASTNode) (at_ : Range)
| Evaluation (children : list ASTNode) (at_ : Range).

(** Modelled from the spec: the two bracket pairs, [<] [>] of a push and
    [$(] [)] of an evaluation (section 4.2). *)
Inductive Bracket : Type :=
| PushBracket
| EvaluationBracket.

(** Modelled from the spec: a bracket the parser has open (section 4.2):
    its kind, the range of its opening token and the statements that
    precede it at its level, last first. *)
Record Frame : Type := {
  bracket : Bracket;
  opened : Range;
  before : list ASTNode;
}.

(** Modelled from the spec: the source range of a push or an evaluation,
    from its opening to its closing bracket (section 3). *)
Definition enclose (opening closing : Range) : Range :=
  {| startOffset := startOffset opening; endOffset := endOffset closing |}.

(** Modelled from the spec: [parse(tokens)], left to right, the innermost
    bracket closing first; an unmatched bracket is a parse error
    (section 4.2).  [current] holds the statements of the level being
    read, last first. *)
Fixpoint parseTokens (tokens : list Token) (stack : list Frame)
  (current : list ASTNode) : Result (list ASTNode) :=
  match tokens with
  | [] =>
      match stack with
      | [] => ok (rev current)
      | frame :: _ => fail ParseError "unmatched opening bracket" (opened frame)
      end
  | token :: rest =>
      let at_ := tokenRange token in
      let close expected make :=
        match stack with
        | frame :: stack' =>
            match bracket frame, expected with
            | PushBracket, PushBracket | EvaluationBracket, EvaluationBracket =>
                parseTokens rest stack'
                  (make (rev current) (enclose (opened frame) at_)
                   :: before frame)
            | _, _ => fail ParseError "mismatched closing bracket" at_
            end
        | [] => fail ParseError "unmatched closing bracket" at_
        end in
      let open kind_ :=
        parseTokens rest
          ({| bracket := kind_; opened := at_; before := current |} :: stack)
          [] in
      match kind token with
      | TIdentifier name => parseTokens rest stack (Identifier name at_ :: current)
      | TInteger value =>
          parseTokens rest stack
            (LiteralNode (BigIntLiteral value) at_ :: current)
      | THex digits =>
          parseTokens rest stack (LiteralNode (HexLiteral digits) at_ :: current)
      | TUtf8 content =>
          parseTokens rest stack
            (LiteralNode (Utf8Literal content) at_ :: current)
      | TPushOpen => open PushBracket
      | TEvaluationOpen => open EvaluationBracket
      | TPushClose => close PushBracket Push
      | TEvaluationClose => close EvaluationBracket Evaluation
      | TComment _ | TWhitespace => parseTokens rest stack current
      end
  end.

(** Modelled from the spec: [parse(tokens)], the program of the tokens
    (section 4.2). *)
Definition parse (tokens : list Token) : Result (list ASTNode) :=
  parseTokens tokens [] [].

(** *** Bytecode generator *)

(** Modelled from the spec: the bytes of a magnitude, least significant
    first, as few as possible (section 4.5). *)
Fixpoint magnitudeBytes (steps : nat) (n : Z) : Bytes :=
  match steps with
  | O => []
  | S steps' =>
      if n =? 0 then [] else n mod 256 :: magnitudeBytes steps' (n / 256)
  end.

(** Modelled from the spec: the minimal signed script-number encoding:
    little-endian magnitude, the sign in the high bit of the most
    significant byte, an extra byte when that bit is already taken by the
    magnitude (section 4.5). *)
Definition bigIntToScriptNumber (v : Z) : Bytes :=
  let magnitude :=
    magnitudeBytes (S (Z.to_nat (Z.log2 (Z.abs v)))) (Z.abs v) in
  match last magnitude with
  | None => []
  | Some top =>
      if 128 <=? top then magnitude ++ [if v <? 0 then 128 else 0]
      else if v <? 0 then removelast magnitude ++ [top + 128]
      else magnitude
  end.

(** Modelled from the spec: the byte of a character of a UTF8 literal,
    pushed as it is (section 4.5). *)
Definition charCode (c : ascii) : Z := Z.of_nat (nat_of_ascii c).

(** Modelled from the spec: the value of a hex digit (section 4.1). *)
Definition hexDigitValue (c : ascii) : Z :=
  if isDigit c then charCode c - 48
  else if inRange 65 70 c then charCode c - 55
  else charCode c - 87.

(** Modelled from the spec: a hex literal holds an even count of digits; an
    odd count is an error and is not padded (section 4.5). *)
Fixpoint hexToBytes (digits : list ascii) : option Bytes :=
  match digits with
  | [] => Some []
  | high :: low :: rest =>
      match hexToBytes rest with
      | Some bytes => Some (16 * hexDigitValue high + hexDigitValue low :: bytes)
      | None => None
      end
  | [_] => None
  end.

(** Modelled from the spec: the bytes a literal stands for (section 4.5):
    script number, raw hex bytes, raw UTF8 bytes. *)
Definition encodeLiteral (literal : Literal) (at_ : Range) : Result Bytes :=
  match literal with
  | BigIntLiteral value => ok (bigIntToScriptNumber value)
  | HexLiteral digits =>
      match hexToBytes digits with
      | Some bytes => ok bytes
      | None => fail EncodingError "odd-length hex literal" at_
      end
  | Utf8Literal content => ok (map charCode content)
  end.

(** Modelled from the spec: the canonical push-empty byte (section 4.5);
    its value, as those of the opcodes below, is that of the expected
    outputs in [compiler.e2e.langauge.spec.ts] and of the target VM's script
    encoding. *)
Definition OP_0 : Z := 0x00.

(** Modelled from the spec: the wider length-prefix opcode with a length
    of 1 byte (section 4.5). *)
Definition OP_PUSHDATA_1 : Z := 0x4c.

(** Modelled from the spec: the wider length-prefix opcode with a length
    of 2 bytes (section 4.5). *)
Definition OP_PUSHDATA_2 : Z := 0x4d.

(** Modelled from the spec: the wider length-prefix opcode with a length
    of 4 bytes (section 4.5). *)
Definition OP_PUSHDATA_4 : Z := 0x4e.

(** Modelled from the spec: the opcode pushing the small integer [-1]
    (section 4.5). *)
Definition OP_1NEGATE : Z := 0x4f.

(** Modelled from the spec: the opcode pushing the small integer [1]; those
    of [2 .. 16] follow it (section 4.5). *)
Definition OP_1 : Z := 0x51.

(** Modelled from the spec: the integers with a dedicated push opcode,
    [-1] and [1..16] (section 4.5). *)
Definition smallIntegers : list Z := -1 :: map Z.of_nat (seq 1 16).

(** Modelled from the spec: the dedicated push opcode of a small integer
    (section 4.5). *)
Definition pushSmallInteger (v : Z) : Z :=
  if v =? -1 then OP_1NEGATE else OP_1 + (v - 1).

(** Modelled from the spec: the dedicated opcode of a push whose bytes are
    exactly the script-number encoding of a small integer (section 4.5). *)
Definition smallIntegerOpcode (data : Bytes) : option Z :=
  option_map pushSmallInteger
    (List.find (fun v => bool_decide (data = bigIntToScriptNumber v))
       smallIntegers).

(** Modelled from the spec: a length as [width] bytes, least significant
    first (section 4.5). *)
Definition littleEndian (width : nat) (n : Z) : Bytes :=
  map (fun i => (n / 256 ^ Z.of_nat i) mod 256) (seq 0 width).

(** Modelled from the spec: the minimal push of [data] (section 4.5): the
    push-empty byte, a small-integer opcode, a length byte for 1 to 75
    bytes, and from 76 bytes on the wider prefixes with a length of 1, 2 or
    4 bytes.  A length that 4 bytes cannot hold has no encoding. *)
Definition encodeDataPush (data : Bytes) : option Bytes :=
  let n := Z.of_nat (List.length data) in
  if n =? 0 then Some [OP_0]
  else match smallIntegerOpcode data with
       | Some opcode => Some [opcode]
       | None =>
           if n <=? 75 then Some (n :: data)
           else if n <=? 255 then Some (OP_PUSHDATA_1 :: n :: data)
           else if n <=? 65535 then
             Some (OP_PUSHDATA_2 :: littleEndian 2 n ++ data)
           else if n <=? 4294967295 then
             Some (OP_PUSHDATA_4 :: littleEndian 4 n ++ data)
           else None
       end.

(** Modelled from the spec: the resolved node tree (sections 2 and 3):
    literals and opcodes, and the pushes whose content the generator
    encodes; evaluations have become literals. *)
Inductive ResolvedNode : Type :=
| ResolvedLiteral (bytes : Bytes) (at_ : Range)
| ResolvedOpcode (byte : Z) (at_ : Range)
| ResolvedPush (children : list ResolvedNode) (at_ : Range).

(** Modelled from the spec: [generate], the concatenation in source order
    of the bytes of each statement, a push being the minimal push of its
    content's bytes (section 4.5). *)
Fixpoint generateNode (node : ResolvedNode) : Result Bytes :=
  match node with
  | ResolvedLiteral bytes _ => ok bytes
  | ResolvedOpcode byte _ => ok [byte]
  | ResolvedPush children at_ =>
      let* content :=
        (fix generateAll (nodes : list ResolvedNode) : Result Bytes :=
           match nodes with
           | [] => ok []
           | first :: others =>
               let* head := generateNode first in
               let* tail := generateAll others in
               ok (head ++ tail)
           end) children in
      match encodeDataPush content with
      | Some bytes => ok bytes
      | None => fail EncodingError "push length outside representable range" at_
      end
  end.

(** Modelled from the spec: [generate(resolvedProgram)], the bytes of the
    statements concatenated in source order (section 4.5). *)
Fixpoint generate (nodes : list ResolvedNode) : Result Bytes :=
  match nodes with
  | [] => ok []
  | first :: others =>
      let* head := generateNode first in
      let* tail := generate others in
      ok (head ++ tail)
  end.

(** *** Resolver *)

(** Modelled from the spec: the capability a variable is backed by
    (section 9). *)
Inductive Capability : Type :=
| Key
| Signature
| Hash
| WalletData
| TransactionContextField
| ScriptComposition.

Section Compile.

Context {VariableDetail CompilationData : Type}.

(** Modelled from the spec: a variable definition, known here by the
    capability that resolves it (sections 3 and 9). *)
Record VariableDefinition : Type := {
  capability : Capability;
  detail : VariableDetail;
}.

(** Modelled from the spec: the read-only maps of the compilation
    environment (section 3). *)
Record EnvironmentMaps : Type := {
  opcodes : gmap string Z;
  variables : gmap string VariableDefinition;
  scripts : gmap string string;
  entityOwnership : gmap string string;
}.

(** Modelled from the spec: what an operation yields, the bytes of the
    variable or the reason it has none, such as missing runtime data
    (section 4.3). *)
Inductive OperationResult : Type :=
| OperationBytes (bytes : Bytes)
| OperationFailure (reason : string).

(** Modelled from the spec: an operation, a pure function of the variable
    definition, the runtime data and the environment (section 4.3). *)
Definition Operation : Type :=
  VariableDefinition -> CompilationData -> EnvironmentMaps -> OperationResult.

(** Modelled from the spec: the compilation environment (section 3): the
    maps, the dispatch table of operations, and the external VM entry point
    that runs an evaluation and yields the top of its stack, or nothing
    when the run does not succeed (section 4.4). *)
Record CompilationEnvironment : Type := {
  maps : EnvironmentMaps;
  operations : Capability -> option Operation;
  vm : Bytes -> option Bytes;
}.

(** Modelled from the spec: the errors of a referenced script, tagged with
    the id of the referencing script (section 7). *)
Definition tagged (referencing : string) (failure : Failure) : Failure :=
  {| failureType := failureType failure;
     failureErrors :=
       map (fun e => {| error := error e; range := range e;
                        chain := referencing :: chain e |})
         (failureErrors failure) |}.

Variable env : CompilationEnvironment.
Variable data : CompilationData.

(** Modelled from the spec: identifier resolution (section 4.3): opcode
    name, then variable id, then script id; a script reference is compiled
    under the same environment and data unless its id is already on the
    resolution path. *)
Definition resolveIdentifier
  (compileReference : string -> string -> Result Bytes)
  (path : list string) (current : string) (name : string) (at_ : Range)
  : Result ResolvedNode :=
  match opcodes (maps env) !! name with
  | Some byte => ok (ResolvedOpcode byte at_)
  | None =>
      match variables (maps env) !! name with
      | Some definition =>
          match operations env (capability definition) with
          | Some operation =>
              match operation definition data (maps env) with
              | OperationBytes bytes => ok (ResolvedLiteral bytes at_)
              | OperationFailure reason =>
                  fail ResolutionError (name +:+ ": " +:+ reason) at_
              end
          | None =>
              fail ResolutionError (name +:+ ": unavailable capability") at_
          end
      | None =>
          match scripts (maps env) !! name with
          | Some source =>
              if bool_decide (name ∈ path) then
                fail ResolutionError (name +:+ ": script reference cycle") at_
              else match compileReference name source with
                   | inl bytes => ok (ResolvedLiteral bytes at_)
                   | inr failure => inr (tagged current failure)
                   end
          | None => fail ResolutionError (name +:+ ": unknown identifier") at_
          end
      end
  end.

(** Modelled from the spec: [resolve] (sections 4.3 and 4.4): literals take
    their bytes, identifiers are looked up, and an evaluation, its body
    resolved and compiled innermost first, is run on the VM and becomes the
    literal of the resulting top of stack. *)
Fixpoint resolveNode (lookup : string -> Range -> Result ResolvedNode)
  (node : ASTNode) : Result ResolvedNode :=
  let resolveAll :=
    fix resolveAll (nodes : list ASTNode) : Result (list ResolvedNode) :=
      match nodes with
      | [] => ok []
      | first :: others =>
          let* head := resolveNode lookup first in
          let* tail := resolveAll others in
          ok (head :: tail)
      end in
  match node with
  | LiteralNode literal at_ =>
      let* bytes := encodeLiteral literal at_ in
      ok (ResolvedLiteral bytes at_)
  | Identifier name at_ => lookup name at_
  | Push children at_ =>
      let* content := resolveAll children in
      ok (ResolvedPush content at_)
  | Evaluation children at_ =>
      let* content := resolveAll children in
      let* bytecode := generate content in
      match vm env bytecode with
      | Some top => ok (ResolvedLiteral top at_)
      | None => fail EvaluationExecutionError "evaluation failed" at_
      end
  end.

(** Modelled from the spec: [resolve] over the statements of a program,
    in source order (section 4.3). *)
Fixpoint resolve (lookup : string -> Range -> Result ResolvedNode)
  (nodes : list ASTNode) : Result (list ResolvedNode) :=
  match nodes with
  | [] => ok []
  | first :: others =>
      let* head := resolveNode lookup first in
      let* tail := resolve lookup others in
      ok (head :: tail)
  end.

(** Modelled from the spec: the artifacts a debug result exposes, the AST
    and the resolved tree, as far as the compilation got (section 6). *)
Record Artifacts : Type := {
  parsed : option (list ASTNode);
  resolved : option (list ResolvedNode);
}.

(** Modelled from the spec: the result of a compilation (section 3). *)
Abbreviation CompileResult :=
  (CompilationResult ErrorType CompilationError Artifacts).

(** Modelled from the spec: the failure variant of the result, carrying
    the error kind and the located errors (section 3). *)
Definition failed (failure : Failure) (artifacts : Artifacts) : CompileResult :=
  CompilationResultError (failureType failure) (failureErrors failure) artifacts.

(** Modelled from the spec: what a script reference takes from the
    compilation of the referenced script, its bytecode or its errors
    (section 4.3). *)
Definition outcome (result : CompileResult) : Result Bytes :=
  match result with
  | CompilationResultSuccess bytecode _ => inl bytecode
  | CompilationResultError errorType errors _ =>
      inr {| failureType := errorType; failureErrors := errors |}
  end.

(** Modelled from the spec: one compilation, source to tokens to AST to
    resolved tree to bytecode, or the error of the stage that failed
    (section 2).  [depth] bounds the nesting of script references; [path]
    is the set of script ids in progress. *)
Fixpoint compileSource (depth : nat) (path : list string) (current : string)
  (source : string) : CompileResult :=
  match depth with
  | O =>
      failed {| failureType := ResolutionError; failureErrors := [] |}
        {| parsed := None; resolved := None |}
  | S depth' =>
      match tokenize source with
      | inr failure => failed failure {| parsed := None; resolved := None |}
      | inl tokens =>
          match parse (significant tokens) with
          | inr failure => failed failure {| parsed := None; resolved := None |}
          | inl ast =>
              let compileReference name referenced :=
                outcome (compileSource depth' (name :: path) name referenced) in
              match resolve (resolveIdentifier compileReference path current) ast with
              | inr failure =>
                  failed failure {| parsed := Some ast; resolved := None |}
              | inl nodes =>
                  match generate nodes with
                  | inr failure =>
                      failed failure
                        {| parsed := Some ast; resolved := Some nodes |}
                  | inl bytecode =>
                      CompilationResultSuccess bytecode
                        {| parsed := Some ast; resolved := Some nodes |}
                  end
              end
          end
      end
  end.

End Compile.

Arguments VariableDefinition : clear implicits.
Arguments EnvironmentMaps : clear implicits.
Arguments CompilationEnvironment : clear implicits.

(** Modelled from the spec: [compileScript(scriptId, data, environment)]:
    [scriptId] names a script of the environment's script map (section 6).
    A resolution path holds distinct script ids, so it is never longer than
    the script map. *)
Definition compileScript {VariableDetail CompilationData : Type}
  (scriptId : string) (data : CompilationData)
  (environment : CompilationEnvironment VariableDetail CompilationData)
  : CompilationResult ErrorType CompilationError Artifacts :=
  match scripts (maps environment) !! scriptId with
  | Some source =>
      compileSource environment data
        (S (size (scripts (maps environment)))) [scriptId] scriptId source
  | None =>
      failed
        {| failureType := ResolutionError;
           failureErrors :=
             [ {| error := scriptId +:+ ": unknown script";
                  range := {| startOffset := 0; endOffset := 0 |};
                  chain := [] |} ] |}
        {| parsed := None; resolved := None |}
  end.

(** The compiler of an environment: [createCompiler] over this pipeline. *)
Definition compilerOf {VariableDetail CompilationData : Type}
  (environment : CompilationEnvironment VariableDetail CompilationData)
  : Compiler CompilationData
      (CompilationEnvironment VariableDetail CompilationData)
      ErrorType CompilationError Artifacts :=
  createCompiler compileScript environment.

(** *** Vocabulary of the statements about the language *)

(** The decimal numeral of an integer, as a script writes it. *)
Definition decimal (v : Z) : string := NilZero.string_of_int (Z.to_int v).

(** Modelled from the spec: the single opcode byte pushing a small integer
    of [-1 .. 16] (section 8); zero is the push of the empty byte array. *)
Definition smallIntegerPush (v : Z) : Z :=
  if v =? 0 then OP_0 else pushSmallInteger v.

(** The characters of an unsigned decimal numeral. *)
Definition uintChars (d : Decimal.uint) : list ascii :=
  list_ascii_of_string (NilEmpty.string_of_uint d).

(** The value of a little-endian byte sequence. *)
Fixpoint littleEndianValue (bytes : Bytes) : Z :=
  match bytes with
  | [] => 0
  | byte :: rest => byte + 256 * littleEndianValue rest
  end.

(** Modelled from the spec: the integer a script number stands for
    (section 4.5): the little-endian magnitude without the high bit of the
    most significant byte, negated when that bit is set. *)
Definition scriptNumberToBigInt (bytes : Bytes) : Z :=
  match last bytes with
  | None => 0
  | Some top =>
      if 128 <=? top then
        - (littleEndianValue bytes
           - 128 * 256 ^ Z.of_nat (List.length bytes - 1))
      else littleEndianValue bytes
  end.

(** A comment as a script writes it: a line comment, given with the line
    break that ends it, or a block comment. *)
Inductive CommentText : Type :=
| LineComment (body : list ascii)
| BlockComment (body : list ascii).

(** The characters of a comment. *)
Definition commentText (comment : CommentText) : list ascii :=
  match comment with
  | LineComment body => "/"%char :: "/"%char :: body ++ [ascii_of_nat 10]
  | BlockComment body => "/"%char :: "*"%char :: body ++ ["*"%char; "/"%char]
  end.

(** Does the text hold a block-comment terminator? *)
Definition hasTerminator (body : list ascii) : bool :=
  match untilBlockEnd body with
  | Some _ => true
  | None => false
  end.

(** The body of a line comment holds no line break, and the body of a
    block comment no terminator. *)
Definition wellFormedComment (comment : CommentText) : bool :=
  match comment with
  | LineComment body => forallb withinLine body
  | BlockComment body => negb (hasTerminator body)
  end.

(** A comment that holds no line break before its end. *)
Definition singleLine (comment : CommentText) : bool :=
  match comment with
  | LineComment _ => true
  | BlockComment body => forallb withinLine body
  end.

(** The classes of the tokens of a text, when it can be tokenized. *)
Definition tokenKinds (s : list ascii) : option (list TokenKind) :=
  match tokenizeFrom (List.length s) 0 s with
  | inl tokens => Some (map kind tokens)
  | inr _ => None
  end.

(** The lexer's steps as a relation: the text and the classes of its
    tokens. *)
Inductive Lexes : list ascii -> list TokenKind -> Prop :=
| LexesEnd : Lexes [] []
| LexesToken s found rest kinds :
    scan s = ScanToken found rest ->
    Lexes rest kinds ->
    Lexes s (found :: kinds).

(** A text split between two tokens: both halves tokenize on their own,
    and the whole tokenizes into the tokens of the first half followed by
    those of the second. *)
Definition tokenBoundary (before after : list ascii) : Prop :=
  exists kindsBefore kindsAfter,
    tokenKinds before = Some kindsBefore
    /\ tokenKinds after = Some kindsAfter
    /\ tokenKinds (before ++ after) = Some (kindsBefore ++ kindsAfter).

(** Does the text end inside a line comment, its last token being a line
    comment that no line break has closed? *)
Definition endsInLineComment (s : list ascii) : bool :=
  match tokenKinds s with
  | Some kinds =>
      match last kinds with
      | Some (TComment LineStyle) => true
      | _ => false
      end
  | None => false
  end.

(** What a compilation comes to for its caller: the bytecode, or the kind
    of error it stopped with. *)
Definition verdict (result : CompilationResult ErrorType CompilationError Artifacts)
  : Bytes + ErrorType :=
  match result with
  | CompilationResultSuccess bytecode _ => inl bytecode
  | CompilationResultError errorType _ _ => inr errorType
  end.

Definition returned
  (result : GenerateBytecodeResult ErrorType CompilationError Artifacts)
  : Bytes + ErrorType :=
  match result with
  | DebugResult result => verdict result
  | BytecodeResult bytecode => inl bytecode
  | ErrorResult errorType _ => inr errorType
  end.

(** The environment with the source of one script replaced. *)
Definition withScript {VariableDetail CompilationData : Type}
  (environment : CompilationEnvironment VariableDetail CompilationData)
  (scriptId source : string)
  : CompilationEnvironment VariableDetail CompilationData :=
  {| maps :=
       {| opcodes := opcodes (maps environment);
          variables := variables (maps environment);
          scripts := <[scriptId := source]> (scripts (maps environment));
          entityOwnership := entityOwnership (maps environment) |};
     operations := operations environment;
     vm := vm environment |}.

(** The environment of the end-to-end tests of
    [compiler.e2e.langauge.spec.ts]: the script under test is named
    [test]; a few opcodes, no variables, no VM. *)
Definition testEnvironment (source : string) : CompilationEnvironment unit unit :=
  {| maps :=
       {| opcodes :=
            {[ "OP_0" := 0x00; "OP_1" := 0x51; "OP_2" := 0x52;
               "OP_ADD" := 0x93 ]};
          variables := ∅;
          scripts := {[ "test" := source ]};
          entityOwnership := ∅ |};
     operations := fun _ => None;
     vm := fun _ => None |}.

(** What the script [source] compiles to in the environment of the
    tests. *)
Definition compileTest (source : string) : Bytes + ErrorType :=
  returned
    (generateBytecode (compilerOf (testEnvironment source)) "test" tt false).

(** The double quote and the line break, for the sources that hold them. *)
Definition doubleQuote : string := String (ascii_of_nat 34) "".

Definition newline : string := String (ascii_of_nat 10) "".

(** The scripts a resolution path has not entered yet. *)
Definition unvisited {VariableDetail CompilationData : Type}
  (environment : CompilationEnvironment VariableDetail CompilationData)
  (path : list string) : gset string :=
  dom (scripts (maps environment)) ∖ list_to_set path.

(** *** Equality up to source ranges *)

Definition noRange : Range := {| startOffset := 0; endOffset := 0 |}.

Fixpoint eraseAST (node : ASTNode) : ASTNode :=
  match node with
  | LiteralNode literal _ => LiteralNode literal noRange
  | Identifier name _ => Identifier name noRange
  | Push children _ => Push (map eraseAST children) noRange
  | Evaluation children _ => Evaluation (map eraseAST children) noRange
  end.

Fixpoint eraseResolved (node : ResolvedNode) : ResolvedNode :=
  match node with
  | ResolvedLiteral bytes _ => ResolvedLiteral bytes noRange
  | ResolvedOpcode byte _ => ResolvedOpcode byte noRange
  | ResolvedPush children _ => ResolvedPush (map eraseResolved children) noRange
  end.

Definition eraseFailure (failure : Failure) : Failure :=
  {| failureType := failureType failure;
     failureErrors :=
       map (fun e => {| error := error e; range := noRange; chain := chain e |})
         (failureErrors failure) |}.

(** Two results that agree up to source ranges: both values, related by
    [R], or both failures, equal once their ranges are erased. *)
Definition sameResult {A} (R : A -> A -> Prop) (r r' : Result A) : Prop :=
  match r, r' with
  | inl a, inl a' => R a a'
  | inr failure, inr failure' => eraseFailure failure = eraseFailure failure'
  | _, _ => False
  end.

Definition sameAST (nodes nodes' : list ASTNode) : Prop :=
  map eraseAST nodes = map eraseAST nodes'.

Definition sameResolved (nodes nodes' : list ResolvedNode) : Prop :=
  map eraseResolved nodes = map eraseResolved nodes'.

Definition sameFrame (frame frame' : Frame) : Prop :=
  bracket frame = bracket frame' /\ sameAST (before frame) (before frame').

End Language.

(** ** What a call of [generateBytecode] tells its caller *)
Section Told.

Context {ErrorType CompilationError Artifacts : Type}.

(** The [success] flag of the returned object together with what it
    carries: the [bytecode] when it is [true], the [errorType] and the
    [errors] when it is [false]; the other properties of a debug result are
    left out. *)
Definition told
  (result : GenerateBytecodeResult ErrorType CompilationError Artifacts)
  : Bytes + ErrorType * list CompilationError :=
  match result with
  | DebugResult (CompilationResultSuccess bytecode _) => inl bytecode
  | DebugResult (CompilationResultError errorType errors _) =>
      inr (errorType, errors)
  | BytecodeResult bytecode => inl bytecode
  | ErrorResult errorType errors => inr (errorType, errors)
  end.

End Told.

(** ** Vocabulary of the statements about the derived environment *)
Section TemplateVocabulary.

Context {AuthenticationTemplateVariable LockingType TimeLockType : Type}.

(** The variable ids the entities of a template define, entity by entity
    in enumeration order. *)
Definition definedVariableIds
  (template : AuthenticationTemplate AuthenticationTemplateVariable
                LockingType TimeLockType) : list string :=
  flat_map (fun entry => variableIds entry.2) (entities template).

End TemplateVocabulary.

(** ** Sample templates *)
Section TemplateSamples.

Local Open Scope string_scope.

(** A template of three entities and two scripts in which no id is used
    twice. *)
Definition sampleTemplate : AuthenticationTemplate nat unit unit :=
  {| entities :=
       [ ("alice", {| variables := Some [("a_key", 1%nat)] |});
         ("bob", {| variables := Some [("b_key", 2%nat); ("b_time", 3%nat)] |});
         ("observer", {| variables := None |}) ];
     scripts :=
       [ ("lock", {| script := "OP_1"; unlocks := Js.Missing;
                     timeLockType := Js.Missing;
                     lockingType := Js.Defined tt |});
         ("unlock", {| script := "OP_0"; unlocks := Js.Defined "lock";
                       timeLockType := Js.Undefined;
                       lockingType := Js.Missing |}) ] |}.

(** The same template with its entities and its scripts enumerated in the
    opposite order. *)
Definition sampleTemplateReversed : AuthenticationTemplate nat unit unit :=
  {| entities := rev (entities sampleTemplate);
     scripts := rev (scripts sampleTemplate) |}.

End TemplateSamples.

(** ** Vocabulary of the statements about scripts put together *)
Section Nesting.

Import Language.

(** A bracket the parser has open, with the statements [outer] read before
    those its level holds. *)
Definition rebase (outer : list ASTNode) (frame : Frame) : Frame :=
  {| bracket := bracket frame;
     opened := opened frame;
     before := before frame ++ outer |}.

(** The brackets a parser has open when it has read the statements [outer]
    at the top level before: they precede the statements the outermost
    bracket holds. *)
Fixpoint nestFrames (outer : list ASTNode) (stack : list Frame) : list Frame :=
  match stack with
  | [] => []
  | frame :: inner =>
      match inner with
      | [] => [rebase outer frame]
      | _ :: _ => frame :: nestFrames outer inner
      end
  end.

(** The statements of the level a parser reads when it has read the
    statements [outer] at the top level before. *)
Definition nestCurrent (outer : list ASTNode) (stack : list Frame)
  (current : list ASTNode) : list ASTNode :=
  match stack with
  | [] => current ++ outer
  | _ :: _ => current
  end.

End Nesting.

(** ** The environment of the tests among the objects of a program *)
Section StoreSamples.

Import Language.

Local Open Scope string_scope.

(** The pipeline of [./language/compile] on the object an environment
    reference holds. *)
Definition compileObject (scriptId : string) (data : unit)
  (object : option (Store.Object (CompilationEnvironment unit unit)))
  : CompilationResult ErrorType CompilationError Artifacts :=
  match object with
  | Some (Store.PlainObject environment) => compileScript scriptId data environment
  | _ =>
      failed {| failureType := ResolutionError; failureErrors := [] |}
        {| parsed := None; resolved := None |}
  end.

(** A heap that holds the environment of the script [<1>]. *)
Definition testHeap : Store.Heap (CompilationEnvironment unit unit) :=
  {[ 1%positive := Store.PlainObject (testEnvironment "<1>") ]}.

End StoreSamples.

(** * Properties of the compiler facade *)

Section CreateCompilerFacts.

Context {CompilationData Environment ErrorType CompilationError Artifacts : Type}.

Variable compileScript :
  string -> CompilationData -> Environment ->
  CompilationResult ErrorType CompilationError Artifacts.

(** C1: with [debug = false], [generateBytecode] returns either the success
    value carrying the bytecode of the compilation or the failure value
    carrying its error type and errors; the errors of the compilation reach
    the caller inside that value. *)
Theorem generateBytecode_discriminated
  (compilationEnvironment : Environment) scriptId data :
  let returned :=
    generateBytecode (createCompiler compileScript compilationEnvironment)
      scriptId data false in
  (exists bytecode artifacts,
      compileScript scriptId data compilationEnvironment
      = CompilationResultSuccess bytecode artifacts
      /\ returned = BytecodeResult bytecode)
  \/ (exists errorType errors artifacts,
         compileScript scriptId data compilationEnvironment
         = CompilationResultError errorType errors artifacts
         /\ returned = ErrorResult errorType errors).
Proof.
  cbn. destruct (compileScript scriptId data compilationEnvironment)
    as [bytecode artifacts | errorType errors artifacts].
  - left. by exists bytecode, artifacts.
  - right. by exists errorType, errors, artifacts.
Qed.

End CreateCompilerFacts.

(** ** The compiler among the objects of a program *)

Section StoreFacts.

Context {Content CompilationData ErrorType CompilationError Artifacts : Type}.

Variable compileScript :
  string -> CompilationData -> Store.Ref -> Store.Heap Content ->
  CompilationResult ErrorType CompilationError Artifacts * Store.Heap Content.

(** Modelled from the spec: [compileScript] is not under [src/]; the spec
    has it read-only on the environment and without state of its own
    (sections 3 and 5): it changes no object that exists when it is
    called, and what it returns is decided by the script id, the data and
    the environment object. *)
Hypothesis compileScript_writes_nothing :
  forall scriptId data compilationEnvironment heap,
    heap ⊆ (compileScript scriptId data compilationEnvironment heap).2.

Hypothesis compileScript_function :
  forall scriptId data compilationEnvironment heap heap',
    heap !! compilationEnvironment = heap' !! compilationEnvironment ->
    (compileScript scriptId data compilationEnvironment heap).1
    = (compileScript scriptId data compilationEnvironment heap').1.

(** The body of [generateBytecode] writes nothing of its own: the heap it
    leaves is the heap [compileScript] leaves. *)
Lemma run_heap closure scriptId data debug heap :
  heap ⊆ (Store.run compileScript closure scriptId data debug heap).2.
Proof.
  destruct closure as [compilationEnvironment]. cbn.
  pose proof (compileScript_writes_nothing scriptId data
                compilationEnvironment heap) as Hframe.
  by destruct (compileScript scriptId data compilationEnvironment heap).
Qed.

(** What the body returns is decided by its arguments and the environment
    object the closure refers to. *)
Lemma run_result compilationEnvironment scriptId data debug heap heap' :
  heap !! compilationEnvironment = heap' !! compilationEnvironment ->
  (Store.run compileScript (Store.GenerateBytecodeClosure compilationEnvironment)
     scriptId data debug heap).1
  = (Store.run compileScript
       (Store.GenerateBytecodeClosure compilationEnvironment)
       scriptId data debug heap').1.
Proof.
  intros Hsame. cbn.
  pose proof (compileScript_function scriptId data compilationEnvironment
                heap heap' Hsame) as Hresult.
  destruct (compileScript scriptId data compilationEnvironment heap),
    (compileScript scriptId data compilationEnvironment heap').
  cbn in *. by subst.
Qed.

(** A call on a compiler object succeeds and leaves every object as it
    was. *)
Lemma generateBytecode_heap compiler compilationEnvironment closure
  scriptId data debug heap :
  heap !! compiler = Some (Store.CompilerObject compilationEnvironment closure) ->
  exists result after,
    Store.generateBytecode compileScript compiler scriptId data debug heap
    = Some (result, after)
    /\ heap ⊆ after.
Proof.
  intros Hcompiler. unfold Store.generateBytecode. rewrite Hcompiler.
  pose proof (run_heap closure scriptId data debug heap) as Hframe.
  destruct (Store.run compileScript closure scriptId data debug heap)
    as [result after].
  by exists result, after.
Qed.

(** So does a sequence of calls. *)
Lemma invokeAll_heap compiler compilationEnvironment closure calls heap :
  heap !! compiler = Some (Store.CompilerObject compilationEnvironment closure) ->
  exists results after,
    Store.invokeAll compileScript compiler calls heap = Some (results, after)
    /\ heap ⊆ after.
Proof.
  revert heap. induction calls as [|call rest IH]; intros heap Hcompiler.
  - by exists [], heap.
  - cbn [Store.invokeAll].
    destruct (generateBytecode_heap _ _ _ (Store.inv_scriptId call)
                (Store.inv_data call) (Store.inv_debug call) _ Hcompiler)
      as (result & heap' & -> & Hframe).
    destruct (IH heap' (lookup_weaken _ _ _ _ Hcompiler Hframe))
      as (results & after & -> & Hframe').
    exists (result :: results), after. split; [done|].
    by transitivity heap'.
Qed.

(** Creating a compiler adds one object to the heap. *)
Lemma createCompiler_heap compilationEnvironment (heap : Store.Heap Content) :
  heap ⊆ (Store.createCompiler compilationEnvironment heap).2
  /\ (Store.createCompiler compilationEnvironment heap).2
     !! (Store.createCompiler compilationEnvironment heap).1
     = Some (Store.CompilerObject compilationEnvironment
               (Store.GenerateBytecodeClosure compilationEnvironment)).
Proof.
  cbn. split; [|by rewrite lookup_insert_eq].
  apply insert_subseteq, not_elem_of_dom, is_fresh.
Qed.



End StoreFacts.

Section ReadingFacts.

Context {Content CompilationData ErrorType CompilationError Artifacts : Type}.

Variable compile :
  string -> CompilationData -> option (Store.Object Content) ->
  CompilationResult ErrorType CompilationError Artifacts.

(** A [compileScript] that reads the environment object and writes
    nothing meets both conditions. *)
Lemma reading_writes_nothing scriptId data compilationEnvironment
  (heap : Store.Heap Content) :
  heap ⊆ (Store.reading compile scriptId data compilationEnvironment heap).2.
Proof. done. Qed.

Lemma reading_function scriptId data compilationEnvironment
  (heap heap' : Store.Heap Content) :
  heap !! compilationEnvironment = heap' !! compilationEnvironment ->
  (Store.reading compile scriptId data compilationEnvironment heap).1
  = (Store.reading compile scriptId data compilationEnvironment heap').1.
Proof. unfold Store.reading. cbn. by intros ->. Qed.

(** With such a [compileScript], a call among the objects returns what
    the compiler of [createCompiler] over the environment's value
    returns, and leaves the heap as it is. *)
Lemma run_reading compilationEnvironment scriptId data debug
  (heap : Store.Heap Content) :
  Store.run (Store.reading compile)
    (Store.GenerateBytecodeClosure compilationEnvironment) scriptId data debug
    heap
  = (generateBytecode (createCompiler compile (heap !! compilationEnvironment))
       scriptId data debug,
     heap).
Proof. done. Qed.

End ReadingFacts.

Section CreateCompilerCommonSynchronousFacts.

Context {Value CompilationData ErrorType CompilationError Artifacts : Type}.

Variables (compilerCreateStateCommon generateBytecodeMap_OpcodesCommon
  compilerOperationsCommon : Value).

Variable compileScript :
  string -> CompilationData -> gmap string Value ->
  CompilationResult ErrorType CompilationError Artifacts.

Lemma spread_lookup (target source : gmap string Value) key :
  Js.spread target source !! key
  = match source !! key with
    | Some value => Some value
    | None => target !! key
    end.
Proof.
  unfold Js.spread. destruct (source !! key) as [value|] eqn:Hsource.
  - by apply lookup_union_Some_l.
  - by rewrite lookup_union_r.
Qed.

(** C10: every property supplied in [scriptsAndOverrides] is the one the
    compiler is created with, and each of [createState], [opcodes] and
    [operations] that is not supplied keeps its common default. *)
Theorem createCompilerCommonSynchronous_overrides
  (scriptsAndOverrides : gmap string Value) :
  let created :=
    environment
      (createCompilerCommonSynchronous compilerCreateStateCommon
         generateBytecodeMap_OpcodesCommon compilerOperationsCommon
         compileScript scriptsAndOverrides) in
  (forall key value,
      scriptsAndOverrides !! key = Some value -> created !! key = Some value)
  /\ (scriptsAndOverrides !! "createState" = None ->
      created !! "createState" = Some compilerCreateStateCommon)
  /\ (scriptsAndOverrides !! "opcodes" = None ->
      created !! "opcodes" = Some generateBytecodeMap_OpcodesCommon)
  /\ (scriptsAndOverrides !! "operations" = None ->
      created !! "operations" = Some compilerOperationsCommon).
Proof.
  cbn. repeat split.
  - intros key value Hsupplied. by rewrite spread_lookup, Hsupplied.
  - intros Hmissing. by rewrite spread_lookup, Hmissing.
  - intros Hmissing. by rewrite spread_lookup, Hmissing.
  - intros Hmissing. by rewrite spread_lookup, Hmissing.
Qed.

End CreateCompilerCommonSynchronousFacts.

(** An environment overriding [opcodes] and supplying [scripts]: the
    override is kept and the other two defaults stay. *)
Lemma createCompilerCommonSynchronous_overrides_witness :
  let compileScript (_ : string) (_ : unit) (_ : gmap string nat)
    : CompilationResult unit unit unit := CompilationResultSuccess [] tt in
  let created :=
    environment
      (createCompilerCommonSynchronous 1%nat 2%nat 3%nat compileScript
         {[ "opcodes" := 7%nat; "scripts" := 9%nat ]}) in
  created !! "opcodes" = Some 7%nat
  /\ created !! "scripts" = Some 9%nat
  /\ created !! "createState" = Some 1%nat
  /\ created !! "operations" = Some 3%nat.
Proof.
  intros compileScript.
  destruct (createCompilerCommonSynchronous_overrides 1%nat 2%nat 3%nat
              compileScript {[ "opcodes" := 7%nat; "scripts" := 9%nat ]})
    as (Hsupplied & HcreateState & _ & Hoperations).
  split; [apply Hsupplied; reflexivity|].
  split; [apply Hsupplied; reflexivity|].
  split; [apply HcreateState; reflexivity | apply Hoperations; reflexivity].
Defined.

Section TemplateEnvironmentFacts.

Context {AuthenticationTemplateVariable LockingType TimeLockType : Type}.

Abbreviation Entity :=
  (AuthenticationTemplateEntity AuthenticationTemplateVariable) (only parsing).
Abbreviation Script :=
  (AuthenticationTemplateScript LockingType TimeLockType) (only parsing).
Abbreviation Template :=
  (AuthenticationTemplate AuthenticationTemplateVariable LockingType
     TimeLockType) (only parsing).

Lemma spreadEntries_snoc {V} (target : gmap string V) entries key value :
  Js.spreadEntries target (entries ++ [(key, value)])
  = <[key := value]> (Js.spreadEntries target entries).
Proof. unfold Js.spreadEntries. by rewrite foldl_app. Qed.

Lemma spreadEntries_lookup_notin {V} (target : gmap string V)
  (entries : list (string * V)) key :
  key ∉ entries.*1 -> Js.spreadEntries target entries !! key = target !! key.
Proof.
  induction entries as [|[k v] entries IH] using rev_ind; [done|].
  rewrite fmap_app, not_elem_of_app. cbn. intros [Hnotin Hne].
  rewrite spreadEntries_snoc, lookup_insert_ne; [by apply IH|].
  intros ->. apply Hne. by left.
Qed.

Lemma spreadEntries_lookup_in {V} (target : gmap string V)
  (entries : list (string * V)) key value :
  NoDup entries.*1 -> (key, value) ∈ entries ->
  Js.spreadEntries target entries !! key = Some value.
Proof.
  induction entries as [|[k v] entries IH] using rev_ind;
    [by intros _ ?%elem_of_nil|].
  rewrite fmap_app, NoDup_app. cbn. intros (Hnodup & Hfresh & _).
  rewrite spreadEntries_snoc, elem_of_app, list_elem_of_singleton.
  intros [Hin | [= -> ->]].
  - rewrite lookup_insert_ne; [by apply IH|].
    intros ->. apply (Hfresh key); [|by left].
    apply list_elem_of_fmap. by exists (key, value).
  - by rewrite lookup_insert_eq.
Qed.

(** The ownership entries one entity contributes. *)
Lemma owned_lookup (entityId : string) (ids : list string) key :
  foldl (ownedBy entityId) ∅ ids !! key
  = if bool_decide (key ∈ ids) then Some entityId else None.
Proof.
  induction ids as [|id ids IH] using rev_ind; [done|].
  rewrite foldl_app. cbn. unfold ownedBy at 1, Js.set.
  destruct (decide (id = key)) as [->|Hne].
  - rewrite lookup_insert_eq, bool_decide_eq_true_2; [done|].
    apply elem_of_app. right. by left.
  - rewrite lookup_insert_ne by done. rewrite IH.
    apply (f_equal (fun b : bool => if b then Some entityId else None)).
    apply bool_decide_ext. rewrite elem_of_app, list_elem_of_singleton.
    naive_solver.
Qed.

Lemma mergeVariables_untouched all (later : list (string * Entity)) variableId :
  Forall (fun entry => variableId ∉ variableIds entry.2) later ->
  foldl mergeVariables all later.*2 !! variableId = all !! variableId.
Proof.
  induction later as [|[id entity] later IH] using rev_ind; [done|].
  rewrite Forall_app, Forall_singleton. cbn. intros [Hlater Hlast].
  rewrite fmap_app, foldl_app. cbn [foldl fmap list_fmap snd].
  unfold mergeVariables at 1. unfold variableIds in Hlast.
  destruct (variables entity) as [entries|]; cbn [Js.spreadOptional].
  - rewrite spreadEntries_lookup_notin by done. by apply IH.
  - by apply IH.
Qed.

Lemma mergeOwnership_untouched all (later : list (string * Entity)) variableId :
  Forall (fun entry => variableId ∉ variableIds entry.2) later ->
  foldl mergeOwnership all later !! variableId = all !! variableId.
Proof.
  induction later as [|[id entity] later IH] using rev_ind; [done|].
  rewrite Forall_app, Forall_singleton. cbn. intros [Hlater Hlast].
  rewrite foldl_app. cbn [foldl]. unfold mergeOwnership at 1.
  unfold Js.spread. rewrite lookup_union_r; [by apply IH|].
  rewrite owned_lookup. by rewrite bool_decide_eq_false_2.
Qed.

(** The last entity that defines a variable id decides both maps. *)
Lemma last_definition_wins (template : Template) earlier entityId
  (entity : Entity) later entries variableId definition :
  entities template = earlier ++ (entityId, entity) :: later ->
  variables entity = Some entries ->
  NoDup entries.*1 ->
  (variableId, definition) ∈ entries ->
  Forall (fun entry => variableId ∉ variableIds entry.2) later ->
  let derived := authenticationTemplateToCompilationEnvironment template in
  env_variables derived !! variableId = Some definition
  /\ env_entityOwnership derived !! variableId = Some entityId.
Proof.
  intros Hentities Hvariables Hnodup Hin Hlater.
  cbn [authenticationTemplateToCompilationEnvironment env_variables
         env_entityOwnership].
  rewrite Hentities. split.
  - rewrite fmap_app, foldl_app. cbn [foldl fmap list_fmap snd].
    rewrite (mergeVariables_untouched _ later variableId Hlater).
    unfold mergeVariables at 1. rewrite Hvariables. cbn [Js.spreadOptional].
    by apply spreadEntries_lookup_in.
  - rewrite foldl_app. cbn [foldl].
    rewrite (mergeOwnership_untouched _ later variableId Hlater).
    unfold mergeOwnership at 1, Js.spread.
    apply lookup_union_Some_l. rewrite owned_lookup. cbn [fst snd].
    rewrite bool_decide_eq_true_2; [done|].
    unfold variableIds. rewrite Hvariables.
    apply list_elem_of_fmap. by exists (variableId, definition).
Qed.

(** C7: when two entities define the same variable id, the one enumerated
    later decides both maps: [variables] holds its definition and
    [entityOwnership] names it as the owner (no entity enumerated after it
    defining the id again). *)
Theorem later_entity_wins (template : Template) before firstId
  (first : Entity) between secondId (second : Entity) after
  firstEntries secondEntries variableId firstDefinition secondDefinition :
  entities template
  = before ++ (firstId, first) :: between ++ (secondId, second) :: after ->
  variables first = Some firstEntries ->
  variables second = Some secondEntries ->
  NoDup secondEntries.*1 ->
  (variableId, firstDefinition) ∈ firstEntries ->
  (variableId, secondDefinition) ∈ secondEntries ->
  Forall (fun entry => variableId ∉ variableIds entry.2) after ->
  let derived := authenticationTemplateToCompilationEnvironment template in
  env_variables derived !! variableId = Some secondDefinition
  /\ env_entityOwnership derived !! variableId = Some secondId.
Proof.
  intros Hentities _ Hsecond Hnodup _ Hin Hafter.
  apply (last_definition_wins template
           (before ++ (firstId, first) :: between) secondId second after
           secondEntries); try done.
  by rewrite Hentities, <- app_assoc.
Qed.

Lemma collectDeclared_lookup {A} (field : Script -> Js.Property A)
  (entries : list (string * Script)) scriptId value :
  NoDup entries.*1 ->
  foldl (collectDeclared field) ∅ entries !! scriptId = Some value
  <-> exists definition,
      (scriptId, definition) ∈ entries /\ field definition = Js.Defined value.
Proof.
  induction entries as [|[id def] entries IH] using rev_ind.
  - intros _. cbn [foldl]. rewrite lookup_empty. split; [done|].
    by intros (? & ?%elem_of_nil & _).
  - rewrite fmap_app, NoDup_app. cbn. intros (Hnodup & Hfresh & _).
    specialize (IH Hnodup). rewrite foldl_app. cbn.
    assert (Hlast : forall definition,
               (scriptId, definition) ∈ entries ++ [(id, def)]
               <-> (scriptId, definition) ∈ entries
                   \/ (scriptId = id /\ definition = def)).
    { intros definition. rewrite elem_of_app, list_elem_of_singleton.
      naive_solver. }
    assert (Hnotin : forall definition, (id, definition) ∈ entries -> False).
    { intros definition Hin. apply (Hfresh id); [|by left].
      apply list_elem_of_fmap. by exists (id, definition). }
    unfold collectDeclared at 1. cbn.
    destruct (field def) as [| |declaredValue] eqn:Hfield; cbn.
    + rewrite IH. split.
      * intros (definition & Hin & Hdef). exists definition.
        split; [|done]. apply Hlast. by left.
      * intros (definition & [Hin|[-> ->]]%Hlast & Hdef);
          [by exists definition | congruence].
    + rewrite IH. split.
      * intros (definition & Hin & Hdef). exists definition.
        split; [|done]. apply Hlast. by left.
      * intros (definition & [Hin|[-> ->]]%Hlast & Hdef);
          [by exists definition | congruence].
    + unfold Js.set. destruct (decide (id = scriptId)) as [->|Hne].
      * rewrite lookup_insert_eq. split.
        -- intros [= <-]. exists def. split; [|done]. apply Hlast. by right.
        -- intros (definition & [Hin|[_ ->]]%Hlast & Hdef);
             [by destruct (Hnotin definition) | congruence].
      * rewrite lookup_insert_ne by done. rewrite IH. split.
        -- intros (definition & Hin & Hdef). exists definition.
           split; [|done]. apply Hlast. by left.
        -- intros (definition & [Hin|[-> ->]]%Hlast & Hdef);
             [by exists definition | done].
Qed.

(** C8: [unlockingScripts], [lockingScriptTypes] and
    [unlockingScriptTimeLockTypes] hold an entry for a script id exactly
    when the script's definition in the template carries [unlocks],
    [lockingType] or [timeLockType] with a defined value, and the entry is
    that value. *)
Theorem tag_maps_exactly_declared (template : Template) scriptId :
  NoDup (scripts template).*1 ->
  let derived := authenticationTemplateToCompilationEnvironment template in
  (forall target,
      env_unlockingScripts derived !! scriptId = Some target
      <-> exists definition,
          (scriptId, definition) ∈ scripts template
          /\ unlocks definition = Js.Defined target)
  /\ (forall tag,
         env_lockingScriptTypes derived !! scriptId = Some tag
         <-> exists definition,
             (scriptId, definition) ∈ scripts template
             /\ lockingType definition = Js.Defined tag)
  /\ (forall tag,
         env_unlockingScriptTimeLockTypes derived !! scriptId = Some tag
         <-> exists definition,
             (scriptId, definition) ∈ scripts template
             /\ timeLockType definition = Js.Defined tag).
Proof.
  intros Hnodup. cbn.
  repeat split; try (by apply collectDeclared_lookup);
    by apply (collectDeclared_lookup _ _ _ _ Hnodup).
Qed.

End TemplateEnvironmentFacts.


(** * Properties of the lexer *)

Section LexerFacts.

Import Language.

Lemma span_app_stop p r c t x :
  (span p r).2 = c :: t -> span p (r ++ x) = ((span p r).1, c :: t ++ x).
Proof.
  induction r as [|d r IH]; [done|]. cbn.
  destruct (p d); [|by intros [= <- <-]].
  destruct (span p r) as [taken after] eqn:Hspan. cbn in *.
  intros Hafter. by rewrite (IH Hafter).
Qed.

Lemma span_app_head p r c x :
  p c = false ->
  span p (r ++ c :: x) = ((span p r).1, (span p r).2 ++ c :: x).
Proof.
  intros Hc. induction r as [|d r IH]; cbn; [by rewrite Hc|].
  destruct (p d); [|done]. rewrite IH. by destruct (span p r).
Qed.

Lemma span_all p s c x :
  forallb p s = true -> p c = false -> span p (s ++ c :: x) = (s, c :: x).
Proof.
  intros Hall Hc. induction s as [|d s IH]; cbn; [by rewrite Hc|].
  cbn in Hall. apply andb_true_iff in Hall as [-> Hall]. by rewrite (IH Hall).
Qed.

Lemma span_length p s : (List.length (span p s).2 <= List.length s)%nat.
Proof.
  induction s as [|c s IH]; cbn; [done|].
  destruct (p c); cbn; [|lia]. destruct (span p s). cbn in *. lia.
Qed.

Lemma span_taken p s : forallb p (span p s).1 = true.
Proof.
  induction s as [|c s IH]; cbn; [done|].
  destruct (p c) eqn:Hc; cbn; [|done]. destruct (span p s). cbn in *.
  by rewrite Hc.
Qed.

Lemma untilBlockEnd_app r body after x :
  untilBlockEnd r = Some (body, after) ->
  untilBlockEnd (r ++ x) = Some (body, after ++ x).
Proof.
  revert body. induction r as [|c r IH]; intros body; [done|].
  cbn [untilBlockEnd app]. destruct r as [|d r]; [done|].
  cbn [app]. destruct ((c =? "*")%char && (d =? "/")%char).
  - by intros [= <- <-].
  - destruct (untilBlockEnd (d :: r)) as [[body' after']|] eqn:Hrest; [|done].
    intros [= <- <-]. specialize (IH _ eq_refl). cbn [app] in IH.
    by rewrite IH.
Qed.

Lemma untilBlockEnd_length r body after :
  untilBlockEnd r = Some (body, after) ->
  (List.length after < List.length r)%nat.
Proof.
  revert body. induction r as [|c r IH]; intros body; [done|].
  cbn [untilBlockEnd]. destruct r as [|d r]; [done|].
  destruct ((c =? "*")%char && (d =? "/")%char).
  - intros [= <- <-]. cbn. lia.
  - destruct (untilBlockEnd (d :: r)) as [[body' after']|] eqn:Hrest; [|done].
    intros [= <- <-]. specialize (IH _ eq_refl). cbn in *. lia.
Qed.

Lemma untilBlockEnd_body body x :
  hasTerminator body = false ->
  untilBlockEnd (body ++ "*"%char :: "/"%char :: x) = Some (body, x).
Proof.
  unfold hasTerminator. induction body as [|c body IH]; [done|].
  cbn [untilBlockEnd app]. destruct body as [|d body].
  - cbn [app]. intros _. destruct (c =? "*")%char; cbn; reflexivity.
  - cbn [app]. destruct ((c =? "*")%char && (d =? "/")%char); [done|].
    destruct (untilBlockEnd (d :: body)) as [[? ?]|] eqn:Hrest; [done|].
    intros _. specialize (IH eq_refl). cbn [app] in IH. by rewrite IH.
Qed.

Lemma span_length_cons p c s :
  p c = true -> (List.length (span p (c :: s)).2 <= List.length s)%nat.
Proof.
  intros Hc. cbn. rewrite Hc. pose proof (span_length p s).
  by destruct (span p s).
Qed.

Lemma scanInteger_length_digit negative c s found rest :
  isDigit c = true ->
  scanInteger negative (c :: s) = ScanToken found rest ->
  (List.length rest <= List.length s)%nat.
Proof.
  unfold scanInteger. intros Hc.
  pose proof (span_length_cons isDigit c s Hc) as Hlength.
  destruct (span isDigit (c :: s)). intros [= <- <-]. exact Hlength.
Qed.

Lemma scanInteger_length negative s found rest :
  scanInteger negative s = ScanToken found rest ->
  (List.length rest <= List.length s)%nat.
Proof.
  unfold scanInteger. pose proof (span_length isDigit s) as Hlength.
  destruct (span isDigit s). intros [= <- <-]. exact Hlength.
Qed.

Lemma scanUtf8_length quote s found rest :
  scanUtf8 quote s = ScanToken found rest ->
  (List.length rest < List.length s)%nat.
Proof.
  unfold scanUtf8.
  pose proof (span_length (fun c => negb (c =? quote)%char) s) as Hlength.
  destruct (span _ s) as [content [|closing after]]; [done|].
  intros [= <- <-]. cbn in *. lia.
Qed.

(** Every token takes at least one character. *)
Lemma scan_shorter s found rest :
  scan s = ScanToken found rest -> (List.length rest < List.length s)%nat.
Proof.
  destruct s as [|c s]; [done|]. unfold scan.
  intros Hscan.
  repeat (case_match; simplify_eq; cbn [List.length]; try lia).
  all: try (apply scanInteger_length in Hscan; cbn [List.length] in Hscan; lia).
  all: try (apply scanUtf8_length in Hscan; lia).
  all: try (apply scanInteger_length_digit in Hscan; [cbn in *; lia|done]).
  all: try match goal with
    | H : span isIdentifierPart (?c :: ?s) = _, Hc : isIdentifierStart ?c = true |- _ =>
        let Hlength := fresh in
        assert (Hlength : isIdentifierPart c = true)
          by (unfold isIdentifierPart; by rewrite Hc);
        apply (span_length_cons _ c s) in Hlength; rewrite H in Hlength;
        cbn [List.length snd] in Hlength; lia
    | |- context [span ?p ?l] => pose proof (span_length p l); lia
    | H : untilBlockEnd _ = Some _ |- _ =>
        apply untilBlockEnd_length in H; lia
    | H : scanInteger _ _ = _ |- _ =>
        apply scanInteger_length in H; cbn [List.length] in H; lia
    | H : span ?p ?l = _ |- _ =>
        pose proof (span_length p l) as Hlength; rewrite H in Hlength;
        cbn [List.length snd] in Hlength; lia
    end.
Qed.

Lemma scanInteger_app negative s found rest x :
  scanInteger negative s = ScanToken found rest ->
  scanInteger negative (s ++ "/"%char :: x)
  = ScanToken found (rest ++ "/"%char :: x).
Proof.
  unfold scanInteger. rewrite (span_app_head isDigit s "/" x eq_refl).
  destruct (span isDigit s). by intros [= <- <-].
Qed.

Lemma scanUtf8_app quote s found rest x :
  scanUtf8 quote s = ScanToken found rest ->
  scanUtf8 quote (s ++ x) = ScanToken found (rest ++ x).
Proof.
  unfold scanUtf8.
  destruct (span _ s) as [content [|closing after]] eqn:Hspan; [done|].
  intros [= <- <-].
  by rewrite (span_app_stop _ s closing after x ltac:(by rewrite Hspan)), Hspan.
Qed.

Ltac scan_cases :=
  repeat first
    [ match goal with
      | |- context [match ?l with [] => _ | _ :: _ => _ end] =>
          is_var l; destruct l; cbn [app]
      end
    | match goal with
      | |- context [if ?b then _ else _] => destruct b eqn:?
      end ].

(** A token that is not a line comment running to the end of the text is
    not changed by appending a text that starts with a slash. *)
Lemma scan_app_slash a found rest x :
  scan a = ScanToken found rest ->
  rest <> [] \/ found <> TComment LineStyle ->
  scan (a ++ "/"%char :: x) = ScanToken found (rest ++ "/"%char :: x).
Proof.
  destruct a as [|c a]; [done|]. cbn [app]. unfold scan.
  scan_cases; try done.
  all: try (by intros [= <- <-]).
  all: try match goal with
    | H : _ && ("/" =? "x")%char = true |- _ =>
        by rewrite andb_false_r in H
    | |- scanInteger ?n ?s = _ -> _ -> scanInteger ?n ?t = _ =>
        intros Hscan _; by apply (scanInteger_app n s)
    | |- scanUtf8 ?q ?s = _ -> _ -> scanUtf8 ?q ?t = _ =>
        intros Hscan _; by apply (scanUtf8_app q s)
    | |- context [untilBlockEnd (?r ++ ?y)] =>
        destruct (untilBlockEnd r) as [[body after]|] eqn:Hbody; [|done];
        intros [= <- <-] _; by rewrite (untilBlockEnd_app _ _ _ y Hbody)
    | |- context [span isHexDigit (?r ++ "/"%char :: ?y)] =>
        rewrite (span_app_head isHexDigit r "/" y eq_refl);
        destruct (span isHexDigit r); by intros [= <- <-]
    | |- context [span isIdentifierPart (?c :: ?d :: ?r ++ "/"%char :: ?y)] =>
        let Happ := fresh in
        pose proof (span_app_head isIdentifierPart (c :: d :: r) "/" y eq_refl)
          as Happ;
        cbn [app] in Happ; rewrite Happ;
        destruct (span isIdentifierPart (c :: d :: r)); by intros [= <- <-]
    | |- context [span isIdentifierPart (?c :: "/"%char :: ?y)] =>
        let Happ := fresh in
        pose proof (span_app_head isIdentifierPart [c] "/" y eq_refl) as Happ;
        cbn [app] in Happ; rewrite Happ;
        destruct (span isIdentifierPart [c]); by intros [= <- <-]
    end.
  intros [= <- <-] [Hrest|Hfound]; [|done].
  destruct (span withinLine a0).2 as [|newline after] eqn:Hspan; [done|].
  by rewrite (span_app_stop _ a0 newline after _ Hspan).
Qed.

Lemma span_app_all p r x :
  (span p r).2 = [] -> (span p (r ++ x)).2 = (span p x).2.
Proof.
  induction r as [|d r IH]; [done|]. cbn.
  destruct (p d); [|done]. destruct (span p r) as [taken after]. cbn in *.
  intros ->. specialize (IH eq_refl). by destruct (span p (r ++ x)).
Qed.

(** A line comment running to the end of the text takes what is appended,
    up to the first line break. *)
Lemma scan_app_open a x :
  scan a = ScanToken (TComment LineStyle) [] ->
  scan (a ++ x) = ScanToken (TComment LineStyle) (span withinLine x).2.
Proof.
  destruct a as [|c a]; [done|]. cbn [app]. unfold scan.
  scan_cases; try done.
  all: try match goal with
    | |- scanInteger _ _ = _ -> _ => unfold scanInteger; by destruct (span _ _)
    | |- scanUtf8 _ _ = _ -> _ =>
        unfold scanUtf8; destruct (span _ _) as [? [|? ?]]; done
    | |- context [untilBlockEnd ?r] =>
        destruct (untilBlockEnd r) as [[? ?]|]; done
    | |- context [span isHexDigit ?r] => by destruct (span isHexDigit r)
    | |- context [span isIdentifierPart ?r] =>
        by destruct (span isIdentifierPart r)
    end.
  intros [= Hspan]. by rewrite (span_app_all _ _ _ Hspan).
Qed.

Lemma span_app_inner p s x :
  (span p s).2 <> [] -> span p (s ++ x) = ((span p s).1, (span p s).2 ++ x).
Proof.
  destruct (span p s).2 as [|c t] eqn:Hspan; [done|]. intros _.
  by apply span_app_stop.
Qed.

Lemma span_single p c : p c = true -> span p [c] = ([c], []).
Proof. intros Hc. cbn. by rewrite Hc. Qed.

Lemma scanInteger_inner negative s found rest x :
  scanInteger negative s = ScanToken found rest ->
  rest <> [] ->
  scanInteger negative (s ++ x) = ScanToken found (rest ++ x).
Proof.
  unfold scanInteger. destruct (span isDigit s) as [digits after] eqn:Hspan.
  intros [= <- <-] Hafter.
  rewrite span_app_inner; rewrite Hspan; done.
Qed.

(** A token that ends before the end of the text is not changed by
    appending to the text. *)
Lemma scan_app_inner a found rest x :
  scan a = ScanToken found rest ->
  rest <> [] ->
  scan (a ++ x) = ScanToken found (rest ++ x).
Proof.
  destruct a as [|c a]; [done|]. cbn [app]. unfold scan.
  scan_cases; try done.
  all: try (by intros [= <- <-]).
  all: try (intros Hscan _; by rewrite app_nil_r).
  all: try match goal with
    | Hc : isDigit ?c = true |- scanInteger _ [?c] = _ -> _ =>
        unfold scanInteger at 1; rewrite (span_single _ c Hc);
        by intros [= <- <-]
    | Hc : isIdentifierStart ?c = true
      |- context [span isIdentifierPart [?c]] =>
        rewrite (span_single isIdentifierPart c)
          by (unfold isIdentifierPart; by rewrite Hc);
        by intros [= <- <-]
    | |- scanInteger ?n ?s = _ -> _ -> scanInteger ?n ?t = _ =>
        intros Hscan Hrest; by apply (scanInteger_inner n s)
    | |- scanUtf8 ?q ?s = _ -> _ -> scanUtf8 ?q ?t = _ =>
        intros Hscan _; by apply (scanUtf8_app q s)
    | |- context [untilBlockEnd (?r ++ ?y)] =>
        destruct (untilBlockEnd r) as [[body after]|] eqn:Hbody; [|done];
        intros [= <- <-] _; by rewrite (untilBlockEnd_app _ _ _ y Hbody)
    | |- context [span ?p (?r ++ ?y)] =>
        intros Hscan Hrest;
        rewrite (span_app_inner p r y);
        [ destruct (span p r); by simplify_eq
        | destruct (span p r); by simplify_eq ]
    | |- context [span ?p (?c :: ?d :: ?r ++ ?y)] =>
        intros Hscan Hrest;
        let Happ := fresh in
        pose proof (span_app_inner p (c :: d :: r) y) as Happ;
        cbn [app] in Happ; rewrite Happ;
        [ destruct (span p (c :: d :: r)); by simplify_eq
        | destruct (span p (c :: d :: r)); by simplify_eq ]
    end.
Qed.

Lemma scan_nil_inv s : scan s = ScanEnd -> s = [].
Proof.
  destruct s as [|c s]; [done|]. unfold scan.
  scan_cases; try done.
  all: try match goal with
    | |- scanInteger _ _ = _ -> _ => unfold scanInteger; by destruct (span _ _)
    | |- scanUtf8 _ _ = _ -> _ =>
        unfold scanUtf8; destruct (span _ _) as [? [|? ?]]; done
    | |- context [untilBlockEnd ?r] =>
        destruct (untilBlockEnd r) as [[? ?]|]; done
    | |- context [span ?p ?r] => by destruct (span p r)
    end.
Qed.

Lemma Lexes_nil_inv s : Lexes s [] -> s = [].
Proof. by inversion 1. Qed.

Lemma Lexes_cons_nonempty s found kinds : Lexes s (found :: kinds) -> s <> [].
Proof. inversion 1 as [|? ? ? ? Hscan]; subst. by intros ->. Qed.

Lemma Lexes_deterministic s kinds kinds' :
  Lexes s kinds -> Lexes s kinds' -> kinds = kinds'.
Proof.
  intros Hlexes. revert kinds'.
  induction Hlexes as [|s found rest kinds Hscan _ IH]; intros kinds'.
  - inversion 1 as [|? ? ? ? Hscan']; [done|]. done.
  - inversion 1 as [|? ? ? ? Hscan' Hrest]; subst; [done|].
    rewrite Hscan in Hscan'. injection Hscan' as <- <-.
    by rewrite (IH _ Hrest).
Qed.

(** The tokens [tokenizeFrom] yields are those of the lexer's steps,
    whatever the offset it starts from. *)
Lemma tokenizeFrom_Lexes steps offset s tokens :
  tokenizeFrom steps offset s = inl tokens -> Lexes s (map kind tokens).
Proof.
  revert offset s tokens.
  induction steps as [|steps IH]; intros offset s tokens; cbn [tokenizeFrom].
  - destruct (scan s) eqn:Hscan; [|done..].
    intros [= <-]. apply scan_nil_inv in Hscan as ->. constructor.
  - destruct (scan s) as [|found rest|] eqn:Hscan; [| |done].
    + intros [= <-]. apply scan_nil_inv in Hscan as ->. constructor.
    + destruct (tokenizeFrom steps _ rest) as [tokens'|] eqn:Hrest; [|done].
      intros [= <-]. cbn. econstructor; [done|]. by eapply IH.
Qed.

Lemma Lexes_tokenizeFrom steps offset s kinds :
  (List.length s <= steps)%nat ->
  Lexes s kinds ->
  exists tokens,
    tokenizeFrom steps offset s = inl tokens /\ map kind tokens = kinds.
Proof.
  intros Hsteps Hlexes. revert steps offset Hsteps.
  induction Hlexes as [|s found rest kinds Hscan _ IH]; intros steps offset Hsteps.
  - exists []. by destruct steps.
  - pose proof (scan_shorter _ _ _ Hscan) as Hshorter.
    destruct steps as [|steps]; [lia|].
    cbn [tokenizeFrom]. rewrite Hscan.
    destruct (IH steps (offset + (List.length s - List.length rest))%nat
                ltac:(lia)) as (tokens & -> & <-).
    eexists. split; [reflexivity|done].
Qed.

Lemma tokenKinds_Lexes s kinds : tokenKinds s = Some kinds <-> Lexes s kinds.
Proof.
  unfold tokenKinds. split.
  - destruct (tokenizeFrom _ 0 s) as [tokens|] eqn:Htokens; [|done].
    intros [= <-]. by eapply tokenizeFrom_Lexes.
  - intros Hlexes.
    by destruct (Lexes_tokenizeFrom (List.length s) 0%nat s kinds (le_n _) Hlexes)
      as (tokens & -> & <-).
Qed.

Lemma last_cons_cons {A} (x y : A) l : last (x :: y :: l) = last (y :: l).
Proof. done. Qed.

Lemma Lexes_app_slash a kinds x kinds' :
  Lexes a kinds ->
  last kinds <> Some (TComment LineStyle) ->
  Lexes ("/"%char :: x) kinds' ->
  Lexes (a ++ "/"%char :: x) (kinds ++ kinds').
Proof.
  intros Hlexes Hlast Hx.
  induction Hlexes as [|s found rest kinds Hscan Hrest IH]; [done|].
  cbn [app]. apply LexesToken with (rest ++ "/"%char :: x).
  - apply scan_app_slash; [done|].
    destruct kinds as [|next kinds].
    + right. intros ->. by apply Hlast.
    + left. by eapply Lexes_cons_nonempty.
  - apply IH. destruct kinds as [|next kinds]; [done|].
    by rewrite last_cons_cons in Hlast.
Qed.

Lemma Lexes_app_open a kinds x kinds' :
  Lexes a kinds ->
  last kinds = Some (TComment LineStyle) ->
  Lexes (span withinLine x).2 kinds' ->
  Lexes (a ++ x) (kinds ++ kinds').
Proof.
  intros Hlexes Hlast Hx.
  induction Hlexes as [|s found rest kinds Hscan Hrest IH]; [done|].
  cbn [app]. destruct kinds as [|next kinds].
  - apply Lexes_nil_inv in Hrest as ->. injection Hlast as ->.
    apply LexesToken with (span withinLine x).2; [|done].
    by apply scan_app_open.
  - apply LexesToken with (rest ++ x).
    + apply scan_app_inner; [done|]. by eapply Lexes_cons_nonempty.
    + apply IH. by rewrite last_cons_cons in Hlast.
Qed.

Lemma Lexes_app_open_inv a kinds b all :
  Lexes a kinds ->
  last kinds = Some (TComment LineStyle) ->
  Lexes (a ++ b) all ->
  exists kinds',
    all = kinds ++ kinds' /\ Lexes (span withinLine b).2 kinds'.
Proof.
  intros Hlexes Hlast. revert all.
  induction Hlexes as [|s found rest kinds Hscan Hrest IH]; [done|].
  intros all Hall. destruct kinds as [|next kinds].
  - apply Lexes_nil_inv in Hrest as ->. injection Hlast as ->.
    pose proof (scan_app_open _ b Hscan) as Hscan'.
    inversion Hall as [Hnil|? ? ? kinds' Hscan'' Hrest']; subst.
    + rewrite <- Hnil in Hscan'. discriminate Hscan'.
    + rewrite Hscan' in Hscan''. injection Hscan'' as <- <-. by exists kinds'.
  - assert (rest <> []) as Hnonempty by (by eapply Lexes_cons_nonempty).
    pose proof (scan_app_inner _ _ _ b Hscan Hnonempty) as Hscan'.
    inversion Hall as [Hnil|? ? ? kinds' Hscan'' Hrest']; subst.
    + rewrite <- Hnil in Hscan'. discriminate Hscan'.
    + rewrite Hscan' in Hscan''. injection Hscan'' as <- <-.
      rewrite last_cons_cons in Hlast.
      destruct (IH Hlast _ Hrest') as (kinds'' & -> & Hdrop).
      by exists kinds''.
Qed.

Lemma span_app_within p s x :
  forallb p s = true -> (span p (s ++ x)).2 = (span p x).2.
Proof.
  induction s as [|c s IH]; [done|]. cbn.
  intros [-> Hall]%andb_true_iff. specialize (IH Hall).
  by destruct (span p (s ++ x)).
Qed.

Lemma Lexes_whitespace c b kinds :
  isWhitespace c = true -> Lexes b kinds -> Lexes (c :: b) (TWhitespace :: kinds).
Proof.
  intros Hc Hb. apply LexesToken with b; [|done]. unfold scan. by rewrite Hc.
Qed.

(** A well-formed comment in front of a text is one comment token, with
    the line break after a line comment as whitespace. *)
Lemma Lexes_comment comment b kinds :
  wellFormedComment comment = true ->
  Lexes b kinds ->
  exists skipped,
    Lexes (commentText comment ++ b) (skipped ++ kinds)
    /\ List.filter isSignificant skipped = [].
Proof.
  intros Hcomment Hb. destruct comment as [body|body]; cbn in Hcomment.
  - exists [TComment LineStyle; TWhitespace]. split; [|done].
    cbn [commentText app]. apply LexesToken with (ascii_of_nat 10 :: b).
    + cbn. rewrite <- app_assoc. cbn [app].
      by rewrite (span_all withinLine body (ascii_of_nat 10) b Hcomment eq_refl).
    + by apply Lexes_whitespace.
  - exists [TComment BlockStyle]. split; [|done].
    cbn [commentText app]. apply LexesToken with b; [|done].
    cbn. rewrite <- app_assoc. cbn [app].
    apply negb_true_iff in Hcomment.
    by rewrite (untilBlockEnd_body body b Hcomment).
Qed.

(** The same comment when the text before it ends inside a line comment:
    the rest of that line is dropped. *)
Lemma Lexes_comment_open comment b kinds :
  wellFormedComment comment = true ->
  singleLine comment = true ->
  Lexes b kinds ->
  Lexes (span withinLine b).2 kinds ->
  exists skipped,
    Lexes (span withinLine (commentText comment ++ b)).2 (skipped ++ kinds)
    /\ List.filter isSignificant skipped = [].
Proof.
  intros Hcomment Hsingle Hb Hdropped. destruct comment as [body|body];
    cbn in Hcomment, Hsingle.
  - exists [TWhitespace]. split; [|done].
    cbn [commentText].
    change ("/"%char :: "/"%char :: body ++ [ascii_of_nat 10])
      with (["/"%char; "/"%char] ++ body ++ [ascii_of_nat 10]).
    rewrite <- !app_assoc.
    rewrite (span_app_within withinLine ["/"%char; "/"%char] _ eq_refl).
    cbn [app].
    rewrite (span_all withinLine body (ascii_of_nat 10) b Hcomment eq_refl).
    cbn [snd app]. by apply Lexes_whitespace.
  - exists []. split; [|done].
    cbn [commentText].
    change ("/"%char :: "*"%char :: body ++ ["*"%char; "/"%char])
      with (["/"%char; "*"%char] ++ body ++ ["*"%char; "/"%char]).
    rewrite <- !app_assoc.
    rewrite (span_app_within withinLine ["/"%char; "*"%char] _ eq_refl).
    rewrite (span_app_within withinLine body _ Hsingle).
    by rewrite (span_app_within withinLine ["*"%char; "/"%char] _ eq_refl).
Qed.

(** Inserting a comment between two tokens adds no significant token. *)
Lemma Lexes_insert_comment a b comment kindsBefore kindsAfter :
  Lexes a kindsBefore ->
  Lexes b kindsAfter ->
  Lexes (a ++ b) (kindsBefore ++ kindsAfter) ->
  wellFormedComment comment = true ->
  last kindsBefore <> Some (TComment LineStyle) \/ singleLine comment = true ->
  exists skipped,
    Lexes (a ++ commentText comment ++ b) (kindsBefore ++ skipped ++ kindsAfter)
    /\ List.filter isSignificant skipped = [].
Proof.
  intros Ha Hb Hab Hcomment Hside.
  assert (last kindsBefore = Some (TComment LineStyle)
          \/ last kindsBefore <> Some (TComment LineStyle)) as [Hopen|Hclosed].
  { destruct (last kindsBefore) as [[| | | | | | | |[]|]|];
      (by left) || (by right). }
  - destruct Hside as [?|Hsingle]; [done|].
    destruct (Lexes_app_open_inv _ _ _ _ Ha Hopen Hab)
      as (kinds' & ->%app_inv_head & Hdropped).
    destruct (Lexes_comment_open comment b kinds' Hcomment Hsingle Hb Hdropped)
      as (skipped & Hlexes & Hskipped).
    exists skipped. split; [|done]. by apply Lexes_app_open.
  - destruct (Lexes_comment comment b kindsAfter Hcomment Hb)
      as (skipped & Hlexes & Hskipped).
    exists skipped. split; [|done].
    destruct comment; by apply Lexes_app_slash.
Qed.

Lemma tokenize_Lexes source kinds :
  Lexes (list_ascii_of_string source) kinds ->
  exists tokens, tokenize source = inl tokens /\ map kind tokens = kinds.
Proof. intros Hlexes. by apply Lexes_tokenizeFrom. Qed.

(** The length of the text is enough steps for [tokenizeFrom]: the result
    does not depend on a larger bound. *)
Lemma tokenizeFrom_steps steps steps' offset s :
  (List.length s <= steps)%nat ->
  (List.length s <= steps')%nat ->
  tokenizeFrom steps offset s = tokenizeFrom steps' offset s.
Proof.
  revert steps' offset s.
  induction steps as [|steps IH]; intros steps' offset s Hsteps Hsteps'.
  - destruct s; [|cbn in Hsteps; lia]. by destruct steps'.
  - destruct steps' as [|steps'].
    + destruct s; [|cbn in Hsteps'; lia]. done.
    + cbn [tokenizeFrom].
      destruct (scan s) as [|found rest|] eqn:Hscan; [done| |done].
      apply scan_shorter in Hscan.
      by rewrite (IH steps' _ rest) by lia.
Qed.

End LexerFacts.

(** * Compilation is insensitive to source ranges *)

Section RangeFacts.

Import Language.

Lemma ASTNode_nested_ind (P : ASTNode -> Prop) :
  (forall literal at_, P (LiteralNode literal at_)) ->
  (forall name at_, P (Identifier name at_)) ->
  (forall children at_, Forall P children -> P (Push children at_)) ->
  (forall children at_, Forall P children -> P (Evaluation children at_)) ->
  forall node, P node.
Proof.
  intros Hliteral Hidentifier Hpush Hevaluation. fix IH 1.
  intros [literal at_|name at_|children at_|children at_].
  - apply Hliteral.
  - apply Hidentifier.
  - apply Hpush. induction children as [|child children IHchildren];
      constructor; [apply IH | apply IHchildren].
  - apply Hevaluation. induction children as [|child children IHchildren];
      constructor; [apply IH | apply IHchildren].
Qed.

Lemma ResolvedNode_nested_ind (P : ResolvedNode -> Prop) :
  (forall bytes at_, P (ResolvedLiteral bytes at_)) ->
  (forall byte at_, P (ResolvedOpcode byte at_)) ->
  (forall children at_, Forall P children -> P (ResolvedPush children at_)) ->
  forall node, P node.
Proof.
  intros Hliteral Hopcode Hpush. fix IH 1.
  intros [bytes at_|byte at_|children at_].
  - apply Hliteral.
  - apply Hopcode.
  - apply Hpush. induction children as [|child children IHchildren];
      constructor; [apply IH | apply IHchildren].
Qed.

Lemma sameResult_bind {A B} (R : A -> A -> Prop) (S : B -> B -> Prop)
  (m m' : Result A) (k k' : A -> Result B) :
  sameResult R m m' ->
  (forall a a', R a a' -> sameResult S (k a) (k' a')) ->
  sameResult S (bind m k) (bind m' k').
Proof.
  destruct m as [a|failure], m' as [a'|failure']; cbn; try done.
  intros Ha Hk. by apply Hk.
Qed.

Lemma sameResult_fail {A} (R : A -> A -> Prop) type message at_ at_' :
  sameResult R (fail type message at_) (fail type message at_').
Proof. done. Qed.

Lemma sameResult_refl {A} (R : A -> A -> Prop) (r : Result A) :
  (forall a, R a a) -> sameResult R r r.
Proof. intros Hrefl. destruct r; cbn; [apply Hrefl | done]. Qed.

Lemma sameAST_cons node node' nodes nodes' :
  eraseAST node = eraseAST node' -> sameAST nodes nodes' ->
  sameAST (node :: nodes) (node' :: nodes').
Proof. unfold sameAST. cbn. by intros -> ->. Qed.

Lemma sameAST_rev nodes nodes' :
  sameAST nodes nodes' -> sameAST (rev nodes) (rev nodes').
Proof. unfold sameAST. rewrite !map_rev. by intros ->. Qed.

(** The parser reads the classes of the tokens only; their ranges end up
    in the ranges of the nodes and of the errors. *)
Lemma parseTokens_same tokens tokens' stack stack' current current' :
  Forall2 (fun t t' => kind t = kind t') tokens tokens' ->
  Forall2 sameFrame stack stack' ->
  sameAST current current' ->
  sameResult sameAST (parseTokens tokens stack current)
    (parseTokens tokens' stack' current').
Proof.
  intros Htokens. revert stack stack' current current'.
  induction Htokens as [|token token' tokens tokens' Hkind _ IH];
    intros stack stack' current current' Hstack Hcurrent.
  - cbn. destruct Hstack; cbn; [by apply sameAST_rev | done].
  - cbn [parseTokens]. rewrite <- Hkind.
    destruct (kind token); try (apply IH; [done|]; by apply sameAST_cons).
    + apply IH; [|done]. by constructor.
    + destruct Hstack as [|frame frame' stack stack' [Hbracket Hbefore] Hstack];
        [done|].
      rewrite <- Hbracket. destruct (bracket frame); [|done].
      apply IH; [done|]. apply sameAST_cons; [|done]. cbn.
      by rewrite (sameAST_rev _ _ Hcurrent).
    + apply IH; [|done]. by constructor.
    + destruct Hstack as [|frame frame' stack stack' [Hbracket Hbefore] Hstack];
        [done|].
      rewrite <- Hbracket. destruct (bracket frame); [done|].
      apply IH; [done|]. apply sameAST_cons; [|done]. cbn.
      by rewrite (sameAST_rev _ _ Hcurrent).
    + by apply IH.
    + by apply IH.
Qed.

Lemma generateNode_push children at_ :
  generateNode (ResolvedPush children at_)
  = bind (generate children) (fun content =>
      match encodeDataPush content with
      | Some bytes => ok bytes
      | None =>
          fail EncodingError "push length outside representable range" at_
      end).
Proof.
  cbn [generateNode].
  match goal with
  | |- bind (?generateAll children) _ = _ =>
      assert (Hsame : forall nodes, generateAll nodes = generate nodes)
  end.
  { induction nodes as [|first others IH]; [done|].
    cbn [generate]. by rewrite <- IH. }
  by rewrite Hsame.
Qed.

(** The generator reads the bytes of the resolved nodes only. *)
Lemma generateNode_same node node' :
  eraseResolved node = eraseResolved node' ->
  sameResult eq (generateNode node) (generateNode node').
Proof.
  revert node'. induction node as [bytes at_|byte at_|children at_ IH]
    using ResolvedNode_nested_ind;
    intros [bytes' at_'|byte' at_'|children' at_']; try done.
  - by intros [= ->].
  - by intros [= ->].
  - cbn [eraseResolved]. intros [= Hchildren].
    rewrite !generateNode_push.
    apply sameResult_bind with eq.
    + clear at_ at_'. revert children' Hchildren.
      induction IH as [|child children Hchild _ IHchildren];
        intros [|child' children']; try done.
      cbn [map]. intros [= Hhead Htail]. cbn [generate].
      apply sameResult_bind with eq; [by apply Hchild|]. intros ? ? ->.
      apply sameResult_bind with eq; [by apply IHchildren|]. by intros ? ? ->.
    + intros ? content ->. by destruct (encodeDataPush content).
Qed.

Lemma generate_same nodes nodes' :
  sameResolved nodes nodes' -> sameResult eq (generate nodes) (generate nodes').
Proof.
  unfold sameResolved. revert nodes'.
  induction nodes as [|node nodes IH]; intros [|node' nodes']; try done.
  cbn [map]. intros [= Hhead Htail]. cbn [generate].
  apply sameResult_bind with eq; [by apply generateNode_same|]. intros ? ? ->.
  apply sameResult_bind with eq; [by apply IH|]. by intros ? ? ->.
Qed.

Section Resolve.

Context {VariableDetail CompilationData : Type}.
Variable environment : CompilationEnvironment VariableDetail CompilationData.
Variable lookup : string -> Range -> Result ResolvedNode.

(** The lookup of an identifier uses the range of the identifier only to
    locate its result. *)
Hypothesis lookup_same : forall name at_ at_',
  sameResult (fun node node' => eraseResolved node = eraseResolved node')
    (lookup name at_) (lookup name at_').

Lemma resolveNode_push children at_ :
  resolveNode environment lookup (Push children at_)
  = bind (resolve environment lookup children) (fun content =>
      ok (ResolvedPush content at_)).
Proof.
  cbn [resolveNode].
  match goal with
  | |- bind (?resolveAll children) _ = _ =>
      assert (Hsame : forall nodes,
                 resolveAll nodes = resolve environment lookup nodes)
  end.
  { induction nodes as [|first others IH]; [done|].
    cbn [resolve]. by rewrite <- IH. }
  by rewrite Hsame.
Qed.

Lemma resolveNode_evaluation children at_ :
  resolveNode environment lookup (Evaluation children at_)
  = bind (resolve environment lookup children) (fun content =>
      bind (generate content) (fun bytecode =>
        match vm environment bytecode with
        | Some top => ok (ResolvedLiteral top at_)
        | None => fail EvaluationExecutionError "evaluation failed" at_
        end)).
Proof.
  cbn [resolveNode].
  match goal with
  | |- bind (?resolveAll children) _ = _ =>
      assert (Hsame : forall nodes,
                 resolveAll nodes = resolve environment lookup nodes)
  end.
  { induction nodes as [|first others IH]; [done|].
    cbn [resolve]. by rewrite <- IH. }
  by rewrite Hsame.
Qed.

Lemma resolve_same_children children children' :
  Forall (fun node => forall node',
            eraseAST node = eraseAST node' ->
            sameResult
              (fun resolved resolved' =>
                 eraseResolved resolved = eraseResolved resolved')
              (resolveNode environment lookup node)
              (resolveNode environment lookup node')) children ->
  sameAST children children' ->
  sameResult sameResolved (resolve environment lookup children)
    (resolve environment lookup children').
Proof.
  intros Hchildren. revert children'.
  induction Hchildren as [|child children Hchild _ IH];
    intros [|child' children']; try done.
  unfold sameAST. cbn [map]. intros [= Hhead Htail]. cbn [resolve].
  apply sameResult_bind with
    (fun resolved resolved' => eraseResolved resolved = eraseResolved resolved');
    [by apply Hchild|].
  intros resolved resolved' Hresolved.
  apply sameResult_bind with sameResolved; [by apply IH|].
  intros others others' Hothers. unfold sameResolved in *. cbn.
  by rewrite Hresolved, Hothers.
Qed.

(** The resolver reads the AST up to its ranges. *)
Lemma resolveNode_same node node' :
  eraseAST node = eraseAST node' ->
  sameResult
    (fun resolved resolved' => eraseResolved resolved = eraseResolved resolved')
    (resolveNode environment lookup node)
    (resolveNode environment lookup node').
Proof.
  revert node'.
  induction node as [literal at_|name at_|children at_ IH|children at_ IH]
    using ASTNode_nested_ind;
    intros [literal' at_'|name' at_'|children' at_'|children' at_']; try done.
  - intros [= ->]. cbn [resolveNode].
    apply sameResult_bind with eq; [|by intros ? ? ->].
    destruct literal' as [value|digits|content]; cbn; try done.
    by destruct (hexToBytes digits).
  - intros [= ->]. apply lookup_same.
  - cbn [eraseAST]. intros [= Hchildren]. rewrite !resolveNode_push.
    apply sameResult_bind with sameResolved;
      [by apply resolve_same_children|].
    intros content content' Hcontent. cbn. by rewrite Hcontent.
  - cbn [eraseAST]. intros [= Hchildren]. rewrite !resolveNode_evaluation.
    apply sameResult_bind with sameResolved;
      [by apply resolve_same_children|].
    intros content content' Hcontent.
    apply sameResult_bind with eq; [by apply generate_same|].
    intros ? bytecode ->. by destruct (vm environment bytecode).
Qed.

Lemma resolve_same nodes nodes' :
  sameAST nodes nodes' ->
  sameResult sameResolved (resolve environment lookup nodes)
    (resolve environment lookup nodes').
Proof.
  apply resolve_same_children. apply Forall_forall.
  intros node _ node'. apply resolveNode_same.
Qed.

End Resolve.

Section Compile.

Context {VariableDetail CompilationData : Type}.

Lemma resolveIdentifier_same
  (environment : CompilationEnvironment VariableDetail CompilationData)
  (data : CompilationData) compileReference path current name at_ at_' :
  sameResult (fun node node' => eraseResolved node = eraseResolved node')
    (resolveIdentifier environment data compileReference path current name at_)
    (resolveIdentifier environment data compileReference path current name at_').
Proof.
  unfold resolveIdentifier.
  repeat case_match; done.
Qed.

Lemma significant_kinds tokens :
  map kind (significant tokens) = List.filter isSignificant (map kind tokens).
Proof.
  unfold significant. induction tokens as [|token tokens IH]; [done|].
  cbn. destruct (isSignificant (kind token)); cbn; by rewrite IH.
Qed.

Lemma same_kinds tokens tokens' :
  map kind tokens = map kind tokens' ->
  Forall2 (fun t t' => kind t = kind t') tokens tokens'.
Proof.
  revert tokens'. induction tokens as [|token tokens IH];
    intros [|token' tokens']; try done.
  cbn. intros [= Hkind Hkinds]. constructor; [done | by apply IH].
Qed.

Lemma verdict_failed failure artifacts :
  verdict (failed failure artifacts) = inr (failureType failure).
Proof. done. Qed.

Lemma eraseFailure_type failure failure' :
  eraseFailure failure = eraseFailure failure' ->
  failureType failure = failureType failure'.
Proof. unfold eraseFailure. by intros [= -> _]. Qed.

(** Two sources with the same significant tokens compile to the same
    bytecode, or fail with the same kind of error. *)
Lemma compileSource_same
  (environment : CompilationEnvironment VariableDetail CompilationData)
  (data : CompilationData) depth path current source source' tokens tokens' :
  tokenize source = inl tokens ->
  tokenize source' = inl tokens' ->
  map kind (significant tokens) = map kind (significant tokens') ->
  verdict (compileSource environment data depth path current source)
  = verdict (compileSource environment data depth path current source').
Proof.
  intros Htokens Htokens' Hkinds. destruct depth as [|depth]; [done|].
  cbn [compileSource]. rewrite Htokens, Htokens'.
  pose proof (parseTokens_same _ _ [] [] [] [] (same_kinds _ _ Hkinds)
                (List.Forall2_nil _) eq_refl) as Hparse.
  fold (parse (significant tokens)) in Hparse.
  fold (parse (significant tokens')) in Hparse.
  destruct (parse (significant tokens)) as [ast|failure],
    (parse (significant tokens')) as [ast'|failure']; try done;
    [|rewrite !verdict_failed; f_equal; by apply eraseFailure_type].
  cbn in Hparse.
  match goal with
  | |- context [resolve environment ?lookup ast] =>
      pose proof (resolve_same environment lookup
                    (resolveIdentifier_same environment data _ path current)
                    ast ast' Hparse) as Hresolve;
      destruct (resolve environment lookup ast) as [nodes|failure],
        (resolve environment lookup ast') as [nodes'|failure']; try done;
        [|rewrite !verdict_failed; f_equal; by apply eraseFailure_type]
  end.
  cbn in Hresolve. pose proof (generate_same _ _ Hresolve) as Hgenerate.
  destruct (generate nodes) as [bytecode|failure],
    (generate nodes') as [bytecode'|failure']; try done;
    [|rewrite !verdict_failed; f_equal; by apply eraseFailure_type].
  cbn in Hgenerate. by subst.
Qed.

End Compile.

End RangeFacts.

(** * Comments *)

Section CommentFacts.

Import Language.

Context {VariableDetail CompilationData : Type}.

Lemma resolve_ext
  (environment environment' : CompilationEnvironment VariableDetail CompilationData)
  lookup lookup' :
  vm environment = vm environment' ->
  (forall name at_, lookup name at_ = lookup' name at_) ->
  forall nodes,
    resolve environment lookup nodes = resolve environment' lookup' nodes.
Proof.
  intros Hvm Hlookup.
  assert (Hnode : forall node,
             resolveNode environment lookup node
             = resolveNode environment' lookup' node).
  { induction node as [literal at_|name at_|children at_ IH|children at_ IH]
      using ASTNode_nested_ind.
    - done.
    - apply Hlookup.
    - rewrite !resolveNode_push. f_equal.
      induction IH as [|child children Hchild _ IHchildren]; [done|].
      cbn [resolve]. by rewrite Hchild, IHchildren.
    - rewrite !resolveNode_evaluation. rewrite <- Hvm. f_equal.
      induction IH as [|child children Hchild _ IHchildren]; [done|].
      cbn [resolve]. by rewrite Hchild, IHchildren. }
  induction nodes as [|node nodes IH]; [done|].
  cbn [resolve]. by rewrite Hnode, IH.
Qed.

Variable environment : CompilationEnvironment VariableDetail CompilationData.
Variable data : CompilationData.
Variables scriptId replacement : string.

(** No operation of the environment tells the replaced source from the
    original one. *)
Hypothesis operations_blind : forall capability operation definition,
  operations environment capability = Some operation ->
  operation definition data (maps (withScript environment scriptId replacement))
  = operation definition data (maps environment).

Hypothesis script_known : is_Some (scripts (maps environment) !! scriptId).

(** While the replaced script is in progress its source is not read
    again: a reference to it is a cycle. *)
Lemma compileSource_withScript depth path current source :
  scriptId ∈ path ->
  compileSource (withScript environment scriptId replacement) data depth path
    current source
  = compileSource environment data depth path current source.
Proof.
  revert path current source.
  induction depth as [|depth IH]; intros path current source Hpath; [done|].
  cbn [compileSource].
  destruct (tokenize source) as [tokens|failure]; [|done].
  destruct (parse (significant tokens)) as [ast|failure]; [|done].
  match goal with
  | |- match resolve _ ?lookup' ast with _ => _ end
       = match resolve _ ?lookup ast with _ => _ end =>
      rewrite (resolve_ext (withScript environment scriptId replacement)
                 environment lookup' lookup eq_refl); [done|]
  end.
  intros name at_. unfold resolveIdentifier.
  cbn [withScript maps opcodes variables scripts operations].
  destruct (opcodes (maps environment) !! name); [done|].
  destruct (variables (maps environment) !! name) as [definition|].
  { destruct (operations environment (capability definition))
      as [operation|] eqn:Hoperation; [|done].
    pose proof (operations_blind _ _ definition Hoperation) as Hblind.
    cbn [withScript maps] in Hblind. by rewrite Hblind. }
  destruct (decide (name = scriptId)) as [->|Hname].
  - rewrite lookup_insert_eq. destruct script_known as [original ->].
    by rewrite bool_decide_eq_true_2.
  - rewrite lookup_insert_ne by done.
    destruct (scripts (maps environment) !! name) as [referenced|]; [|done].
    destruct (bool_decide (name ∈ path)); [done|].
    rewrite IH; [done|]. by right.
Qed.

End CommentFacts.

Section CommentInsertion.

Import Language.

Context {VariableDetail CompilationData : Type}.

Lemma returned_generateBytecode
  (environment : CompilationEnvironment VariableDetail CompilationData)
  scriptId data debug :
  returned (generateBytecode (compilerOf environment) scriptId data debug)
  = verdict (compileScript scriptId data environment).
Proof.
  cbn. destruct debug; [done|].
  by destruct (compileScript scriptId data environment).
Qed.

(** Under one environment, the source with the comment inserted compiles
    as the source without it. *)
Lemma comment_source_inert
  (environment : CompilationEnvironment VariableDetail CompilationData)
  (data : CompilationData) depth path current before after comment :
  tokenBoundary before after ->
  wellFormedComment comment = true ->
  endsInLineComment before = false \/ singleLine comment = true ->
  verdict (compileSource environment data depth path current
             (string_of_list_ascii (before ++ commentText comment ++ after)))
  = verdict (compileSource environment data depth path current
               (string_of_list_ascii (before ++ after))).
Proof.
  intros (kindsBefore & kindsAfter & Hbefore & Hafter & Hwhole) Hcomment Hside.
  assert (last kindsBefore <> Some (TComment LineStyle)
          \/ singleLine comment = true) as Hside'.
  { destruct Hside as [Hends|Hsingle]; [left|by right].
    unfold endsInLineComment in Hends. rewrite Hbefore in Hends.
    by destruct (last kindsBefore) as [[| | | | | | | |[]|]|]. }
  apply tokenKinds_Lexes in Hbefore, Hafter, Hwhole.
  destruct (Lexes_insert_comment _ _ comment _ _ Hbefore Hafter Hwhole
              Hcomment Hside') as (skipped & Hinserted & Hskipped).
  destruct (tokenize_Lexes (string_of_list_ascii (before ++ after))
              (kindsBefore ++ kindsAfter)) as (tokens & Htokens & Hkinds);
    [by rewrite list_ascii_of_string_of_list_ascii|].
  destruct (tokenize_Lexes
              (string_of_list_ascii (before ++ commentText comment ++ after))
              (kindsBefore ++ skipped ++ kindsAfter))
    as (tokens' & Htokens' & Hkinds');
    [by rewrite list_ascii_of_string_of_list_ascii|].
  apply (compileSource_same _ _ _ _ _ _ _ tokens' tokens); [done..|].
  rewrite !significant_kinds, Hkinds, Hkinds'.
  rewrite !List.filter_app. by rewrite Hskipped.
Qed.

(** C6, as amended: in a script split between two of its tokens, inserting
    a line comment with its line break, or a block comment, changes
    neither the bytecode the script compiles to nor the kind of error it
    fails with; a comment inserted at the end of a line comment must hold
    no line break before its end.  Read from right to left this is the
    removal of such a comment, the text left being split between two
    tokens where the comment stood. *)
Theorem comment_insertion_inert
  (environment : CompilationEnvironment VariableDetail CompilationData)
  (data : CompilationData) scriptId debug before after comment :
  let commented :=
    string_of_list_ascii (before ++ commentText comment ++ after) in
  scripts (maps environment) !! scriptId
  = Some (string_of_list_ascii (before ++ after)) ->
  tokenBoundary before after ->
  wellFormedComment comment = true ->
  endsInLineComment before = false \/ singleLine comment = true ->
  (forall capability operation definition,
      operations environment capability = Some operation ->
      operation definition data
        (maps (withScript environment scriptId commented))
      = operation definition data (maps environment)) ->
  returned
    (generateBytecode (compilerOf (withScript environment scriptId commented))
       scriptId data debug)
  = returned (generateBytecode (compilerOf environment) scriptId data debug).
Proof.
  intros commented Hsource Hboundary Hcomment Hside Hoperations.
  rewrite !returned_generateBytecode. unfold compileScript.
  rewrite Hsource. cbn [withScript maps scripts].
  rewrite lookup_insert_eq.
  rewrite (map_size_insert_Some _ _ _ (mk_is_Some _ _ Hsource)).
  pose proof (compileSource_withScript environment data scriptId commented
                Hoperations (mk_is_Some _ _ Hsource)) as Hreplaced.
  cbn [withScript] in Hreplaced. rewrite Hreplaced by (by left).
  by apply comment_source_inert.
Qed.

End CommentInsertion.

(** * Script references *)

Section ReferenceFacts.

Import Language.

Context {VariableDetail CompilationData : Type}.
Variable environment : CompilationEnvironment VariableDetail CompilationData.
Variable data : CompilationData.

(** A depth above the number of scripts not yet on the resolution path is
    never exhausted: the result does not depend on it. *)
Lemma compileSource_depth depth depth' path current source :
  (size (unvisited environment path) < depth)%nat ->
  (size (unvisited environment path) < depth')%nat ->
  compileSource environment data depth path current source
  = compileSource environment data depth' path current source.
Proof.
  revert depth' path current source.
  induction depth as [|depth IH];
    intros [|depth'] path current source Hdepth Hdepth'; try lia.
  cbn [compileSource].
  destruct (tokenize source) as [tokens|failure]; [|done].
  destruct (parse (significant tokens)) as [ast|failure]; [|done].
  match goal with
  | |- match resolve _ ?lookup ast with _ => _ end
       = match resolve _ ?lookup' ast with _ => _ end =>
      rewrite (resolve_ext environment environment lookup lookup' eq_refl);
        [done|]
  end.
  intros name at_. unfold resolveIdentifier.
  destruct (opcodes (maps environment) !! name); [done|].
  destruct (variables (maps environment) !! name); [done|].
  destruct (scripts (maps environment) !! name) as [referenced|] eqn:Hname;
    [|done].
  destruct (bool_decide (name ∈ path)) eqn:Hpath; [done|].
  apply bool_decide_eq_false in Hpath.
  assert (size (unvisited environment (name :: path)) < size (unvisited environment path))%nat
    as Hsmaller.
  { apply subset_size. unfold unvisited.
    assert (name ∈ dom (scripts (maps environment)))
      by (apply elem_of_dom; by exists referenced).
    cbn [list_to_set]. split; [set_solver|].
    intros Hsubset. specialize (Hsubset name). set_solver. }
  rewrite (IH depth' (name :: path) name referenced); [done|lia..].
Qed.

(** [compileScript] gives every compilation enough depth. *)
Lemma compileScript_depth scriptId source depth :
  scripts (maps environment) !! scriptId = Some source ->
  (size (scripts (maps environment)) < depth)%nat ->
  compileSource environment data depth [scriptId] scriptId source
  = compileScript scriptId data environment.
Proof.
  intros Hsource Hdepth. unfold compileScript. rewrite Hsource.
  assert (size (unvisited environment [scriptId]) <= size (scripts (maps environment)))%nat.
  { rewrite <- size_dom. apply subseteq_size. unfold unvisited. set_solver. }
  apply compileSource_depth; lia.
Qed.

End ReferenceFacts.

(** * Script numbers *)

Section ScriptNumberFacts.

Import Language.

Lemma littleEndianValue_app bytes bytes' :
  littleEndianValue (bytes ++ bytes')
  = littleEndianValue bytes
    + 256 ^ Z.of_nat (List.length bytes) * littleEndianValue bytes'.
Proof.
  induction bytes as [|byte bytes IH]; [cbn [app littleEndianValue List.length]; lia|].
  cbn [app littleEndianValue List.length]. rewrite IH.
  rewrite Nat2Z.inj_succ, Z.pow_succ_r by lia. lia.
Qed.

(** The magnitude bytes hold the magnitude, each byte in range, the last
    one not zero. *)
Lemma magnitudeBytes_spec steps n :
  0 <= n < 2 ^ Z.of_nat steps ->
  littleEndianValue (magnitudeBytes steps n) = n
  /\ Forall (fun byte => 0 <= byte < 256) (magnitudeBytes steps n)
  /\ (forall top, last (magnitudeBytes steps n) = Some top -> 0 < top)
  /\ (n <> 0 -> magnitudeBytes steps n <> []).
Proof.
  revert n. induction steps as [|steps IH]; intros n Hn.
  - cbn in *. repeat split; try done; lia.
  - cbn [magnitudeBytes]. destruct (Z.eqb_spec n 0) as [->|Hnonzero];
      [repeat split; done|].
    rewrite Nat2Z.inj_succ, Z.pow_succ_r in Hn by lia.
    assert (0 <= n / 256 < 2 ^ Z.of_nat steps) as Hquotient.
    { split; [apply Z.div_pos; lia|].
      apply Z.div_lt_upper_bound; lia. }
    destruct (IH _ Hquotient) as (Hvalue & Hbytes & Hlast & Hnonempty).
    pose proof (Z.mod_pos_bound n 256 ltac:(lia)) as Hmod.
    repeat split; try done.
    + cbn [littleEndianValue]. rewrite Hvalue.
      pose proof (Z.div_mod n 256 ltac:(lia)). lia.
    + by constructor.
    + intros top.
      destruct (magnitudeBytes steps (n / 256)) as [|next rest] eqn:Hrest.
      * cbn. intros [= <-]. cbn in Hvalue.
        pose proof (Z.div_mod n 256 ltac:(lia)). lia.
      * rewrite last_cons_cons. apply Hlast.
Qed.

Lemma magnitude_bound v :
  0 <= Z.abs v < 2 ^ Z.of_nat (S (Z.to_nat (Z.log2 (Z.abs v)))).
Proof.
  split; [lia|]. rewrite Nat2Z.inj_succ, Z2Nat.id by apply Z.log2_nonneg.
  destruct (Z.eq_dec (Z.abs v) 0) as [->|Hnonzero]; [done|].
  apply Z.log2_spec. lia.
Qed.

(** Decoding the script number of an integer gives the integer back. *)
Lemma scriptNumber_roundtrip v :
  scriptNumberToBigInt (bigIntToScriptNumber v) = v.
Proof.
  unfold bigIntToScriptNumber.
  destruct (magnitudeBytes_spec _ _ (magnitude_bound v))
    as (Hvalue & Hbytes & Hlast & Hnonempty).
  destruct (last (magnitudeBytes _ (Z.abs v))) as [top|] eqn:Htop.
  - specialize (Hlast top eq_refl).
    apply last_Some in Htop as [lower Hmagnitude].
    rewrite Hmagnitude in *. rewrite littleEndianValue_app in Hvalue.
    cbn [littleEndianValue] in Hvalue.
    rewrite Z.mul_0_r, Z.add_0_r in Hvalue.
    set (weight := 256 ^ Z.of_nat (List.length lower)) in *.
    destruct (Z.leb_spec 128 top) as [Hhigh|Hlow].
    + unfold scriptNumberToBigInt. rewrite last_snoc.
      destruct (Z.ltb_spec v 0) as [Hnegative|Hpositive].
      * destruct (Z.leb_spec 128 128); [|lia].
        rewrite !littleEndianValue_app, !length_app.
        cbn [littleEndianValue List.length].
        replace (List.length lower + 1 + 1 - 1)%nat
          with (List.length lower + 1)%nat by lia.
        fold weight. rewrite Z.mul_0_r, !Z.add_0_r. lia.
      * destruct (Z.leb_spec 128 0); [lia|].
        rewrite !littleEndianValue_app. cbn [littleEndianValue].
        fold weight. rewrite Z.mul_0_r, !Z.add_0_r. lia.
    + destruct (Z.ltb_spec v 0) as [Hnegative|Hpositive].
      * rewrite removelast_last. unfold scriptNumberToBigInt.
        rewrite last_snoc. destruct (Z.leb_spec 128 (top + 128)); [|lia].
        rewrite littleEndianValue_app, length_app.
        cbn [littleEndianValue List.length].
        replace (List.length lower + 1 - 1)%nat with (List.length lower) by lia.
        fold weight. rewrite Z.mul_0_r, !Z.add_0_r. lia.
      * unfold scriptNumberToBigInt. rewrite last_snoc.
        destruct (Z.leb_spec 128 top); [lia|].
        rewrite littleEndianValue_app. cbn [littleEndianValue].
        fold weight. rewrite Z.mul_0_r, !Z.add_0_r. lia.
  - apply last_None in Htop. destruct (Z.eq_dec v 0) as [->|Hnonzero]; [done|].
    destruct Hnonempty; [lia | done].
Qed.

Lemma bigIntToScriptNumber_inj v w :
  bigIntToScriptNumber v = bigIntToScriptNumber w -> v = w.
Proof.
  intros Hsame. by rewrite <- (scriptNumber_roundtrip v), Hsame,
    scriptNumber_roundtrip.
Qed.

Lemma littleEndianValue_nonneg bytes :
  Forall (fun byte => 0 <= byte < 256) bytes -> 0 <= littleEndianValue bytes.
Proof.
  induction 1 as [|byte bytes Hbyte _ IH]; cbn [littleEndianValue]; lia.
Qed.

(** An integer below [2 ^ (8 k - 1)] in magnitude has a script number of at
    most [k] bytes. *)
Lemma bigIntToScriptNumber_length v (k : nat) :
  Z.abs v < 2 ^ (8 * Z.of_nat k - 1) ->
  (List.length (bigIntToScriptNumber v) <= k)%nat.
Proof.
  intros Hv. unfold bigIntToScriptNumber.
  destruct (magnitudeBytes_spec _ _ (magnitude_bound v))
    as (Hvalue & Hbytes & Hlast & Hnonempty).
  destruct (last (magnitudeBytes _ (Z.abs v))) as [top|] eqn:Htop;
    [|cbn; lia].
  specialize (Hlast top eq_refl).
  apply last_Some in Htop as [lower Hmagnitude].
  rewrite Hmagnitude in *. rewrite littleEndianValue_app in Hvalue.
  cbn [littleEndianValue] in Hvalue. rewrite Z.mul_0_r, Z.add_0_r in Hvalue.
  apply Forall_app in Hbytes as [Hlower _].
  pose proof (littleEndianValue_nonneg _ Hlower) as Hnonneg.
  assert (Hweight : 256 ^ Z.of_nat (List.length lower)
                    = 2 ^ (8 * Z.of_nat (List.length lower))).
  { change 256 with (2 ^ 8). rewrite <- Z.pow_mul_r by lia. done. }
  rewrite Hweight in Hvalue.
  set (n := Z.of_nat (List.length lower)) in *.
  assert (0 < 2 ^ (8 * n)) as Hpositive by (apply Z.pow_pos_nonneg; lia).
  destruct (Z.leb_spec 128 top) as [Hhigh|Hlow].
  - assert (2 ^ (8 * n + 7) < 2 ^ (8 * Z.of_nat k - 1)) as Hpowers.
    { rewrite Z.pow_add_r by lia. change (2 ^ 7) with 128. nia. }
    apply Z.pow_lt_mono_r_iff in Hpowers; [|lia|].
    + rewrite !length_app. cbn [List.length]. lia.
    + destruct k; [|lia]. cbn in Hv. lia.
  - assert (2 ^ (8 * n) < 2 ^ (8 * Z.of_nat k - 1)) as Hpowers by nia.
    assert (0 <= 8 * Z.of_nat k - 1) as Hk.
    { destruct k; [|lia]. cbn in Hv. lia. }
    apply Z.pow_lt_mono_r_iff in Hpowers; [|lia|done].
    destruct (v <? 0).
    + rewrite removelast_last, length_app. cbn [List.length]. lia.
    + rewrite length_app. cbn [List.length]. lia.
Qed.

End ScriptNumberFacts.

(** * Integer literals *)

Section IntegerFacts.

Import Language.

Lemma list_ascii_of_string_app s t :
  list_ascii_of_string (s ++ t)
  = (list_ascii_of_string s ++ list_ascii_of_string t)%list.
Proof.
  induction s as [|c s IH]; [done|].
  change (list_ascii_of_string (String c s ++ t))
    with (c :: list_ascii_of_string (s ++ t)).
  by rewrite IH.
Qed.

Lemma uintChars_digits d : forallb isDigit (uintChars d) = true.
Proof. unfold uintChars. induction d; cbn; done. Qed.

Lemma decimalValue_acc d (acc : positive) :
  fold_left (fun acc c => 10 * acc + digitValue c) (uintChars d) (Z.pos acc)
  = Z.pos (Pos.of_uint_acc d acc).
Proof.
  unfold uintChars. revert acc.
  induction d as [|d IH|d IH|d IH|d IH|d IH|d IH|d IH|d IH|d IH|d IH];
    intros acc; [done|..];
    cbn [NilEmpty.string_of_uint list_ascii_of_string fold_left Pos.of_uint_acc];
    rewrite <- IH; f_equal; unfold digitValue;
    match goal with
    | |- context [Z.of_nat (nat_of_ascii ?c) - 48] =>
        let v := eval vm_compute in (Z.of_nat (nat_of_ascii c) - 48) in
        change (Z.of_nat (nat_of_ascii c) - 48) with v
    end; lia.
Qed.

Lemma decimalValue_uint d :
  decimalValue (uintChars d) = Z.of_N (Pos.of_uint d).
Proof.
  unfold decimalValue, uintChars.
  induction d as [|d IH|d IH|d IH|d IH|d IH|d IH|d IH|d IH|d IH|d IH];
    [done|exact IH|..];
    cbn [NilEmpty.string_of_uint list_ascii_of_string fold_left Pos.of_uint
           Z.of_N];
    rewrite <- decimalValue_acc; reflexivity.
Qed.

Lemma decimalValue_positive p :
  decimalValue (uintChars (Pos.to_uint p)) = Z.pos p.
Proof. by rewrite decimalValue_uint, DecimalPos.Unsigned.of_to. Qed.

Lemma uintChars_nonempty d : d <> Decimal.Nil -> uintChars d <> [].
Proof. unfold uintChars. by destruct d. Qed.

Lemma decimal_chars v :
  list_ascii_of_string (decimal v)
  = match v with
    | Z0 => ["0"%char]
    | Z.pos p => uintChars (Pos.to_uint p)
    | Z.neg p => "-"%char :: uintChars (Pos.to_uint p)
    end.
Proof.
  unfold decimal. destruct v as [|p|p]; [done|..]; cbn;
    pose proof (DecimalPos.Unsigned.to_uint_nonnil p);
    unfold uintChars; by destruct (Pos.to_uint p).
Qed.

Lemma digit_not_x c : isDigit c = true -> (c =? "x")%char = false.
Proof. by destruct c as [[] [] [] [] [] [] [] []]. Qed.

(** A run of digits followed by a character that can not continue it is
    one integer token. *)
Lemma scan_digits digits c x :
  digits <> [] ->
  forallb isDigit digits = true ->
  isDigit c = false ->
  (c =? "x")%char = false ->
  scan (digits ++ c :: x) = ScanToken (TInteger (decimalValue digits)) (c :: x).
Proof.
  intros Hnonempty Hdigits Hc Hx.
  assert (Hinteger : scanInteger false (digits ++ c :: x)
                     = ScanToken (TInteger (decimalValue digits)) (c :: x)).
  { unfold scanInteger. by rewrite (span_all isDigit digits c x Hdigits Hc). }
  destruct digits as [|d digits]; [done|].
  cbn [forallb] in Hdigits. apply andb_true_iff in Hdigits as [Hd Hdigits].
  rewrite <- Hinteger. cbn [app].
  assert (Hnext : match digits ++ c :: x with
                  | next :: _ => (next =? "x")%char = false
                  | [] => True
                  end).
  { destruct digits as [|next digits]; [done|].
    cbn in Hdigits. apply andb_true_iff in Hdigits as [Hnext _].
    by apply digit_not_x. }
  destruct (digits ++ c :: x) as [|next rest];
    [by destruct d as [[] [] [] [] [] [] [] []]|].
  unfold scan. rewrite Hnext, andb_false_r.
  by destruct d as [[] [] [] [] [] [] [] []].
Qed.

Lemma scan_negative digits c x :
  digits <> [] ->
  forallb isDigit digits = true ->
  isDigit c = false ->
  scan ("-"%char :: digits ++ c :: x)
  = ScanToken (TInteger (- decimalValue digits)) (c :: x).
Proof.
  intros Hnonempty Hdigits Hc.
  destruct digits as [|d digits]; [done|].
  unfold scan. cbn [app]. cbn [forallb] in Hdigits.
  apply andb_true_iff in Hdigits as [Hd Hdigits]. cbn. rewrite Hd.
  unfold scanInteger.
  change (d :: digits ++ c :: x) with ((d :: digits) ++ c :: x).
  rewrite (span_all isDigit (d :: digits) c x); [done| |done].
  cbn. by rewrite Hd.
Qed.

(** The numeral of an integer is read back as that integer. *)
Lemma scan_decimal v x :
  scan (list_ascii_of_string (decimal v) ++ ">"%char :: x)
  = ScanToken (TInteger v) (">"%char :: x).
Proof.
  rewrite decimal_chars. destruct v as [|p|p].
  - done.
  - rewrite scan_digits; try done.
    + by rewrite decimalValue_positive.
    + apply uintChars_nonempty, DecimalPos.Unsigned.to_uint_nonnil.
    + apply uintChars_digits.
  - cbn [app]. rewrite scan_negative; try done.
    + by rewrite decimalValue_positive.
    + apply uintChars_nonempty, DecimalPos.Unsigned.to_uint_nonnil.
    + apply uintChars_digits.
Qed.

Local Open Scope string_scope.

Lemma Lexes_integer_push v :
  Lexes (list_ascii_of_string ("<" ++ decimal v ++ ">"))
    [TPushOpen; TInteger v; TPushClose].
Proof.
  rewrite !list_ascii_of_string_app.
  apply LexesToken with (list_ascii_of_string (decimal v) ++ [">"%char])%list;
    [done|].
  apply LexesToken with [">"%char]; [apply scan_decimal|].
  apply LexesToken with []; [done | constructor].
Qed.

End IntegerFacts.

Section IntegerPush.

Import Language.

Context {VariableDetail CompilationData : Type}.

Local Open Scope string_scope.

Lemma generateBytecode_success
  (environment : CompilationEnvironment VariableDetail CompilationData)
  scriptId data bytecode :
  verdict (compileScript scriptId data environment) = inl bytecode ->
  generateBytecode (compilerOf environment) scriptId data false
  = BytecodeResult bytecode.
Proof.
  cbn. destruct (compileScript scriptId data environment); [|done].
  by intros [= ->].
Qed.

(** The script [<v>] compiles to the minimal push of the script number of
    [v]. *)
Lemma compileSource_integer_push
  (environment : CompilationEnvironment VariableDetail CompilationData)
  (data : CompilationData) depth path current v :
  verdict (compileSource environment data (S depth) path current
             ("<" ++ decimal v ++ ">"))
  = match encodeDataPush (bigIntToScriptNumber v) with
    | Some bytes => inl bytes
    | None => inr EncodingError
    end.
Proof.
  destruct (tokenize_Lexes _ _ (Lexes_integer_push v))
    as (tokens & Htokens & Hkinds).
  destruct tokens as [|[k1 r1] [|[k2 r2] [|[k3 r3] [|]]]]; try discriminate.
  injection Hkinds as -> -> ->.
  cbn [compileSource]. rewrite Htokens.
  cbn -[bigIntToScriptNumber encodeDataPush].
  rewrite app_nil_r.
  destruct (encodeDataPush (bigIntToScriptNumber v)); cbn; [|done].
  by rewrite app_nil_r.
Qed.

Lemma smallIntegerOpcode_none v :
  v < -1 \/ 16 < v -> smallIntegerOpcode (bigIntToScriptNumber v) = None.
Proof.
  intros Hv. unfold smallIntegerOpcode.
  destruct (List.find _ smallIntegers) as [w|] eqn:Hfind; [|done].
  apply find_some in Hfind as [Hw Hsame].
  apply bool_decide_eq_true_1, bigIntToScriptNumber_inj in Hsame. subst w.
  exfalso. revert Hw. unfold smallIntegers. cbn.
  intros Hw. repeat (destruct Hw as [Hw|Hw]; [lia|]). done.
Qed.

Lemma encodeDataPush_small v :
  -1 <= v <= 16 ->
  encodeDataPush (bigIntToScriptNumber v) = Some [smallIntegerPush v].
Proof.
  intros Hv. replace v with (Z.of_nat (Z.to_nat (v + 1)) - 1) by lia.
  assert (Z.to_nat (v + 1) < 18)%nat as Hsmall by lia.
  generalize dependent (Z.to_nat (v + 1)). intros n Hsmall.
  do 18 (destruct n as [|n]; [vm_compute; reflexivity|]). lia.
Qed.

Lemma bigIntToScriptNumber_nonempty v : v <> 0 -> bigIntToScriptNumber v <> [].
Proof.
  intros Hv Hempty. apply Hv.
  by rewrite <- (scriptNumber_roundtrip v), Hempty.
Qed.

Lemma encodeDataPush_integer v :
  v < -1 \/ 16 < v ->
  (List.length (bigIntToScriptNumber v) <= 75)%nat ->
  encodeDataPush (bigIntToScriptNumber v)
  = Some (Z.of_nat (List.length (bigIntToScriptNumber v))
          :: bigIntToScriptNumber v).
Proof.
  intros Hv Hlength. unfold encodeDataPush.
  rewrite (smallIntegerOpcode_none v Hv).
  pose proof (bigIntToScriptNumber_nonempty v ltac:(lia)) as Hnonempty.
  destruct (bigIntToScriptNumber v) as [|byte bytes] eqn:Hbytes; [done|].
  destruct (Z.eqb_spec (Z.of_nat (List.length (byte :: bytes))) 0) as [Hzero|_];
    [cbn in Hzero; lia|].
  destruct (Z.leb_spec (Z.of_nat (List.length (byte :: bytes))) 75); [done|lia].
Qed.

(** C3, as amended: compiling the script [<v>] yields, for an integer [v]
    of [-1 .. 16], the single opcode byte that pushes [v], and for an
    integer outside that range and below [2 ^ 599] in magnitude, whose
    minimal script-number encoding takes at most 75 bytes, the length byte
    followed by that encoding. *)
Theorem integer_push_minimal
  (environment : CompilationEnvironment VariableDetail CompilationData)
  (data : CompilationData) scriptId v :
  scripts (maps environment) !! scriptId = Some ("<" ++ decimal v ++ ">") ->
  (-1 <= v <= 16 ->
   generateBytecode (compilerOf environment) scriptId data false
   = BytecodeResult [smallIntegerPush v])
  /\ (v < -1 \/ 16 < v ->
      Z.abs v < 2 ^ 599 ->
      generateBytecode (compilerOf environment) scriptId data false
      = BytecodeResult
          (Z.of_nat (List.length (bigIntToScriptNumber v))
           :: bigIntToScriptNumber v)).
Proof.
  intros Hsource.
  assert (Hverdict : verdict (compileScript scriptId data environment)
                     = match encodeDataPush (bigIntToScriptNumber v) with
                       | Some bytes => inl bytes
                       | None => inr EncodingError
                       end).
  { unfold compileScript. rewrite Hsource. apply compileSource_integer_push. }
  split.
  - intros Hv. apply generateBytecode_success.
    by rewrite Hverdict, encodeDataPush_small.
  - intros Hv Hmagnitude. apply generateBytecode_success.
    rewrite Hverdict, encodeDataPush_integer; [done..|].
    by apply bigIntToScriptNumber_length.
Qed.

End IntegerPush.

Section IntegerExamples.

Import Language.

Local Open Scope string_scope.

(** The scripts [<7>] and [<17>] of the end-to-end tests. *)
Lemma integer_push_minimal_witness :
  generateBytecode (compilerOf (testEnvironment "<7>")) "test" tt false
  = BytecodeResult [0x57]
  /\ generateBytecode (compilerOf (testEnvironment "<17>")) "test" tt false
     = BytecodeResult [0x01; 0x11].
Proof.
  split.
  - apply (integer_push_minimal (testEnvironment "<7>") tt "test" 7);
      [reflexivity | lia].
  - apply (integer_push_minimal (testEnvironment "<17>") tt "test" 17);
      [reflexivity | lia | by vm_compute].
Defined.

(** C3, as stated, fails for large integers: the script number of
    [2 ^ 599] takes 76 bytes, and the script [<v>] compiles to the
    one-byte-length prefix opcode, the length, and the encoding, which is
    no length byte followed by the encoding. *)
Lemma integer_push_counterexample :
  let v := 2 ^ 599 in
  let compiled :=
    generateBytecode
      (compilerOf (testEnvironment ("<" ++ decimal v ++ ">"))) "test" tt false in
  (v < -1 \/ 16 < v)
  /\ compiled = BytecodeResult (0x4c :: 76 :: bigIntToScriptNumber v)
  /\ forall N, compiled <> BytecodeResult (N :: bigIntToScriptNumber v).
Proof.
  intros v compiled.
  assert (Hcompiled :
            compiled = BytecodeResult (0x4c :: 76 :: bigIntToScriptNumber v))
    by (vm_compute; reflexivity).
  split; [right; by vm_compute|]. split; [exact Hcompiled|].
  intros N. rewrite Hcompiled.
  generalize (bigIntToScriptNumber v). intros bytes [= _ Hbytes].
  apply (f_equal (@List.length Z)) in Hbytes. cbn [List.length] in Hbytes. lia.
Qed.

End IntegerExamples.

Section CommentExamples.

Import Language.

Local Open Scope string_scope.

(** A block comment inserted between the two pushes of [<1> <2>]. *)
Lemma comment_insertion_inert_witness :
  returned
    (generateBytecode (compilerOf (testEnvironment "<1>/* one */ <2>")) "test"
       tt false)
  = returned
      (generateBytecode (compilerOf (testEnvironment "<1> <2>")) "test" tt false).
Proof.
  apply (comment_insertion_inert (testEnvironment "<1> <2>") tt "test" false
           (list_ascii_of_string "<1>") (list_ascii_of_string " <2>")
           (BlockComment (list_ascii_of_string " one "))).
  - reflexivity.
  - eexists _, _. repeat split; vm_compute; reflexivity.
  - reflexivity.
  - left. reflexivity.
  - intros capability operation definition Hoperation. discriminate Hoperation.
Defined.

(** C6, as stated, fails.  Removal: in [1/**/2] the block comment stands
    between the tokens [1] and [2], and the script compiles to the bytes
    [01 02]; with the comment removed the script is [12], which compiles
    to the byte [0c].  Insertion: in the two-line script [//x], [1] a block
    comment holding a line break, inserted between the line comment and
    the line break that follows it, is cut by the line comment, and the
    script no longer compiles. *)
Lemma comment_removal_counterexample :
  let compiled source :=
    generateBytecode (compilerOf (testEnvironment source)) "test" tt false in
  let newline := [ascii_of_nat 10] in
  let lines := (list_ascii_of_string "//x" ++ newline ++ ["1"%char])%list in
  let inserted :=
    (list_ascii_of_string "//x" ++ commentText (BlockComment newline)
     ++ newline ++ ["1"%char])%list in
  (tokenKinds (list_ascii_of_string "1/**/2")
   = Some [TInteger 1; TComment BlockStyle; TInteger 2]
   /\ compiled "1/**/2" = BytecodeResult [0x01; 0x02]
   /\ compiled "12" = BytecodeResult [0x0c]
   /\ compiled "1/**/2" <> compiled "12")
  /\ (tokenKinds lines = Some [TComment LineStyle; TWhitespace; TInteger 1]
      /\ wellFormedComment (BlockComment newline) = true
      /\ returned (compiled (string_of_list_ascii lines)) = inl [0x01]
      /\ returned (compiled (string_of_list_ascii inserted)) = inr LexError).
Proof.
  repeat split; try (vm_compute; reflexivity). by vm_compute.
Qed.

(** An operation may read the environment it is given, and with it the
    text of the scripts: here the variable [size] resolves to the length
    of the script under test, which a comment changes. *)
Lemma operation_reading_source :
  let sizeOf (_ : VariableDefinition unit) (_ : unit)
    (maps : EnvironmentMaps unit) : OperationResult :=
    match scripts maps !! "test" with
    | Some source => OperationBytes [Z.of_nat (String.length source)]
    | None => OperationFailure "no script"
    end in
  let environment source : CompilationEnvironment unit unit :=
    {| maps :=
         {| opcodes := ∅;
            variables := {[ "size" := {| capability := WalletData; detail := tt |} ]};
            scripts := {[ "test" := source ]};
            entityOwnership := ∅ |};
       operations := fun _ => Some sizeOf;
       vm := fun _ => None |} in
  generateBytecode (compilerOf (environment "size")) "test" tt false
  = BytecodeResult [4]
  /\ generateBytecode (compilerOf (environment "size/**/")) "test" tt false
     = BytecodeResult [8].
Proof. split; vm_compute; reflexivity. Qed.

End CommentExamples.

(** * Pushes *)

Section PushFacts.

Import Language.

Context {VariableDetail CompilationData : Type}.

Local Open Scope string_scope.

(** C4: a script whose source is [<0x00>] compiles to the two bytes
    [0x01 0x00]: the single zero byte is pushed with its length prefix,
    neither as the empty push nor as a small integer. *)
Theorem zero_byte_push_not_minimized
  (environment : CompilationEnvironment VariableDetail CompilationData)
  (data : CompilationData) scriptId :
  scripts (maps environment) !! scriptId = Some "<0x00>" ->
  generateBytecode (compilerOf environment) scriptId data false
  = BytecodeResult [0x01; 0x00].
Proof.
  intros Hsource. cbn [compilerOf createCompiler generateBytecode].
  unfold compileScript. rewrite Hsource. reflexivity.
Qed.

(** C5: a script whose source is [<<<<1>>>>] compiles to the bytes
    [03 02 01 51]: the innermost push of 1 is the small-integer opcode, and
    every push is the minimal push of the bytes generated, before it, for
    its children. *)
Theorem nested_pushes_minimized
  (environment : CompilationEnvironment VariableDetail CompilationData)
  (data : CompilationData) scriptId :
  scripts (maps environment) !! scriptId = Some "<<<<1>>>>" ->
  generateBytecode (compilerOf environment) scriptId data false
  = BytecodeResult [0x03; 0x02; 0x01; 0x51]
  /\ forall children at_ content bytes,
      generate children = inl content ->
      encodeDataPush content = Some bytes ->
      generateNode (ResolvedPush children at_) = inl bytes.
Proof.
  intros Hsource. split.
  - cbn [compilerOf createCompiler generateBytecode].
    unfold compileScript. rewrite Hsource. reflexivity.
  - intros children at_ content bytes Hcontent Hbytes.
    rewrite generateNode_push, Hcontent. cbn. by rewrite Hbytes.
Qed.

End PushFacts.

Section Examples.

Import Language.

Local Open Scope string_scope.

Lemma zero_byte_push_not_minimized_witness :
  generateBytecode (compilerOf (testEnvironment "<0x00>")) "test" tt false
  = BytecodeResult [0x01; 0x00].
Proof.
  apply (zero_byte_push_not_minimized (testEnvironment "<0x00>") tt "test").
  reflexivity.
Defined.

Lemma nested_pushes_minimized_witness :
  generateBytecode (compilerOf (testEnvironment "<<<<1>>>>")) "test" tt false
  = BytecodeResult [0x03; 0x02; 0x01; 0x51].
Proof.
  apply (nested_pushes_minimized (testEnvironment "<<<<1>>>>") tt "test").
  reflexivity.
Defined.

End Examples.

Section TemplateExamples.

Local Open Scope string_scope.

(** Two entities defining [key]: the later one, [bob], wins. *)
Lemma later_entity_wins_witness :
  let template : AuthenticationTemplate nat unit unit :=
    {| entities :=
         [ ("alice", {| variables := Some [("key", 1%nat)] |});
           ("bob", {| variables := Some [("key", 2%nat)] |}) ];
       scripts := [] |} in
  let derived := authenticationTemplateToCompilationEnvironment template in
  env_variables derived !! "key" = Some 2%nat
  /\ env_entityOwnership derived !! "key" = Some "bob".
Proof.
  intros template.
  apply (later_entity_wins template []
           "alice" {| variables := Some [("key", 1%nat)] |} []
           "bob" {| variables := Some [("key", 2%nat)] |} []
           [("key", 1%nat)] [("key", 2%nat)] "key" 1%nat 2%nat);
    try reflexivity.
  - apply NoDup_singleton.
  - apply list_elem_of_here.
  - apply list_elem_of_here.
  - constructor.
Defined.

(** An unlocking script declaring [unlocks], and holding [timeLockType]
    as [undefined]. *)
Lemma tag_maps_exactly_declared_witness :
  let template : AuthenticationTemplate unit unit unit :=
    {| entities := [];
       scripts :=
         [ ("lock", {| script := "OP_1"; unlocks := Js.Missing;
                       timeLockType := Js.Missing;
                       lockingType := Js.Defined tt |});
           ("unlock", {| script := "OP_0"; unlocks := Js.Defined "lock";
                         timeLockType := Js.Undefined;
                         lockingType := Js.Missing |}) ] |} in
  let derived := authenticationTemplateToCompilationEnvironment template in
  env_unlockingScripts derived !! "unlock" = Some "lock"
  /\ env_lockingScriptTypes derived !! "lock" = Some tt.
Proof.
  intros template. split.
  - destruct (tag_maps_exactly_declared template "unlock") as (Hunlocks & _).
    + vm_compute. repeat constructor; set_solver.
    + apply Hunlocks. eexists. split.
      * apply list_elem_of_further, list_elem_of_here.
      * reflexivity.
  - destruct (tag_maps_exactly_declared template "lock") as (_ & Hlocking & _).
    + vm_compute. repeat constructor; set_solver.
    + apply Hlocking. eexists. split.
      * apply list_elem_of_here.
      * reflexivity.
Defined.

End TemplateExamples.

(** * The end-to-end tests of [compiler.e2e.langauge.spec.ts] *)

Section EndToEnd.

Import Language.

Local Open Scope string_scope.

(** The pipeline gives the bytecode each test of the file expects; the
    test [complex script] needs the VM and is left out. *)
Lemma language_tests :
  compileTest "" = inl []
  /\ compileTest "42 -42 2147483647 -2147483647"
     = inl [0x2a; 0xaa; 0xff; 0xff; 0xff; 0x7f; 0xff; 0xff; 0xff; 0xff]
  /\ compileTest ("'abc" ++ doubleQuote ++ "`👍'")
     = inl [0x61; 0x62; 0x63; 0x22; 0x60; 0xf0; 0x9f; 0x91; 0x8d]
  /\ compileTest (doubleQuote ++ "abc'`👍" ++ doubleQuote)
     = inl [0x61; 0x62; 0x63; 0x27; 0x60; 0xf0; 0x9f; 0x91; 0x8d]
  /\ compileTest "0xdeadbeef" = inl [0xde; 0xad; 0xbe; 0xef]
  /\ compileTest "OP_0 OP_1 OP_ADD" = inl [0x00; 0x51; 0x93]
  /\ compileTest ("// a comment" ++ newline ++ "  0xab" ++ newline
               ++ "  // another comment" ++ newline ++ "  0xcd" ++ newline
               ++ "  /**" ++ newline ++ "   * A third, multi-line" ++ newline
               ++ "   * comment" ++ newline ++ "   */" ++ newline
               ++ "  0xef" ++ newline ++ "  ")
     = inl [0xab; 0xcd; 0xef]
  /\ compileTest "<>" = inl [0x00]
  /\ compileTest "< -1 > <0> <1> <2> <3> <4> <5> <6> <7> <8> <9> <10> <11> <12> <13> <14> <15> <16> <17>"
     = inl [0x4f; 0x00; 0x51; 0x52; 0x53; 0x54; 0x55; 0x56; 0x57; 0x58; 0x59;
            0x5a; 0x5b; 0x5c; 0x5d; 0x5e; 0x5f; 0x60; 0x01; 0x11]
  /\ compileTest "<0x81> <> <0x01> <0x02> <0x03> <0x04> <0x05> <0x06> <0x07> <0x08> <0x09> <0x0a> <0x0b> <0x0c> <0x0d> <0x0e> <0x0f> <0x10> <0x11>"
     = inl [0x4f; 0x00; 0x51; 0x52; 0x53; 0x54; 0x55; 0x56; 0x57; 0x58; 0x59;
            0x5a; 0x5b; 0x5c; 0x5d; 0x5e; 0x5f; 0x60; 0x01; 0x11]
  /\ compileTest "<0x00>" = inl [0x01; 0x00]
  /\ compileTest ("<" ++ doubleQuote ++ "abc" ++ doubleQuote ++ ">")
     = inl [0x03; 0x61; 0x62; 0x63]
  /\ compileTest "<OP_0> <OP_1> <OP_2>" = inl [0x01; 0x00; 0x01; 0x51; 0x01; 0x52]
  /\ compileTest "<<<<1>>>>" = inl [0x03; 0x02; 0x01; 0x51].
Proof. repeat split; vm_compute; reflexivity. Qed.

(** The failures section 8 of the spec lists. *)
Lemma language_failures :
  compileTest "unknown_name" = inr ResolutionError
  /\ compileTest "0xabc" = inr EncodingError
  /\ compileTest "<1" = inr ParseError
  /\ compileTest "'abc" = inr LexError.
Proof. repeat split; vm_compute; reflexivity. Qed.

End EndToEnd.


(** * Further properties of the compiler facade *)

Section CreateCompilerMore.

Context {CompilationData Environment ErrorType CompilationError Artifacts : Type}.

Variable compileScript :
  string -> CompilationData -> Environment ->
  CompilationResult ErrorType CompilationError Artifacts.

(** X1: the [debug] flag changes what else the returned object holds, not
    its outcome: with and without it the call reports the same [success],
    the same [bytecode], the same [errorType] and the same [errors]. *)
Theorem debug_reports_same_outcome
  (compilationEnvironment : Environment) scriptId data :
  let compiler := createCompiler compileScript compilationEnvironment in
  told (generateBytecode compiler scriptId data true)
  = told (generateBytecode compiler scriptId data false).
Proof.
  cbn. by destruct (compileScript scriptId data compilationEnvironment).
Qed.

End CreateCompilerMore.

Section CreateCompilerCommonSynchronousMore.

Context {Value CompilationData ErrorType CompilationError Artifacts : Type}.

Variables (compilerCreateStateCommon generateBytecodeMap_OpcodesCommon
  compilerOperationsCommon : Value).

Variable compileScript :
  string -> CompilationData -> gmap string Value ->
  CompilationResult ErrorType CompilationError Artifacts.

Abbreviation created scriptsAndOverrides :=
  (environment
     (createCompilerCommonSynchronous compilerCreateStateCommon
        generateBytecodeMap_OpcodesCommon compilerOperationsCommon
        compileScript scriptsAndOverrides)) (only parsing).

Abbreviation defaults :=
  (commonDefaults compilerCreateStateCommon generateBytecodeMap_OpcodesCommon
     compilerOperationsCommon) (only parsing).

Lemma commonDefaults_dom :
  dom defaults = ({[ "createState"; "opcodes"; "operations" ]} : gset string).
Proof.
  unfold commonDefaults. rewrite !dom_insert_L, dom_singleton_L. set_solver.
Qed.

(** X2: the created environment holds the properties of the argument and
    the three defaults, and no other: nothing supplied is dropped and
    nothing but [createState], [opcodes] and [operations] is added. *)
Theorem createCompilerCommonSynchronous_properties
  (scriptsAndOverrides : gmap string Value) :
  dom (environment
         (createCompilerCommonSynchronous compilerCreateStateCommon
            generateBytecodeMap_OpcodesCommon compilerOperationsCommon
            compileScript scriptsAndOverrides))
  = dom scriptsAndOverrides ∪ {[ "createState"; "opcodes"; "operations" ]}.
Proof.
  cbn. unfold Js.spread. by rewrite dom_union_L, commonDefaults_dom.
Qed.

Lemma spread_over_defaults (scriptsAndOverrides : gmap string Value) :
  is_Some (scriptsAndOverrides !! "createState") ->
  is_Some (scriptsAndOverrides !! "opcodes") ->
  is_Some (scriptsAndOverrides !! "operations") ->
  Js.spread defaults scriptsAndOverrides = scriptsAndOverrides.
Proof.
  intros HcreateState Hopcodes Hoperations. apply map_eq. intros key.
  rewrite spread_lookup.
  destruct (scriptsAndOverrides !! key) as [value|] eqn:Hkey; [done|].
  apply not_elem_of_dom. rewrite commonDefaults_dom.
  intros Hdefault.
  assert (is_Some (scriptsAndOverrides !! key)) as [? ?]; [|congruence].
  set_solver.
Qed.

(** X3: for an argument that supplies [createState], [opcodes] and
    [operations], [createCompilerCommonSynchronous] is [createCompiler]:
    the compiler holds the argument as it stands and compiles against it;
    no default reaches it. *)
Theorem createCompilerCommonSynchronous_full_override
  (scriptsAndOverrides : gmap string Value) :
  is_Some (scriptsAndOverrides !! "createState") ->
  is_Some (scriptsAndOverrides !! "opcodes") ->
  is_Some (scriptsAndOverrides !! "operations") ->
  createCompilerCommonSynchronous compilerCreateStateCommon
    generateBytecodeMap_OpcodesCommon compilerOperationsCommon compileScript
    scriptsAndOverrides
  = createCompiler compileScript scriptsAndOverrides.
Proof.
  intros HcreateState Hopcodes Hoperations.
  unfold createCompilerCommonSynchronous. f_equal.
  by apply spread_over_defaults.
Qed.

(** X4: creating a compiler from the environment of a created compiler
    gives that compiler again, the same environment and the same
    [generateBytecode]: the defaults are spread once, and a second spread
    finds all three already there. *)
Theorem createCompilerCommonSynchronous_idempotent
  (scriptsAndOverrides : gmap string Value) :
  let create overrides :=
    createCompilerCommonSynchronous compilerCreateStateCommon
      generateBytecodeMap_OpcodesCommon compilerOperationsCommon
      compileScript overrides in
  create (environment (create scriptsAndOverrides))
  = create scriptsAndOverrides.
Proof.
  intros create.
  assert (Js.spread defaults (Js.spread defaults scriptsAndOverrides)
          = Js.spread defaults scriptsAndOverrides) as Honce.
  { apply spread_over_defaults;
      rewrite spread_lookup; by destruct (scriptsAndOverrides !! _). }
  change (createCompiler compileScript
            (Js.spread defaults (Js.spread defaults scriptsAndOverrides))
          = createCompiler compileScript
              (Js.spread defaults scriptsAndOverrides)).
  by rewrite Honce.
Qed.

End CreateCompilerCommonSynchronousMore.

(** An argument overriding all three defaults and supplying [scripts]. *)
Lemma createCompilerCommonSynchronous_full_override_witness :
  let compileScript (_ : string) (_ : unit) (_ : gmap string nat)
    : CompilationResult unit unit unit := CompilationResultSuccess [] tt in
  let supplied : gmap string nat :=
    {[ "createState" := 4%nat; "opcodes" := 5%nat; "operations" := 6%nat;
       "scripts" := 7%nat ]} in
  createCompilerCommonSynchronous 1%nat 2%nat 3%nat compileScript supplied
  = createCompiler compileScript supplied.
Proof.
  intros compileScript supplied.
  apply (createCompilerCommonSynchronous_full_override 1%nat 2%nat 3%nat
           compileScript supplied); eexists; reflexivity.
Defined.


(** * Further properties of the derived environment *)

Section TemplateEnvironmentMore.

Context {AuthenticationTemplateVariable LockingType TimeLockType : Type}.

Abbreviation Entity' :=
  (AuthenticationTemplateEntity AuthenticationTemplateVariable) (only parsing).
Abbreviation Script' :=
  (AuthenticationTemplateScript LockingType TimeLockType) (only parsing).
Abbreviation Template' :=
  (AuthenticationTemplate AuthenticationTemplateVariable LockingType
     TimeLockType) (only parsing).

Lemma option_ext {A} (o1 o2 : option A) :
  (forall x, o1 = Some x <-> o2 = Some x) -> o1 = o2.
Proof.
  intros Hsame. destruct o1 as [x|], o2 as [y|]; try done.
  - by apply Hsame.
  - symmetry. by apply Hsame.
  - by apply Hsame.
Qed.

(** The reducer of [scripts] is the reducer of a tag that every script
    declares. *)
Lemma scripts_as_declared (entries : list (string * Script')) :
  foldl (fun all entry => Js.set all entry.1 (script entry.2)) ∅ entries
  = foldl (collectDeclared (fun definition => Js.Defined (script definition)))
      ∅ entries.
Proof.
  induction entries as [|entry entries IH] using rev_ind; [done|].
  rewrite !foldl_app. cbn. by rewrite IH.
Qed.

(** X5: with distinct script ids, [scripts] maps an id to a source exactly
    when the template has a script of that id with that source. *)
Theorem scripts_exactly_template (template : Template') scriptId source :
  NoDup (scripts template).*1 ->
  env_scripts (authenticationTemplateToCompilationEnvironment template)
  !! scriptId = Some source
  <-> exists definition,
      (scriptId, definition) ∈ scripts template /\ script definition = source.
Proof.
  intros Hnodup. cbn. rewrite scripts_as_declared.
  rewrite (collectDeclared_lookup _ _ _ _ Hnodup).
  split; intros (definition & Hin & Hsource); exists definition;
    (split; [done|]); congruence.
Qed.

Lemma collectDeclared_is_Some {A} (field : Script' -> Js.Property A)
  (entries : list (string * Script')) scriptId :
  is_Some (foldl (collectDeclared field) ∅ entries !! scriptId)
  <-> exists definition value,
      (scriptId, definition) ∈ entries /\ field definition = Js.Defined value.
Proof.
  induction entries as [|[id def] entries IH] using rev_ind.
  - cbn [foldl]. rewrite lookup_empty. split; [by intros [? ?]|].
    by intros (? & ? & ?%elem_of_nil & _).
  - rewrite foldl_app. cbn [foldl]. unfold collectDeclared at 1. cbn [fst snd].
    assert (Hlast : forall definition,
               (scriptId, definition) ∈ entries ++ [(id, def)]
               <-> (scriptId, definition) ∈ entries
                   \/ (scriptId = id /\ definition = def)).
    { intros definition. rewrite elem_of_app, list_elem_of_singleton.
      naive_solver. }
    destruct (field def) as [| |declaredValue] eqn:Hfield; cbn [Js.declared].
    + rewrite IH. split.
      * intros (definition & value & Hin & Hdef). exists definition, value.
        split; [|done]. apply Hlast. by left.
      * intros (definition & value & [Hin|[-> ->]]%Hlast & Hdef);
          [by exists definition, value | congruence].
    + rewrite IH. split.
      * intros (definition & value & Hin & Hdef). exists definition, value.
        split; [|done]. apply Hlast. by left.
      * intros (definition & value & [Hin|[-> ->]]%Hlast & Hdef);
          [by exists definition, value | congruence].
    + unfold Js.set. destruct (decide (id = scriptId)) as [->|Hne].
      * rewrite lookup_insert_eq. split; [|by eexists].
        intros _. exists def, declaredValue. split; [|done].
        apply Hlast. by right.
      * rewrite lookup_insert_ne by done. rewrite IH. split.
        -- intros (definition & value & Hin & Hdef).
           exists definition, value. split; [|done]. apply Hlast. by left.
        -- intros (definition & value & [Hin|[-> ->]]%Hlast & Hdef);
             [by exists definition, value | done].
Qed.

(** X6: the three tag maps stay within [scripts]: an id with an entry in
    [unlockingScripts], [lockingScriptTypes] or
    [unlockingScriptTimeLockTypes] has its source in [scripts], and
    [scripts] holds the ids of the template's scripts and no other. *)
Theorem tag_maps_within_scripts (template : Template') :
  let derived := authenticationTemplateToCompilationEnvironment template in
  dom (env_scripts derived) = list_to_set (scripts template).*1
  /\ dom (env_unlockingScripts derived) ⊆ dom (env_scripts derived)
  /\ dom (env_lockingScriptTypes derived) ⊆ dom (env_scripts derived)
  /\ dom (env_unlockingScriptTimeLockTypes derived) ⊆ dom (env_scripts derived).
Proof.
  cbn.
  assert (Hscripts : forall scriptId,
             scriptId ∈ dom (foldl (fun all entry =>
                               Js.set all entry.1 (script entry.2)) ∅
                               (scripts template))
             <-> scriptId ∈ (scripts template).*1).
  { intros scriptId.
    rewrite scripts_as_declared, elem_of_dom, collectDeclared_is_Some,
      list_elem_of_fmap. split.
    - intros (definition & _ & Hin & _). by exists (scriptId, definition).
    - intros ([id definition] & -> & Hin). by exists definition, (script definition). }
  assert (Htag : forall A (field : Script' -> Js.Property A) scriptId,
             scriptId ∈ dom (foldl (collectDeclared field) ∅ (scripts template))
             -> scriptId ∈ (scripts template).*1).
  { intros A field scriptId.
    rewrite elem_of_dom, collectDeclared_is_Some, list_elem_of_fmap.
    intros (definition & _ & Hin & _). by exists (scriptId, definition). }
  split; [|repeat split].
  - apply set_eq. intros scriptId. by rewrite Hscripts, elem_of_list_to_set.
  - intros scriptId ?%Htag. by apply Hscripts.
  - intros scriptId ?%Htag. by apply Hscripts.
  - intros scriptId ?%Htag. by apply Hscripts.
Qed.

Lemma spreadEntries_is_Some {V} (target : gmap string V)
  (entries : list (string * V)) key :
  is_Some (Js.spreadEntries target entries !! key)
  <-> is_Some (target !! key) \/ key ∈ entries.*1.
Proof.
  induction entries as [|[k v] entries IH] using rev_ind.
  - cbn. rewrite elem_of_nil. tauto.
  - rewrite spreadEntries_snoc, fmap_app, elem_of_app. cbn.
    rewrite list_elem_of_singleton.
    destruct (decide (k = key)) as [->|Hne].
    + rewrite lookup_insert_eq. split; [intros _; right; by right | by eexists].
    + rewrite lookup_insert_ne by done. rewrite IH. naive_solver.
Qed.

(** The last binding of a key among the entries is the one a spread
    leaves. *)
Lemma spreadEntries_lookup_last {V} (entries : list (string * V)) key :
  key ∈ entries.*1 ->
  exists value,
    (key, value) ∈ entries
    /\ forall target : gmap string V,
        Js.spreadEntries target entries !! key = Some value.
Proof.
  induction entries as [|[k v] entries IH] using rev_ind;
    [by intros ?%elem_of_nil|].
  rewrite fmap_app, elem_of_app. cbn. rewrite list_elem_of_singleton.
  intros Hin. destruct (decide (k = key)) as [->|Hne].
  - exists v. split; [apply elem_of_app; right; by left|].
    intros target. by rewrite spreadEntries_snoc, lookup_insert_eq.
  - destruct Hin as [Hin|?]; [|done].
    destruct (IH Hin) as (value & Hvalue & Hlookup).
    exists value. split; [apply elem_of_app; by left|].
    intros target. by rewrite spreadEntries_snoc, lookup_insert_ne.
Qed.

Lemma mergeVariables_is_Some all (entries : list (string * Entity')) variableId :
  is_Some (foldl mergeVariables all entries.*2 !! variableId)
  <-> is_Some (all !! variableId)
      \/ Exists (fun entry => variableId ∈ variableIds entry.2) entries.
Proof.
  induction entries as [|[id entity] entries IH] using rev_ind.
  - cbn. rewrite Exists_nil. tauto.
  - rewrite fmap_app, foldl_app, Exists_app, Exists_cons, Exists_nil.
    cbn [foldl fmap list_fmap snd]. unfold mergeVariables at 1, variableIds at 2.
    destruct (variables entity) as [declared|]; cbn [Js.spreadOptional].
    + rewrite spreadEntries_is_Some, IH. tauto.
    + rewrite IH, elem_of_nil. tauto.
Qed.

Lemma mergeOwnership_is_Some all (entries : list (string * Entity')) variableId :
  is_Some (foldl mergeOwnership all entries !! variableId)
  <-> is_Some (all !! variableId)
      \/ Exists (fun entry => variableId ∈ variableIds entry.2) entries.
Proof.
  induction entries as [|[id entity] entries IH] using rev_ind.
  - cbn. rewrite Exists_nil. tauto.
  - rewrite foldl_app, Exists_app, Exists_cons, Exists_nil.
    cbn [foldl]. unfold mergeOwnership at 1. rewrite spread_lookup, owned_lookup.
    cbn [fst snd]. case_bool_decide as Hin.
    + split; [intros _; right; right; by left | by eexists].
    + rewrite IH. tauto.
Qed.

Lemma derived_ids (template : Template') variableId :
  let derived := authenticationTemplateToCompilationEnvironment template in
  (is_Some (env_variables derived !! variableId)
   <-> variableId ∈ definedVariableIds template)
  /\ (is_Some (env_entityOwnership derived !! variableId)
      <-> variableId ∈ definedVariableIds template).
Proof.
  cbn. unfold definedVariableIds.
  assert (variableId ∈ flat_map (fun entry : string * Entity' =>
                                   variableIds entry.2) (entities template)
          <-> Exists (fun entry => variableId ∈ variableIds entry.2)
                (entities template)) as ->.
  { rewrite list_elem_of_In, in_flat_map, Exists_exists.
    split; intros (entry & Hentry & Hid); exists entry;
      by rewrite ?list_elem_of_In in *. }
  rewrite mergeVariables_is_Some, mergeOwnership_is_Some, lookup_empty.
  split; (split; [intros [[? ?]|?]; done | by right]).
Qed.

(** X7: [variables] and [entityOwnership] hold the same ids, those that an
    entity of the template defines: every variable has an owner, every
    owned id is a variable, and an id no entity defines is in neither. *)
Theorem variables_and_owners_same_ids (template : Template') variableId :
  let derived := authenticationTemplateToCompilationEnvironment template in
  (is_Some (env_variables derived !! variableId)
   <-> variableId ∈ definedVariableIds template)
  /\ (is_Some (env_entityOwnership derived !! variableId)
      <-> variableId ∈ definedVariableIds template).
Proof. apply derived_ids. Qed.

Lemma Exists_last {A} (P : A -> Prop) `{!forall x, Decision (P x)} (l : list A) :
  Exists P l ->
  exists earlier x later,
    l = earlier ++ x :: later /\ P x /\ Forall (fun y => ~ P y) later.
Proof.
  induction l as [|y l IH] using rev_ind; [by intros ?%Exists_nil|].
  rewrite Exists_app, Exists_cons, Exists_nil.
  destruct (decide (P y)) as [Hy|Hy].
  - intros _. by exists l, y, [].
  - intros [Hl|[?|[]]]; [|done].
    destruct (IH Hl) as (earlier & x & later & -> & Hx & Hlater).
    exists earlier, x, (later ++ [y]). rewrite <- app_assoc. cbn.
    split; [done|]. split; [done|]. apply Forall_app. by split; [|constructor].
Qed.

(** The last entity that defines a variable id decides both maps, and the
    definition is its last binding of the id. *)
Lemma last_entity_decides (template : Template') earlier entityId
  (entity : Entity') later variableId :
  entities template = earlier ++ (entityId, entity) :: later ->
  variableId ∈ variableIds entity ->
  Forall (fun entry => variableId ∉ variableIds entry.2) later ->
  let derived := authenticationTemplateToCompilationEnvironment template in
  exists entries definition,
    variables entity = Some entries
    /\ (variableId, definition) ∈ entries
    /\ env_variables derived !! variableId = Some definition
    /\ env_entityOwnership derived !! variableId = Some entityId.
Proof.
  intros Hentities Hdefines Hlater.
  cbn [authenticationTemplateToCompilationEnvironment env_variables
         env_entityOwnership].
  rewrite Hentities. unfold variableIds in Hdefines.
  destruct (variables entity) as [entries|] eqn:Hvariables;
    [|by apply elem_of_nil in Hdefines].
  destruct (spreadEntries_lookup_last entries variableId Hdefines)
    as (definition & Hin & Hlookup).
  exists entries, definition. split; [done|]. split; [done|]. split.
  - rewrite fmap_app, foldl_app. cbn [foldl fmap list_fmap snd].
    rewrite (mergeVariables_untouched _ later variableId Hlater).
    unfold mergeVariables at 1. rewrite Hvariables. cbn [Js.spreadOptional].
    apply Hlookup.
  - rewrite foldl_app. cbn [foldl].
    rewrite (mergeOwnership_untouched _ later variableId Hlater).
    unfold mergeOwnership at 1, Js.spread.
    apply lookup_union_Some_l. rewrite owned_lookup. cbn [fst snd].
    rewrite bool_decide_eq_true_2; [done|].
    unfold variableIds. by rewrite Hvariables.
Qed.

Lemma derived_origin (template : Template') variableId :
  let derived := authenticationTemplateToCompilationEnvironment template in
  is_Some (env_variables derived !! variableId) ->
  exists entityId entity entries definition,
    (entityId, entity) ∈ entities template
    /\ variables entity = Some entries
    /\ (variableId, definition) ∈ entries
    /\ env_variables derived !! variableId = Some definition
    /\ env_entityOwnership derived !! variableId = Some entityId.
Proof.
  intros derived Hvariable.
  apply (proj1 (derived_ids template variableId)) in Hvariable.
  unfold definedVariableIds in Hvariable.
  apply list_elem_of_In, in_flat_map in Hvariable as (entry & Hentry & Hdefines).
  assert (Exists (fun entry : string * Entity' =>
                    variableId ∈ variableIds entry.2) (entities template))
    as Hexists.
  { apply Exists_exists. exists entry. by rewrite !list_elem_of_In. }
  apply Exists_last in Hexists
      as (earlier & [entityId entity] & later & Hentities & Hlast & Hlater);
    [|intros ?; apply _].
  destruct (last_entity_decides template earlier entityId entity later
              variableId Hentities Hlast Hlater)
    as (entries & definition & Hvariables & Hin & Hvalue & Howner).
  exists entityId, entity, entries, definition.
  split; [|done]. rewrite Hentities. apply elem_of_app. right. by left.
Qed.

(** X8: the two maps agree on where a variable comes from: for every
    variable of [variables] there is one entity of the template that
    defines the id with the definition [variables] holds and that
    [entityOwnership] names as its owner. *)
Theorem owner_holds_definition (template : Template') variableId :
  let derived := authenticationTemplateToCompilationEnvironment template in
  is_Some (env_variables derived !! variableId) ->
  exists entityId entity entries definition,
    (entityId, entity) ∈ entities template
    /\ variables entity = Some entries
    /\ (variableId, definition) ∈ entries
    /\ env_variables derived !! variableId = Some definition
    /\ env_entityOwnership derived !! variableId = Some entityId.
Proof. apply derived_origin. Qed.

Lemma definedVariableIds_split (template : Template') earlier entityId
  (entity : Entity') later :
  entities template = earlier ++ (entityId, entity) :: later ->
  NoDup (definedVariableIds template) ->
  NoDup (variableIds entity)
  /\ forall variableId,
      variableId ∈ variableIds entity ->
      Forall (fun entry => variableId ∉ variableIds entry.2) later.
Proof.
  unfold definedVariableIds. intros ->.
  rewrite flat_map_app. cbn [flat_map].
  intros (_ & _ & (Hentity & Hdisjoint & _)%NoDup_app)%NoDup_app.
  split; [done|]. intros variableId Hdefines. apply Forall_forall.
  intros entry Hentry Hagain. apply (Hdisjoint variableId Hdefines).
  apply list_elem_of_In, in_flat_map. exists entry.
  by rewrite <- !list_elem_of_In.
Qed.

Lemma derived_exact (template : Template') variableId definition entityId :
  NoDup (definedVariableIds template) ->
  let derived := authenticationTemplateToCompilationEnvironment template in
  env_variables derived !! variableId = Some definition
  /\ env_entityOwnership derived !! variableId = Some entityId
  <-> exists entity entries,
      (entityId, entity) ∈ entities template
      /\ variables entity = Some entries
      /\ (variableId, definition) ∈ entries.
Proof.
  intros Hnodup derived. split.
  - intros [Hvariable Howner].
    destruct (derived_origin template variableId (mk_is_Some _ _ Hvariable))
      as (entityId' & entity & entries & definition' & Hin & Hvariables
          & Hdefinition & Hvariable' & Howner').
    fold derived in Hvariable', Howner'.
    assert (definition' = definition) as -> by congruence.
    assert (entityId' = entityId) as -> by congruence.
    by exists entity, entries.
  - intros (entity & entries & Hin & Hvariables & Hdefinition).
    apply list_elem_of_split in Hin as (earlier & later & Hentities).
    destruct (definedVariableIds_split template _ _ _ _ Hentities Hnodup)
      as [Hentity Hlater].
    apply (last_definition_wins template earlier entityId entity later entries);
      try done.
    + unfold variableIds in Hentity. by rewrite Hvariables in Hentity.
    + apply Hlater. unfold variableIds. rewrite Hvariables.
      apply list_elem_of_fmap. by exists (variableId, definition).
Qed.

(** X9: when no variable id is defined twice, [variables] holds a
    definition for an id and [entityOwnership] an owner exactly when that
    entity of the template defines the id with that definition. *)
Theorem variables_exactly_template (template : Template') variableId
  definition entityId :
  NoDup (definedVariableIds template) ->
  let derived := authenticationTemplateToCompilationEnvironment template in
  env_variables derived !! variableId = Some definition
  /\ env_entityOwnership derived !! variableId = Some entityId
  <-> exists entity entries,
      (entityId, entity) ∈ entities template
      /\ variables entity = Some entries
      /\ (variableId, definition) ∈ entries.
Proof. apply derived_exact. Qed.

(** X10: with distinct script ids, the order in which the scripts of the
    template are enumerated does not matter: two templates with the same
    scripts in different orders give the same [scripts] and the same three
    tag maps. *)
Theorem scripts_order_irrelevant (template template' : Template') :
  scripts template ≡ₚ scripts template' ->
  NoDup (scripts template).*1 ->
  let derived := authenticationTemplateToCompilationEnvironment template in
  let derived' := authenticationTemplateToCompilationEnvironment template' in
  env_scripts derived = env_scripts derived'
  /\ env_unlockingScripts derived = env_unlockingScripts derived'
  /\ env_lockingScriptTypes derived = env_lockingScriptTypes derived'
  /\ env_unlockingScriptTimeLockTypes derived
     = env_unlockingScriptTimeLockTypes derived'.
Proof.
  intros Hpermutation Hnodup.
  assert (NoDup (scripts template').*1) as Hnodup' by (by rewrite <- Hpermutation).
  assert (Htag : forall A (field : Script' -> Js.Property A),
             foldl (collectDeclared field) ∅ (scripts template)
             = foldl (collectDeclared field) ∅ (scripts template')).
  { intros A field. apply map_eq. intros scriptId. apply option_ext.
    intros value. rewrite !collectDeclared_lookup by done.
    by setoid_rewrite Hpermutation. }
  cbn. rewrite !scripts_as_declared. by rewrite !Htag.
Qed.

(** X11: when no variable id is defined twice, the order in which the
    entities of the template are enumerated does not matter: two templates
    with the same entities in different orders give the same [variables]
    and the same [entityOwnership]. *)
Theorem entities_order_irrelevant (template template' : Template') :
  entities template ≡ₚ entities template' ->
  NoDup (definedVariableIds template) ->
  let derived := authenticationTemplateToCompilationEnvironment template in
  let derived' := authenticationTemplateToCompilationEnvironment template' in
  env_variables derived = env_variables derived'
  /\ env_entityOwnership derived = env_entityOwnership derived'.
Proof.
  intros Hpermutation Hnodup derived derived'.
  assert (NoDup (definedVariableIds template')) as Hnodup'.
  { unfold definedVariableIds in *.
    by rewrite <- (Permutation_flat_map
                     (fun entry : string * Entity' => variableIds entry.2)
                     Hpermutation). }
  assert (Hsame : forall variableId definition entityId,
             env_variables derived !! variableId = Some definition
             /\ env_entityOwnership derived !! variableId = Some entityId
             <-> env_variables derived' !! variableId = Some definition
                 /\ env_entityOwnership derived' !! variableId = Some entityId).
  { intros variableId definition entityId.
    unfold derived, derived'.
    rewrite !derived_exact by done.
    by setoid_rewrite Hpermutation. }
  assert (Hboth : forall (t : Template') variableId,
             is_Some (env_variables
                        (authenticationTemplateToCompilationEnvironment t)
                      !! variableId)
             <-> is_Some (env_entityOwnership
                            (authenticationTemplateToCompilationEnvironment t)
                          !! variableId)).
  { intros t variableId.
    destruct (derived_ids t variableId) as [-> ->]. done. }
  split; apply map_eq; intros variableId; apply option_ext.
  - intros definition. split; intros Hvariable.
    + destruct (proj1 (Hboth template variableId) (mk_is_Some _ _ Hvariable))
        as [entityId Howner].
      by apply (Hsame variableId definition entityId).
    + destruct (proj1 (Hboth template' variableId) (mk_is_Some _ _ Hvariable))
        as [entityId Howner].
      by apply (Hsame variableId definition entityId).
  - intros entityId. split; intros Howner.
    + destruct (proj2 (Hboth template variableId) (mk_is_Some _ _ Howner))
        as [definition Hvariable].
      by apply (Hsame variableId definition entityId).
    + destruct (proj2 (Hboth template' variableId) (mk_is_Some _ _ Howner))
        as [definition Hvariable].
      by apply (Hsame variableId definition entityId).
Qed.

End TemplateEnvironmentMore.

Section TemplateMoreExamples.

Local Open Scope string_scope.

Lemma scripts_exactly_template_witness :
  env_scripts (authenticationTemplateToCompilationEnvironment sampleTemplate)
  !! "unlock" = Some "OP_0".
Proof.
  apply (scripts_exactly_template sampleTemplate "unlock" "OP_0").
  - vm_compute. repeat constructor; set_solver.
  - eexists. split.
    + apply list_elem_of_further, list_elem_of_here.
    + reflexivity.
Defined.

Lemma owner_holds_definition_witness :
  exists entityId entity entries definition,
    (entityId, entity) ∈ entities sampleTemplate
    /\ variables entity = Some entries
    /\ ("b_time", definition) ∈ entries
    /\ env_variables
         (authenticationTemplateToCompilationEnvironment sampleTemplate)
       !! "b_time" = Some definition
    /\ env_entityOwnership
         (authenticationTemplateToCompilationEnvironment sampleTemplate)
       !! "b_time" = Some entityId.
Proof.
  apply (owner_holds_definition sampleTemplate "b_time").
  eexists. vm_compute. reflexivity.
Defined.

Lemma variables_exactly_template_witness :
  env_variables (authenticationTemplateToCompilationEnvironment sampleTemplate)
  !! "b_time" = Some 3%nat
  /\ env_entityOwnership
       (authenticationTemplateToCompilationEnvironment sampleTemplate)
     !! "b_time" = Some "bob".
Proof.
  apply (variables_exactly_template sampleTemplate "b_time" 3%nat "bob").
  - vm_compute. repeat constructor; set_solver.
  - eexists _, _. split; [|split].
    + apply list_elem_of_further, list_elem_of_here.
    + reflexivity.
    + apply list_elem_of_further, list_elem_of_here.
Defined.

Lemma scripts_order_irrelevant_witness :
  env_scripts (authenticationTemplateToCompilationEnvironment sampleTemplate)
  = env_scripts
      (authenticationTemplateToCompilationEnvironment sampleTemplateReversed)
  /\ env_unlockingScripts
       (authenticationTemplateToCompilationEnvironment sampleTemplate)
     = env_unlockingScripts
         (authenticationTemplateToCompilationEnvironment sampleTemplateReversed).
Proof.
  destruct (scripts_order_irrelevant sampleTemplate sampleTemplateReversed)
    as (Hscripts & Hunlocking & _).
  - apply Permutation_rev.
  - vm_compute. repeat constructor; set_solver.
  - by split.
Defined.

Lemma entities_order_irrelevant_witness :
  env_variables (authenticationTemplateToCompilationEnvironment sampleTemplate)
  = env_variables
      (authenticationTemplateToCompilationEnvironment sampleTemplateReversed)
  /\ env_entityOwnership
       (authenticationTemplateToCompilationEnvironment sampleTemplate)
     = env_entityOwnership
         (authenticationTemplateToCompilationEnvironment sampleTemplateReversed).
Proof.
  apply (entities_order_irrelevant sampleTemplate sampleTemplateReversed).
  - apply Permutation_rev.
  - vm_compute. repeat constructor; set_solver.
Defined.

End TemplateMoreExamples.


(** * Separators *)

Section SeparatorFacts.

Import Language.

Ltac scan_split :=
  repeat first
    [ match goal with
      | |- context [match ?l with [] => _ | _ :: _ => _ end] =>
          is_var l; destruct l; cbn [app]
      end
    | match goal with
      | |- context [if ?b then _ else _] => destruct b eqn:?
      end ].

(** A character that continues no number, hex literal or identifier. *)
Lemma separator_not_x c : isIdentifierPart c = false -> (c =? "x")%char = false.
Proof.
  intros Hc. destruct (Ascii.eqb_spec c "x") as [->|]; [|done]. discriminate Hc.
Qed.

Lemma scanInteger_separator negative s found rest c x :
  isDigit c = false ->
  scanInteger negative s = ScanToken found rest ->
  scanInteger negative (s ++ c :: x) = ScanToken found (rest ++ c :: x).
Proof.
  intros Hc. unfold scanInteger. rewrite (span_app_head isDigit s c x Hc).
  destruct (span isDigit s). by intros [= <- <-].
Qed.

(** A token that is not a line comment running to the end of the text is
    not changed by appending a text that starts with a separator. *)
Lemma scan_app_separator a found rest c x :
  isDigit c = false ->
  isHexDigit c = false ->
  isIdentifierPart c = false ->
  scan a = ScanToken found rest ->
  rest <> [] \/ found <> TComment LineStyle ->
  scan (a ++ c :: x) = ScanToken found (rest ++ c :: x).
Proof.
  intros Hdigit Hhex Hpart.
  pose proof (separator_not_x c Hpart) as Hx.
  destruct a as [|c0 a]; [done|]. cbn [app]. unfold scan.
  rewrite ?Hdigit, ?Hx, ?andb_false_r.
  scan_split; try done.
  all: try (by intros [= <- <-]).
  all: try match goal with
    | H : _ && (_ =? "x")%char = true |- _ =>
        by rewrite ?Hx, andb_false_r in H
    | |- scanInteger ?n ?s = _ -> _ -> scanInteger ?n ?t = _ =>
        intros Hscan _; by apply (scanInteger_separator n s)
    | |- scanUtf8 ?q ?s = _ -> _ -> scanUtf8 ?q ?t = _ =>
        intros Hscan _; by apply (scanUtf8_app q s)
    | |- context [untilBlockEnd (?r ++ ?y)] =>
        destruct (untilBlockEnd r) as [[body after]|] eqn:Hbody; [|done];
        intros [= <- <-] _; by rewrite (untilBlockEnd_app _ _ _ y Hbody)
    | |- context [span isHexDigit (?r ++ ?e :: ?y)] =>
        rewrite (span_app_head isHexDigit r e y Hhex);
        destruct (span isHexDigit r); by intros [= <- <-]
    | |- context [span isIdentifierPart (?c1 :: ?d :: ?r ++ ?e :: ?y)] =>
        let Happ := fresh in
        pose proof (span_app_head isIdentifierPart (c1 :: d :: r) e y Hpart)
          as Happ;
        cbn [app] in Happ; rewrite Happ;
        destruct (span isIdentifierPart (c1 :: d :: r)); by intros [= <- <-]
    | |- context [span isIdentifierPart (?c1 :: ?e :: ?y)] =>
        let Happ := fresh in
        pose proof (span_app_head isIdentifierPart [c1] e y Hpart) as Happ;
        cbn [app] in Happ; rewrite Happ;
        destruct (span isIdentifierPart [c1]); by intros [= <- <-]
    end.
  all: try (intros [= <- <-] [Hrest|Hfound]; [|done];
    match goal with
    | |- context [span withinLine (?r ++ _)] =>
        destruct (span withinLine r).2 as [|newline after] eqn:Hspan; [done|];
        by rewrite (span_app_stop _ r newline after _ Hspan)
    end).
Qed.

Lemma Lexes_app_separator a kinds c x kinds' :
  isDigit c = false ->
  isHexDigit c = false ->
  isIdentifierPart c = false ->
  Lexes a kinds ->
  last kinds <> Some (TComment LineStyle) ->
  Lexes (c :: x) kinds' ->
  Lexes (a ++ c :: x) (kinds ++ kinds').
Proof.
  intros Hdigit Hhex Hpart Hlexes Hlast Hx.
  induction Hlexes as [|s found rest kinds Hscan Hrest IH]; [done|].
  cbn [app]. apply LexesToken with (rest ++ c :: x).
  - apply scan_app_separator; [done..|].
    destruct kinds as [|next kinds].
    + right. intros ->. by apply Hlast.
    + left. by eapply Lexes_cons_nonempty.
  - apply IH. destruct kinds as [|next kinds]; [done|].
    by rewrite last_cons_cons in Hlast.
Qed.

Lemma open_or_closed (kinds : list TokenKind) :
  last kinds = Some (TComment LineStyle)
  \/ last kinds <> Some (TComment LineStyle).
Proof.
  destruct (last kinds) as [[| | | | | | | |[]|]|]; (by left) || (by right).
Qed.

Lemma whitespace_separator c :
  isWhitespace c = true ->
  isDigit c = false /\ isHexDigit c = false /\ isIdentifierPart c = false.
Proof.
  destruct c as [[] [] [] [] [] [] [] []]; try discriminate; by intros _.
Qed.

(** Two texts with a whitespace character between them: the tokens of
    the first, the whitespace, the tokens of the second.  After a line
    comment that runs to the end of the first text the character has to be
    a line break. *)
Lemma Lexes_sequence a b c kindsBefore kindsAfter :
  isWhitespace c = true ->
  last kindsBefore <> Some (TComment LineStyle) \/ isNewline c = true ->
  Lexes a kindsBefore ->
  Lexes b kindsAfter ->
  Lexes (a ++ c :: b) (kindsBefore ++ TWhitespace :: kindsAfter).
Proof.
  intros Hc Hside Ha Hb.
  destruct (whitespace_separator c Hc) as (Hdigit & Hhex & Hpart).
  assert (Lexes (c :: b) (TWhitespace :: kindsAfter)) as Hspace
    by (by apply Lexes_whitespace).
  destruct (open_or_closed kindsBefore) as [Hopen|Hclosed].
  - destruct Hside as [Hclosed|Hline]; [done|].
    apply Lexes_app_open; [done..|].
    cbn [span]. unfold withinLine. by rewrite Hline.
  - by apply Lexes_app_separator.
Qed.

(** A whitespace character between two tokens adds at most a whitespace
    token. *)
Lemma Lexes_insert_whitespace a b c kindsBefore kindsAfter :
  isWhitespace c = true ->
  Lexes a kindsBefore ->
  Lexes b kindsAfter ->
  Lexes (a ++ b) (kindsBefore ++ kindsAfter) ->
  exists skipped,
    Lexes (a ++ c :: b) (kindsBefore ++ skipped ++ kindsAfter)
    /\ List.filter isSignificant skipped = [].
Proof.
  intros Hc Ha Hb Hab.
  destruct (whitespace_separator c Hc) as (Hdigit & Hhex & Hpart).
  assert (Lexes (c :: b) (TWhitespace :: kindsAfter)) as Hspace
    by (by apply Lexes_whitespace).
  destruct (open_or_closed kindsBefore) as [Hopen|Hclosed].
  - destruct (Lexes_app_open_inv _ _ _ _ Ha Hopen Hab) as (kinds' & Hsame & Hdrop).
    apply app_inv_head in Hsame as <-.
    destruct (withinLine c) eqn:Hline.
    + exists []. split; [|done]. apply Lexes_app_open; [done..|].
      cbn [span]. rewrite Hline. by destruct (span withinLine b).
    + exists [TWhitespace]. split; [|done]. apply Lexes_app_open; [done..|].
      cbn [span]. by rewrite Hline.
  - exists [TWhitespace]. split; [|done]. by apply Lexes_app_separator.
Qed.

(** A text that does not end inside a line comment, followed by a closing
    bracket. *)
Lemma Lexes_close s kinds :
  Lexes s kinds ->
  last kinds <> Some (TComment LineStyle) ->
  Lexes (s ++ [">"%char]) (kinds ++ [TPushClose]).
Proof.
  intros Hs Hlast. apply Lexes_app_separator; [done..|].
  by apply LexesToken with [], LexesEnd.
Qed.

End SeparatorFacts.


(** * Scripts put together *)

Section NestingFacts.

Import Language.

Lemma nestFrames_cons outer kind_ at_ current stack :
  nestFrames outer
    ({| bracket := kind_; opened := at_; before := current |} :: stack)
  = {| bracket := kind_; opened := at_;
       before := nestCurrent outer stack current |}
    :: nestFrames outer stack.
Proof. by destruct stack. Qed.

Lemma nestCurrent_cons outer stack node current :
  nestCurrent outer stack (node :: current)
  = node :: nestCurrent outer stack current.
Proof. by destruct stack. Qed.

(** The parser reads a program that follows other statements, and is
    followed by other tokens, as it reads it alone. *)
Lemma parseTokens_nested tokens :
  forall stack current nodes,
    parseTokens tokens stack current = inl nodes ->
    forall outer rest base,
      parseTokens (tokens ++ rest) (nestFrames outer stack ++ base)
        (nestCurrent outer stack current)
      = parseTokens rest base (rev nodes ++ outer).
Proof.
  induction tokens as [|token tokens IH]; intros stack current nodes Hparse
    outer rest base.
  - destruct stack; [|done]. injection Hparse as <-.
    cbn. by rewrite rev_involutive.
  - cbn [app parseTokens] in *.
    destruct (kind token).
    + rewrite <- nestCurrent_cons. by apply IH.
    + rewrite <- nestCurrent_cons. by apply IH.
    + rewrite <- nestCurrent_cons. by apply IH.
    + rewrite <- nestCurrent_cons. by apply IH.
    + rewrite <- (IH _ _ _ Hparse outer rest base).
      by rewrite nestFrames_cons.
    + destruct stack as [|[[] at_ earlier] stack]; [done| |done].
      rewrite nestFrames_cons. cbn [app bracket opened before].
      rewrite <- nestCurrent_cons.
      rewrite <- (IH _ _ _ Hparse outer rest base). by destruct stack.
    + rewrite <- (IH _ _ _ Hparse outer rest base).
      by rewrite nestFrames_cons.
    + destruct stack as [|[[] at_ earlier] stack]; [done|done|].
      rewrite nestFrames_cons. cbn [app bracket opened before].
      rewrite <- nestCurrent_cons.
      rewrite <- (IH _ _ _ Hparse outer rest base). by destruct stack.
    + by apply IH.
    + by apply IH.
Qed.

(** Two programs one after the other. *)
Lemma parse_app tokens tokens' nodes nodes' :
  parse tokens = inl nodes ->
  parse tokens' = inl nodes' ->
  parse (tokens ++ tokens') = inl (nodes ++ nodes').
Proof.
  unfold parse. intros Hfirst Hsecond.
  pose proof (parseTokens_nested _ _ _ _ Hfirst [] tokens' []) as Hnested.
  cbn [nestFrames nestCurrent app] in Hnested. rewrite Hnested, app_nil_r.
  pose proof (parseTokens_nested _ _ _ _ Hsecond (rev nodes) [] []) as Hnested'.
  rewrite app_nil_r in Hnested'. cbn [nestFrames nestCurrent app] in Hnested'.
  rewrite Hnested'. cbn [parseTokens].
  by rewrite rev_app_distr, !rev_involutive.
Qed.

(** A program between the brackets of a push. *)
Lemma parse_push tokens nodes opening closing :
  kind opening = TPushOpen ->
  kind closing = TPushClose ->
  parse tokens = inl nodes ->
  parse (opening :: tokens ++ [closing])
  = inl [Push nodes (enclose (tokenRange opening) (tokenRange closing))].
Proof.
  unfold parse. intros Hopening Hclosing Hparse.
  cbn [parseTokens]. rewrite Hopening.
  pose proof (parseTokens_nested _ _ _ _ Hparse [] [closing]
                [{| bracket := PushBracket; opened := tokenRange opening;
                    before := [] |}]) as Hnested.
  cbn [nestFrames nestCurrent app] in Hnested. rewrite Hnested.
  cbn [parseTokens]. rewrite Hclosing. cbn.
  by rewrite app_nil_r, rev_involutive.
Qed.

End NestingFacts.


Section Composition.

Import Language.

Context {VariableDetail CompilationData : Type}.
Variable environment : CompilationEnvironment VariableDetail CompilationData.
Variable data : CompilationData.

Local Open Scope string_scope.

(** The lookup of identifiers one compilation uses. *)
Abbreviation lookupAt depth path current :=
  (resolveIdentifier environment data
     (fun name referenced =>
        outcome (compileSource environment data depth (name :: path) name
                   referenced))
     path current) (only parsing).

Lemma resolve_app lookup nodes nodes' resolved resolved' :
  resolve environment lookup nodes = inl resolved ->
  resolve environment lookup nodes' = inl resolved' ->
  resolve environment lookup (nodes ++ nodes') = inl (resolved ++ resolved')%list.
Proof.
  revert resolved. induction nodes as [|node nodes IH]; intros resolved.
  - by intros [= <-].
  - cbn [app resolve]. destruct (resolveNode environment lookup node); [|done].
    cbn [bind]. destruct (resolve environment lookup nodes) eqn:Hnodes; [|done].
    cbn. intros [= <-] Hsecond. by rewrite (IH _ eq_refl Hsecond).
Qed.

Lemma generate_app nodes nodes' bytes bytes' :
  generate nodes = inl bytes ->
  generate nodes' = inl bytes' ->
  generate (nodes ++ nodes') = inl (bytes ++ bytes')%list.
Proof.
  revert bytes. induction nodes as [|node nodes IH]; intros bytes.
  - by intros [= <-].
  - cbn [app generate]. destruct (generateNode node); [|done].
    cbn [bind]. destruct (generate nodes) eqn:Hnodes; [|done].
    cbn. intros [= <-] Hsecond. rewrite (IH _ eq_refl Hsecond). cbn.
    by rewrite app_assoc.
Qed.

(** What a successful compilation went through. *)
Lemma compileSource_success depth path current source bytes :
  verdict (compileSource environment data depth path current source)
  = inl bytes ->
  exists depth' tokens ast nodes,
    depth = S depth'
    /\ tokenize source = inl tokens
    /\ parse (significant tokens) = inl ast
    /\ resolve environment (lookupAt depth' path current) ast = inl nodes
    /\ generate nodes = inl bytes.
Proof.
  destruct depth as [|depth']; [done|]. cbn [compileSource].
  destruct (tokenize source) as [tokens|] eqn:Htokens; [|done].
  destruct (parse (significant tokens)) as [ast|] eqn:Hparse; [|done].
  destruct (resolve _ _ ast) as [nodes|] eqn:Hresolve; [|done].
  destruct (generate nodes) as [bytecode|] eqn:Hgenerate; [|done].
  intros [= <-]. by exists depth', tokens, ast, nodes.
Qed.

(** A compilation read off tokens of the same classes as those of its
    source. *)
Lemma compileSource_via depth path current source tokens tokens' ast nodes :
  tokenize source = inl tokens ->
  map kind (significant tokens) = map kind tokens' ->
  parse tokens' = inl ast ->
  resolve environment (lookupAt depth path current) ast = inl nodes ->
  verdict (compileSource environment data (S depth) path current source)
  = match generate nodes with
    | inl bytecode => inl bytecode
    | inr failure => inr (failureType failure)
    end.
Proof.
  intros Htokens Hkinds Hparse' Hresolve'.
  cbn [compileSource]. rewrite Htokens.
  pose proof (parseTokens_same _ _ [] [] [] [] (same_kinds _ _ Hkinds)
                (List.Forall2_nil _) eq_refl) as Hparse.
  fold (parse (significant tokens)) in Hparse. fold (parse tokens') in Hparse.
  rewrite Hparse' in Hparse.
  destruct (parse (significant tokens)) as [ast0|]; [|done].
  cbn in Hparse.
  match goal with
  | |- context [resolve environment ?lookup ast0] =>
      pose proof (resolve_same environment lookup
                    (resolveIdentifier_same environment data _ path current)
                    ast0 ast Hparse) as Hresolve;
      rewrite Hresolve' in Hresolve;
      destruct (resolve environment lookup ast0) as [nodes0|]; [|done]
  end.
  cbn in Hresolve. pose proof (generate_same _ _ Hresolve) as Hgenerate.
  destruct (generate nodes0) as [bytecode0|failure0],
    (generate nodes) as [bytecode|failure]; try done.
  - cbn in Hgenerate. by subst.
  - rewrite verdict_failed. f_equal. by apply eraseFailure_type.
Qed.

Lemma tokenize_kinds source tokens :
  tokenize source = inl tokens ->
  Lexes (list_ascii_of_string source) (map kind tokens).
Proof. apply tokenizeFrom_Lexes. Qed.

Lemma not_endsInLineComment source tokens :
  tokenize source = inl tokens ->
  endsInLineComment (list_ascii_of_string source) = false ->
  last (map kind tokens) <> Some (TComment LineStyle).
Proof.
  intros Htokens Hends. unfold endsInLineComment in Hends.
  rewrite (proj2 (tokenKinds_Lexes _ _) (tokenize_kinds _ _ Htokens)) in Hends.
  by destruct (last (map kind tokens)) as [[| | | | | | | |[]|]|].
Qed.

(** Two scripts with a whitespace character between them compile to the
    bytecode of the first followed by the bytecode of the second. *)
Lemma compileSource_sequence depth path current first second c bytes bytes' :
  verdict (compileSource environment data depth path current first)
  = inl bytes ->
  verdict (compileSource environment data depth path current second)
  = inl bytes' ->
  isWhitespace c = true ->
  endsInLineComment (list_ascii_of_string first) = false
  \/ isNewline c = true ->
  verdict (compileSource environment data depth path current
             (first ++ String c second))
  = inl (bytes ++ bytes')%list.
Proof.
  intros (depth' & tokens & ast & nodes & -> & Htokens & Hparse & Hresolve
          & Hgenerate)%compileSource_success
         (depth'' & tokens' & ast' & nodes' & [= <-] & Htokens' & Hparse'
          & Hresolve' & Hgenerate')%compileSource_success Hc Hside.
  destruct (tokenize_Lexes (first ++ String c second)
              (map kind tokens ++ TWhitespace :: map kind tokens'))
    as (joined & Hjoined & Hkinds).
  { rewrite list_ascii_of_string_app.
    apply Lexes_sequence; [done| |by apply tokenize_kinds..].
    destruct Hside as [Hends|Hline]; [left|by right].
    by apply (not_endsInLineComment first). }
  rewrite (compileSource_via depth' path current _ joined
             (significant tokens ++ significant tokens')
             (ast ++ ast') (nodes ++ nodes')).
  - by rewrite (generate_app _ _ _ _ Hgenerate Hgenerate').
  - done.
  - rewrite significant_kinds, Hkinds, List.filter_app, map_app,
      !significant_kinds. done.
  - by apply parse_app.
  - by apply resolve_app.
Qed.

(** A whitespace character put between two tokens of a script changes
    neither its bytecode nor the kind of error it fails with. *)
Lemma compileSource_whitespace depth path current before after c :
  tokenBoundary before after ->
  isWhitespace c = true ->
  verdict (compileSource environment data depth path current
             (string_of_list_ascii (before ++ c :: after)))
  = verdict (compileSource environment data depth path current
               (string_of_list_ascii (before ++ after))).
Proof.
  intros (kindsBefore & kindsAfter & Hbefore & Hafter & Hwhole) Hc.
  apply tokenKinds_Lexes in Hbefore, Hafter, Hwhole.
  destruct (Lexes_insert_whitespace _ _ c _ _ Hc Hbefore Hafter Hwhole)
    as (skipped & Hinserted & Hskipped).
  destruct (tokenize_Lexes (string_of_list_ascii (before ++ after))
              (kindsBefore ++ kindsAfter)) as (tokens & Htokens & Hkinds);
    [by rewrite list_ascii_of_string_of_list_ascii|].
  destruct (tokenize_Lexes (string_of_list_ascii (before ++ c :: after))
              (kindsBefore ++ skipped ++ kindsAfter))
    as (tokens' & Htokens' & Hkinds');
    [by rewrite list_ascii_of_string_of_list_ascii|].
  apply (compileSource_same _ _ _ _ _ _ _ tokens' tokens); [done..|].
  rewrite !significant_kinds, Hkinds, Hkinds'.
  rewrite !List.filter_app. by rewrite Hskipped.
Qed.

(** A script between the brackets of a push compiles to the minimal push
    of its bytecode. *)
Lemma compileSource_push depth path current source bytes :
  verdict (compileSource environment data depth path current source)
  = inl bytes ->
  endsInLineComment (list_ascii_of_string source) = false ->
  verdict (compileSource environment data depth path current
             ("<" ++ source ++ ">"))
  = match encodeDataPush bytes with
    | Some push => inl push
    | None => inr EncodingError
    end.
Proof.
  intros (depth' & tokens & ast & nodes & -> & Htokens & Hparse & Hresolve
          & Hgenerate)%compileSource_success Hends.
  pose proof (tokenize_kinds _ _ Htokens) as Hlexes.
  pose proof (not_endsInLineComment _ _ Htokens Hends) as Hlast.
  destruct (tokenize_Lexes ("<" ++ source ++ ">")
              (TPushOpen :: map kind tokens ++ [TPushClose]))
    as (pushed & Hpushed & Hkinds).
  { change (list_ascii_of_string ("<" ++ source ++ ">"))
      with ("<"%char :: list_ascii_of_string (source ++ ">")).
    rewrite list_ascii_of_string_app.
    apply LexesToken with (list_ascii_of_string source ++ [">"%char])%list;
      [done|].
    by apply Lexes_close. }
  rewrite (compileSource_via depth' path current _ pushed
             ({| kind := TPushOpen; tokenRange := noRange |}
              :: significant tokens
              ++ [{| kind := TPushClose; tokenRange := noRange |}])
             [Push ast (enclose noRange noRange)]
             [ResolvedPush nodes (enclose noRange noRange)]).
  - cbn [generate]. rewrite generateNode_push, Hgenerate. cbn [bind].
    destruct (encodeDataPush bytes); cbn; [|done]. by rewrite app_nil_r.
  - done.
  - rewrite significant_kinds, Hkinds. cbn [List.filter isSignificant].
    rewrite List.filter_app. cbn. rewrite map_app, significant_kinds. done.
  - by apply (parse_push (significant tokens) ast
                {| kind := TPushOpen; tokenRange := noRange |}
                {| kind := TPushClose; tokenRange := noRange |}).
  - cbn [resolve]. rewrite resolveNode_push, Hresolve. done.
Qed.

End Composition.


(** * Literals and opcodes on their own *)

Section LiteralFacts.

Import Language.

Lemma span_forall p s : forallb p s = true -> span p s = (s, []).
Proof.
  intros Hall. induction s as [|c s IH]; [done|].
  cbn in *. apply andb_true_iff in Hall as [-> Hall]. by rewrite (IH Hall).
Qed.

(** A run of digits that ends the text is one integer token. *)
Lemma scan_digits_end digits :
  digits <> [] ->
  forallb isDigit digits = true ->
  scan digits = ScanToken (TInteger (decimalValue digits)) [].
Proof.
  intros Hnonempty Hdigits.
  assert (Hinteger : scanInteger false digits
                     = ScanToken (TInteger (decimalValue digits)) []).
  { unfold scanInteger. by rewrite (span_forall isDigit digits Hdigits). }
  destruct digits as [|d digits]; [done|].
  cbn [forallb] in Hdigits. apply andb_true_iff in Hdigits as [Hd Hdigits].
  rewrite <- Hinteger.
  destruct digits as [|next digits];
    [by destruct d as [[] [] [] [] [] [] [] []]|].
  cbn in Hdigits. apply andb_true_iff in Hdigits as [Hnext _].
  unfold scan. rewrite (digit_not_x next Hnext), andb_false_r.
  by destruct d as [[] [] [] [] [] [] [] []].
Qed.

Lemma scan_negative_end digits :
  digits <> [] ->
  forallb isDigit digits = true ->
  scan ("-"%char :: digits) = ScanToken (TInteger (- decimalValue digits)) [].
Proof.
  intros Hnonempty Hdigits.
  destruct digits as [|d digits]; [done|].
  unfold scan. pose proof Hdigits as Hall. cbn [forallb] in Hdigits.
  apply andb_true_iff in Hdigits as [Hd Hdigits]. cbn. rewrite Hd.
  unfold scanInteger. by rewrite (span_forall isDigit (d :: digits) Hall).
Qed.

(** The numeral of an integer is one token, that integer. *)
Lemma Lexes_decimal v : Lexes (list_ascii_of_string (decimal v)) [TInteger v].
Proof.
  apply LexesToken with []; [|constructor].
  rewrite decimal_chars. destruct v as [|p|p].
  - done.
  - rewrite scan_digits_end.
    + by rewrite decimalValue_positive.
    + apply uintChars_nonempty, DecimalPos.Unsigned.to_uint_nonnil.
    + apply uintChars_digits.
  - rewrite scan_negative_end.
    + by rewrite decimalValue_positive.
    + apply uintChars_nonempty, DecimalPos.Unsigned.to_uint_nonnil.
    + apply uintChars_digits.
Qed.

(** The digits of a hex literal after [0x]. *)
Lemma Lexes_hex digits :
  forallb isHexDigit digits = true ->
  Lexes ("0"%char :: "x"%char :: digits) [THex digits].
Proof.
  intros Hdigits. apply LexesToken with []; [|constructor].
  unfold scan. cbn. by rewrite (span_forall isHexDigit digits Hdigits).
Qed.

(** A quoted text that does not hold its quote. *)
Lemma Lexes_utf8 quote content :
  quote = "'"%char \/ quote = ascii_of_nat 34 ->
  forallb (fun c => negb (c =? quote)%char) content = true ->
  Lexes (quote :: content ++ [quote]) [TUtf8 content].
Proof.
  intros Hquote Hcontent. apply LexesToken with []; [|constructor].
  assert (scanUtf8 quote (content ++ [quote]) = ScanToken (TUtf8 content) [])
    as Hscan.
  { unfold scanUtf8. rewrite (span_all _ content quote [] Hcontent); [done|].
    by rewrite Ascii.eqb_refl. }
  rewrite <- Hscan. by destruct Hquote as [-> | ->].
Qed.

(** A name of the identifier form. *)
Lemma Lexes_identifier first others :
  isIdentifierStart first = true ->
  forallb isIdentifierPart others = true ->
  Lexes (first :: others)
    [TIdentifier (string_of_list_ascii (first :: others))].
Proof.
  intros Hfirst Hothers. apply LexesToken with []; [|constructor].
  assert (span isIdentifierPart (first :: others) = (first :: others, []))
    as Hspan.
  { apply span_forall. cbn. unfold isIdentifierPart at 1.
    by rewrite Hfirst, Hothers. }
  unfold scan. rewrite Hspan, Hfirst.
  by destruct first as [[] [] [] [] [] [] [] []].
Qed.

Lemma hexToBytes_even digits :
  is_Some (hexToBytes digits) <-> Nat.even (List.length digits) = true.
Proof.
  assert (forall n digits, (List.length digits <= n)%nat ->
            is_Some (hexToBytes digits)
            <-> Nat.even (List.length digits) = true) as Hall.
  { clear digits. induction n as [|n IH]; intros digits Hlength.
    - destruct digits; [|cbn in Hlength; lia]. cbn. by split; [|eexists].
    - destruct digits as [|high [|low digits]].
      + cbn. by split; [|eexists].
      + cbn. split; [by intros [? ?]|done].
      + cbn [hexToBytes List.length Nat.even]. cbn in Hlength.
        rewrite <- (IH digits ltac:(lia)).
        destruct (hexToBytes digits); split; intros [? ?]; try done;
          by eexists. }
  by apply (Hall (List.length digits)).
Qed.

Context {VariableDetail CompilationData : Type}.
Variable environment : CompilationEnvironment VariableDetail CompilationData.
Variable data : CompilationData.

(** The compilation of a script that is one literal. *)
Lemma compileSource_literal depth path current source literal found :
  Lexes (list_ascii_of_string source) [found] ->
  parse [{| kind := found; tokenRange := noRange |}]
  = inl [LiteralNode literal noRange] ->
  verdict (compileSource environment data (S depth) path current source)
  = match encodeLiteral literal noRange with
    | inl bytes => inl bytes
    | inr failure => inr (failureType failure)
    end.
Proof.
  intros Hlexes Hparse.
  destruct (tokenize_Lexes _ _ Hlexes) as (tokens & Htokens & Hkinds).
  assert (map kind (significant tokens)
          = map kind [{| kind := found; tokenRange := noRange |}]) as Hsame.
  { rewrite significant_kinds, Hkinds. revert Hparse. unfold parse.
    by destruct found. }
  destruct (encodeLiteral literal noRange) as [bytes|failure] eqn:Hencode.
  - rewrite (compileSource_via environment data depth path current _ tokens _
               _ [ResolvedLiteral bytes noRange] Htokens Hsame Hparse).
    + cbn. by rewrite app_nil_r.
    + cbn [resolve resolveNode]. by rewrite Hencode.
  - cbn [compileSource]. rewrite Htokens.
    pose proof (parseTokens_same _ _ [] [] [] [] (same_kinds _ _ Hsame)
                  (List.Forall2_nil _) eq_refl) as Hsimilar.
    fold (parse (significant tokens)) in Hsimilar.
    fold (parse [{| kind := found; tokenRange := noRange |}]) in Hsimilar.
    rewrite Hparse in Hsimilar.
    destruct (parse (significant tokens)) as [[|[] [|]]|]; try done.
    cbn in Hsimilar. injection Hsimilar as ->.
    cbn [resolve resolveNode].
    destruct literal as [value|digits|content]; try done.
    cbn [encodeLiteral] in *.
    destruct (hexToBytes digits); [done|]. by injection Hencode as <-.
Qed.

Lemma compileSource_integer depth path current v :
  verdict (compileSource environment data (S depth) path current (decimal v))
  = inl (bigIntToScriptNumber v).
Proof.
  by rewrite (compileSource_literal depth path current _ (BigIntLiteral v) _
                (Lexes_decimal v) eq_refl).
Qed.

Local Open Scope string_scope.

Lemma compileSource_hex depth path current digits :
  forallb isHexDigit digits = true ->
  verdict (compileSource environment data (S depth) path current
             ("0x" ++ string_of_list_ascii digits))
  = match hexToBytes digits with
    | Some bytes => inl bytes
    | None => inr EncodingError
    end.
Proof.
  intros Hdigits.
  rewrite (compileSource_literal depth path current _ (HexLiteral digits)
             (THex digits)); [|
    |done].
  - cbn. by destruct (hexToBytes digits).
  - change (list_ascii_of_string ("0x" ++ string_of_list_ascii digits))
      with ("0"%char :: "x"%char
            :: list_ascii_of_string (string_of_list_ascii digits)).
    rewrite list_ascii_of_string_of_list_ascii. by apply Lexes_hex.
Qed.

Lemma compileSource_utf8 depth path current quote content :
  quote = "'"%char \/ quote = ascii_of_nat 34 ->
  forallb (fun c => negb (c =? quote)%char) content = true ->
  verdict (compileSource environment data (S depth) path current
             (string_of_list_ascii (quote :: content ++ [quote])))
  = inl (map charCode content).
Proof.
  intros Hquote Hcontent.
  rewrite (compileSource_literal depth path current _ (Utf8Literal content)
             (TUtf8 content)); [done| |done].
  rewrite list_ascii_of_string_of_list_ascii. by apply Lexes_utf8.
Qed.

Lemma compileSource_opcode depth path current first others byte :
  isIdentifierStart first = true ->
  forallb isIdentifierPart others = true ->
  opcodes (maps environment) !! string_of_list_ascii (first :: others)
  = Some byte ->
  verdict (compileSource environment data (S depth) path current
             (string_of_list_ascii (first :: others)))
  = inl [byte].
Proof.
  intros Hfirst Hothers Hopcode.
  destruct (tokenize_Lexes (string_of_list_ascii (first :: others))
              [TIdentifier (string_of_list_ascii (first :: others))])
    as (tokens & Htokens & Hkinds).
  { rewrite list_ascii_of_string_of_list_ascii. by apply Lexes_identifier. }
  rewrite (compileSource_via environment data depth path current _ tokens
             [{| kind := TIdentifier (string_of_list_ascii (first :: others));
                 tokenRange := noRange |}]
             [Identifier (string_of_list_ascii (first :: others)) noRange]
             [ResolvedOpcode byte noRange] Htokens).
  - done.
  - by rewrite significant_kinds, Hkinds.
  - done.
  - cbn [resolve resolveNode]. unfold resolveIdentifier. by rewrite Hopcode.
Qed.

Lemma returned_compileScript scriptId source debug :
  scripts (maps environment) !! scriptId = Some source ->
  returned (generateBytecode (compilerOf environment) scriptId data debug)
  = verdict (compileSource environment data
               (S (size (scripts (maps environment)))) [scriptId] scriptId
               source).
Proof.
  intros Hsource. rewrite returned_generateBytecode.
  unfold compileScript. by rewrite Hsource.
Qed.

End LiteralFacts.


(** * Script numbers are as short as can be *)

Section ShortestFacts.

Import Language.

Lemma littleEndianValue_bound bytes :
  Forall (fun byte => 0 <= byte < 256) bytes ->
  0 <= littleEndianValue bytes < 256 ^ Z.of_nat (List.length bytes).
Proof.
  induction 1 as [|byte bytes Hbyte _ IH]; [done|].
  cbn [littleEndianValue List.length].
  rewrite Nat2Z.inj_succ, Z.pow_succ_r by lia. lia.
Qed.

(** A script number of [k] bytes, [k] not zero, stands for an integer below
    [2 ^ (8 k - 1)] in magnitude. *)
Lemma scriptNumberToBigInt_magnitude bytes :
  bytes <> [] ->
  Forall (fun byte => 0 <= byte < 256) bytes ->
  Z.abs (scriptNumberToBigInt bytes)
  < 2 ^ (8 * Z.of_nat (List.length bytes) - 1).
Proof.
  intros Hnonempty Hbytes.
  destruct (last bytes) as [top|] eqn:Htop;
    [|by apply last_None in Htop].
  unfold scriptNumberToBigInt. rewrite Htop.
  apply last_Some in Htop as [lower ->].
  apply Forall_app in Hbytes as [Hlower Htop].
  rewrite Forall_singleton in Htop.
  pose proof (littleEndianValue_bound _ Hlower) as Hvalue.
  rewrite littleEndianValue_app, length_app. cbn [littleEndianValue List.length].
  replace (List.length lower + 1 - 1)%nat with (List.length lower) by lia.
  replace (8 * Z.of_nat (List.length lower + 1) - 1)
    with (7 + 8 * Z.of_nat (List.length lower)) by lia.
  rewrite Z.pow_add_r, Z.pow_mul_r by lia.
  change (2 ^ 8) with 256. change (2 ^ 7) with 128.
  set (weight := 256 ^ Z.of_nat (List.length lower)) in *.
  rewrite Z.mul_0_r, Z.add_0_r.
  assert (weight * 0 <= weight * top <= weight * 255) as Hproduct by nia.
  destruct (Z.leb_spec 128 top).
  - assert (weight * 128 <= weight * top) by nia. lia.
  - assert (weight * top <= weight * 127) by nia. lia.
Qed.

Lemma bigIntToScriptNumber_bytes v :
  Forall (fun byte => 0 <= byte < 256) (bigIntToScriptNumber v).
Proof.
  unfold bigIntToScriptNumber.
  destruct (magnitudeBytes_spec _ _ (magnitude_bound v))
    as (_ & Hbytes & Hlast & _).
  destruct (last (magnitudeBytes _ (Z.abs v))) as [top|] eqn:Htop; [|done].
  specialize (Hlast top eq_refl).
  apply last_Some in Htop as [lower Hmagnitude].
  rewrite Hmagnitude in *.
  pose proof Hbytes as Hall.
  apply Forall_app in Hbytes as [Hlower Hrange].
  rewrite Forall_singleton in Hrange.
  destruct (Z.leb_spec 128 top).
  - apply Forall_app. split; [done|]. apply Forall_singleton.
    destruct (v <? 0); lia.
  - destruct (v <? 0); [|done]. rewrite removelast_last.
    apply Forall_app. split; [done|]. apply Forall_singleton. lia.
Qed.

(** No sequence of bytes that stands for an integer is shorter than the
    script number of that integer. *)
Lemma bigIntToScriptNumber_shortest v bytes :
  Forall (fun byte => 0 <= byte < 256) bytes ->
  scriptNumberToBigInt bytes = v ->
  (List.length (bigIntToScriptNumber v) <= List.length bytes)%nat.
Proof.
  intros Hbytes <-. destruct bytes as [|byte bytes]; [done|].
  apply bigIntToScriptNumber_length.
  by apply scriptNumberToBigInt_magnitude.
Qed.

End ShortestFacts.


(** * The push of a byte sequence can be read back *)

Section PushEncodingFacts.

Import Language.

Lemma smallIntegers_range v : In v smallIntegers -> v = -1 \/ 1 <= v <= 16.
Proof.
  unfold smallIntegers. cbn. intros Hv.
  repeat (destruct Hv as [<-|Hv]; [lia|]). done.
Qed.

Lemma smallIntegerOpcode_Some data opcode :
  smallIntegerOpcode data = Some opcode ->
  exists v,
    (v = -1 \/ 1 <= v <= 16)
    /\ data = bigIntToScriptNumber v
    /\ opcode = pushSmallInteger v.
Proof.
  unfold smallIntegerOpcode.
  destruct (List.find _ smallIntegers) as [v|] eqn:Hfind; [|done].
  apply find_some in Hfind as [Hv Hsame].
  apply bool_decide_eq_true_1 in Hsame. intros [= <-].
  exists v. split; [by apply smallIntegers_range | done].
Qed.

(** The forms of a push, by its first byte. *)
Lemma encodeDataPush_forms data push :
  encodeDataPush data = Some push ->
  let n := Z.of_nat (List.length data) in
  (data = [] /\ push = [OP_0])
  \/ (exists v, (v = -1 \/ 1 <= v <= 16)
        /\ data = bigIntToScriptNumber v /\ push = [pushSmallInteger v])
  \/ (1 <= n <= 75 /\ push = n :: data)
  \/ (75 < n <= 255 /\ push = OP_PUSHDATA_1 :: n :: data)
  \/ (255 < n /\ push = OP_PUSHDATA_2 :: (littleEndian 2 n ++ data)%list)
  \/ (65535 < n /\ push = OP_PUSHDATA_4 :: (littleEndian 4 n ++ data)%list).
Proof.
  unfold encodeDataPush. cbn zeta.
  destruct (Z.eqb_spec (Z.of_nat (List.length data)) 0) as [Hempty|Hnonempty].
  { intros [= <-]. left. by destruct data. }
  destruct (smallIntegerOpcode data) as [opcode|] eqn:Hsmall.
  { intros [= <-]. right. left.
    destruct (smallIntegerOpcode_Some _ _ Hsmall) as (v & Hv & -> & ->).
    by exists v. }
  repeat match goal with
         | |- context [Z.leb ?a ?b] => destruct (Z.leb_spec a b)
         end; intros [= <-].
  - right. right. left. split; [lia|done].
  - right. right. right. left. split; [lia|done].
  - do 4 right. left. split; [lia|done].
  - do 5 right. split; [lia|done].
Qed.

(** Two byte sequences with the same push are the same sequence. *)
Lemma encodeDataPush_inj data data' push :
  encodeDataPush data = Some push ->
  encodeDataPush data' = Some push ->
  data = data'.
Proof.
  intros Hpush%encodeDataPush_forms Hpush'%encodeDataPush_forms.
  cbn zeta in *. unfold OP_0, OP_PUSHDATA_1, OP_PUSHDATA_2, OP_PUSHDATA_4,
    pushSmallInteger, OP_1NEGATE, OP_1 in *.
  destruct Hpush as [[-> ->]|[(v & Hv & -> & ->)|[[Hn ->]|[[Hn ->]|[[Hn ->]|[Hn ->]]]]]],
    Hpush' as [[-> Hsame]|[(v' & Hv' & -> & Hsame)|[[Hn' Hsame]|[[Hn' Hsame]|[[Hn' Hsame]|[Hn' Hsame]]]]]];
    try done;
    try (destruct data; cbn in *; simplify_eq; lia);
    try (destruct data'; cbn in *; simplify_eq; lia).
  - exfalso. injection Hsame as Hsame.
    destruct (Z.eqb_spec v' (-1)); lia.
  - exfalso. injection Hsame as Hsame.
    destruct (Z.eqb_spec v (-1)); lia.
  - f_equal. injection Hsame as Hsame.
    destruct (Z.eqb_spec v (-1)), (Z.eqb_spec v' (-1)); lia.
  - by injection Hsame as _ Hsame.
  - by injection Hsame as _ Hsame.
  - by injection Hsame as _ _ Hsame.
  - by injection Hsame as _ _ _ _ Hsame.
Qed.

End PushEncodingFacts.


(** * Further properties of the language *)

Section LanguageMore.

Import Language.

Context {VariableDetail CompilationData : Type}.
Variable environment : CompilationEnvironment VariableDetail CompilationData.
Variable data : CompilationData.

Local Open Scope string_scope.

(** X12: statements compile one after the other.  When two scripts compile,
    under the same environment, data and resolution path, the script made
    of the first, a whitespace character and the second compiles to the
    bytecode of the first followed by the bytecode of the second; after a
    first script that ends inside a line comment the character has to be a
    line break. *)
Theorem scripts_in_sequence depth path current first second c bytes bytes' :
  verdict (compileSource environment data depth path current first)
  = inl bytes ->
  verdict (compileSource environment data depth path current second)
  = inl bytes' ->
  isWhitespace c = true ->
  endsInLineComment (list_ascii_of_string first) = false
  \/ isNewline c = true ->
  verdict (compileSource environment data depth path current
             (first ++ String c second))
  = inl (bytes ++ bytes')%list.
Proof. apply compileSource_sequence. Qed.

(** X13: a push wraps what its content compiles to.  When a script that
    does not end inside a line comment compiles to [bytes], the script
    between [<] and [>] compiles to the minimal push of [bytes], or fails
    with an encoding error when [bytes] is too long for any push. *)
Theorem push_of_script depth path current source bytes :
  verdict (compileSource environment data depth path current source)
  = inl bytes ->
  endsInLineComment (list_ascii_of_string source) = false ->
  verdict (compileSource environment data depth path current
             ("<" ++ source ++ ">"))
  = match encodeDataPush bytes with
    | Some push => inl push
    | None => inr EncodingError
    end.
Proof. apply compileSource_push. Qed.

(** X14: whitespace between tokens carries no meaning.  In a script split
    between two of its tokens, a whitespace character put at the split
    changes neither the bytecode the script compiles to nor the kind of
    error it fails with. *)
Theorem whitespace_insertion_inert depth path current before after c :
  tokenBoundary before after ->
  isWhitespace c = true ->
  verdict (compileSource environment data depth path current
             (string_of_list_ascii (before ++ c :: after)))
  = verdict (compileSource environment data depth path current
               (string_of_list_ascii (before ++ after))).
Proof. apply compileSource_whitespace. Qed.

(** X15: a script that is the decimal numeral of an integer compiles to
    the script number of that integer: a sequence of bytes that stands for
    the integer and is no longer than any other sequence of bytes that
    stands for it. *)
Theorem integer_literal_shortest_script_number scriptId debug v :
  scripts (maps environment) !! scriptId = Some (decimal v) ->
  returned (generateBytecode (compilerOf environment) scriptId data debug)
  = inl (bigIntToScriptNumber v)
  /\ Forall (fun byte => 0 <= byte < 256) (bigIntToScriptNumber v)
  /\ scriptNumberToBigInt (bigIntToScriptNumber v) = v
  /\ forall bytes,
      Forall (fun byte => 0 <= byte < 256) bytes ->
      scriptNumberToBigInt bytes = v ->
      (List.length (bigIntToScriptNumber v) <= List.length bytes)%nat.
Proof.
  intros Hsource. repeat split.
  - rewrite (returned_compileScript _ _ _ _ _ Hsource).
    apply compileSource_integer.
  - apply bigIntToScriptNumber_bytes.
  - apply scriptNumber_roundtrip.
  - intros bytes. apply bigIntToScriptNumber_shortest.
Qed.

(** X16: a script that is a hex literal, [0x] and hex digits, compiles to
    the bytes the digits spell when their count is even, and fails with an
    encoding error when it is odd: no digit is padded. *)
Theorem hex_literal_bytes scriptId debug digits :
  scripts (maps environment) !! scriptId
  = Some ("0x" ++ string_of_list_ascii digits) ->
  forallb isHexDigit digits = true ->
  returned (generateBytecode (compilerOf environment) scriptId data debug)
  = match hexToBytes digits with
    | Some bytes => inl bytes
    | None => inr EncodingError
    end
  /\ (is_Some (hexToBytes digits) <-> Nat.even (List.length digits) = true).
Proof.
  intros Hsource Hdigits. split.
  - rewrite (returned_compileScript _ _ _ _ _ Hsource).
    by apply compileSource_hex.
  - apply hexToBytes_even.
Qed.

(** X17: a script that is a quoted text, between two single or two double
    quotes and not holding the quote, compiles to the bytes of the text as
    they are. *)
Theorem utf8_literal_bytes scriptId debug quote content :
  scripts (maps environment) !! scriptId
  = Some (string_of_list_ascii (quote :: content ++ [quote])) ->
  quote = "'"%char \/ quote = ascii_of_nat 34 ->
  forallb (fun c => negb (c =? quote)%char) content = true ->
  returned (generateBytecode (compilerOf environment) scriptId data debug)
  = inl (map charCode content).
Proof.
  intros Hsource Hquote Hcontent.
  rewrite (returned_compileScript _ _ _ _ _ Hsource).
  by apply compileSource_utf8.
Qed.

(** X18: opcode names come first.  A script that is a name of the opcode
    map compiles to the byte of that opcode, whatever variable or script
    of the same name the environment holds. *)
Theorem opcode_name_first scriptId debug first others byte :
  scripts (maps environment) !! scriptId
  = Some (string_of_list_ascii (first :: others)) ->
  isIdentifierStart first = true ->
  forallb isIdentifierPart others = true ->
  opcodes (maps environment) !! string_of_list_ascii (first :: others)
  = Some byte ->
  returned (generateBytecode (compilerOf environment) scriptId data debug)
  = inl [byte].
Proof.
  intros Hsource Hfirst Hothers Hopcode.
  rewrite (returned_compileScript _ _ _ _ _ Hsource).
  by apply compileSource_opcode.
Qed.

(** X19: a push can be read back.  Two byte sequences with the same
    minimal push are the same sequence: the empty push, the small-integer
    opcodes and the length prefixes never meet. *)
Theorem push_read_back (content content' : Bytes) push :
  encodeDataPush content = Some push ->
  encodeDataPush content' = Some push ->
  content = content'.
Proof. apply encodeDataPush_inj. Qed.

End LanguageMore.

Section LanguageMoreExamples.

Import Language.

Local Open Scope string_scope.

(** The scripts [OP_1] and [<2>] on one line. *)
Lemma scripts_in_sequence_witness :
  verdict (compileSource (testEnvironment "") tt 1 [] "test" "OP_1 <2>")
  = inl [0x51; 0x52].
Proof.
  apply (scripts_in_sequence (testEnvironment "") tt 1 [] "test"
           "OP_1" "<2>" " "%char [0x51] [0x52]).
  - reflexivity.
  - reflexivity.
  - reflexivity.
  - left. reflexivity.
Defined.

(** The script [<1>] in a push. *)
Lemma push_of_script_witness :
  verdict (compileSource (testEnvironment "") tt 1 [] "test" "<<1>>")
  = inl [0x01; 0x51].
Proof.
  apply (push_of_script (testEnvironment "") tt 1 [] "test" "<1>" [0x51]).
  - reflexivity.
  - reflexivity.
Defined.

(** A space between the bracket and the integer of [<1>]. *)
Lemma whitespace_insertion_inert_witness :
  verdict (compileSource (testEnvironment "") tt 1 [] "test" "< 1>")
  = verdict (compileSource (testEnvironment "") tt 1 [] "test" "<1>").
Proof.
  apply (whitespace_insertion_inert (testEnvironment "") tt 1 [] "test"
           (list_ascii_of_string "<") (list_ascii_of_string "1>") " "%char).
  - eexists _, _. repeat split; vm_compute; reflexivity.
  - reflexivity.
Defined.

(** The integer [-2147483647] of the end-to-end tests. *)
Lemma integer_literal_shortest_script_number_witness :
  returned
    (generateBytecode (compilerOf (testEnvironment (decimal (-2147483647))))
       "test" tt false)
  = inl (bigIntToScriptNumber (-2147483647)).
Proof.
  destruct (integer_literal_shortest_script_number
              (testEnvironment (decimal (-2147483647))) tt "test" false
              (-2147483647)) as [Hcompiled _].
  - reflexivity.
  - exact Hcompiled.
Defined.

(** The hex literal of the end-to-end tests. *)
Lemma hex_literal_bytes_witness :
  returned
    (generateBytecode (compilerOf (testEnvironment "0xdeadbeef")) "test" tt
       false)
  = inl [0xde; 0xad; 0xbe; 0xef].
Proof.
  destruct (hex_literal_bytes (testEnvironment "0xdeadbeef") tt "test" false
              (list_ascii_of_string "deadbeef")) as [Hcompiled _].
  - reflexivity.
  - reflexivity.
  - exact Hcompiled.
Defined.

(** A text between single quotes. *)
Lemma utf8_literal_bytes_witness :
  returned
    (generateBytecode (compilerOf (testEnvironment "'abc'")) "test" tt false)
  = inl [0x61; 0x62; 0x63].
Proof.
  apply (utf8_literal_bytes (testEnvironment "'abc'") tt "test" false
           "'"%char (list_ascii_of_string "abc")).
  - reflexivity.
  - left. reflexivity.
  - reflexivity.
Defined.

(** The opcode [OP_ADD] of the end-to-end tests. *)
Lemma opcode_name_first_witness :
  returned
    (generateBytecode (compilerOf (testEnvironment "OP_ADD")) "test" tt false)
  = inl [0x93].
Proof.
  apply (opcode_name_first (testEnvironment "OP_ADD") tt "test" false
           "O"%char (list_ascii_of_string "P_ADD") 0x93).
  - reflexivity.
  - reflexivity.
  - reflexivity.
  - reflexivity.
Defined.

(** The push [4f] is that of the script number of [-1] and that of the
    byte [81]. *)
Lemma push_read_back_witness : bigIntToScriptNumber (-1) = [0x81].
Proof.
  apply (push_read_back (bigIntToScriptNumber (-1)) [0x81] [0x4f]);
    reflexivity.
Defined.

End LanguageMoreExamples.

(** * The compiler of the tests among the objects of a program *)

Section StoreExamples.

Import Language.

Local Open Scope string_scope.



End StoreExamples.
